(** * chronam batch loader: a shallow embedding of [chronam/web/batch_loader.py]

    The loader is effectful Python: it reads a batch directory, writes
    Django model instances and talks to a Solr index.  The embedding keeps
    that shape.  A [World] holds the database tables, the calls made on the
    store's delete and on the index, the log, and the fields of the
    [BatchLoader] object; a computation is a function from a world to a
    world and either a value or a raised exception, so that whatever was
    written before an exception stays written, as in Python.

    What lies outside the module is taken as follows.
    - The parsed XML documents are records of the values that the loader's
      XPath queries return on them.
    - The filesystem, [os.path.abspath] and [normpath], [lxml]'s parser, the
      jp2 header reader, the OCR extractor and the [unicode()] of model
      instances are the fields of an [Env].
    - [models.py] is not among the sources: the records carry the fields
      that the loader assigns, and the store's get, save and delete follow
      the specification's record store, delete being Django's cascade.
    - [reset_queries()], the clock readings kept in [times] and the debug
      messages have no counterpart; of the info messages those that print a
      date are left out.  [_chart], which only logs a chart address, is
      modelled on its own, over times whose seconds are kept abstract. *)

From Stdlib Require Import String Ascii List Bool Arith ZArith Lia.
From Stdlib Require Import DecimalString.
Import ListNotations.
Local Open Scope string_scope.
Local Open Scope list_scope.

(** ** Python strings *)

Module Py.

Definition is_slash (c : ascii) : bool := Ascii.eqb c "/".

(** [string.whitespace] of the C locale. *)
Definition is_space (c : ascii) : bool :=
  let n := nat_of_ascii c in
  Nat.eqb n 32 || (Nat.leb 9 n && Nat.leb n 13).

Definition is_digit (c : ascii) : bool :=
  let n := nat_of_ascii c in Nat.leb 48 n && Nat.leb n 57.

(** [\w] of the [re] module without LOCALE or UNICODE: [[a-zA-Z0-9_]]. *)
Definition is_word (c : ascii) : bool :=
  let n := nat_of_ascii c in
  is_digit c || (Nat.leb 65 n && Nat.leb n 90)
  || (Nat.leb 97 n && Nat.leb n 122) || Nat.eqb n 95.

(** [s.rstrip(chars)], [s.lstrip(chars)] and [s.strip()]. *)
Fixpoint rstrip (p : ascii -> bool) (s : string) : string :=
  match s with
  | EmptyString => EmptyString
  | String c r =>
      match rstrip p r with
      | EmptyString => if p c then EmptyString else String c EmptyString
      | r' => String c r'
      end
  end.

Fixpoint lstrip (p : ascii -> bool) (s : string) : string :=
  match s with
  | EmptyString => EmptyString
  | String c r => if p c then lstrip p r else s
  end.

Definition strip (s : string) : string := lstrip is_space (rstrip is_space s).

Fixpoint has_slash (s : string) : bool :=
  match s with
  | EmptyString => false
  | String c r => is_slash c || has_slash r
  end.

(** [posixpath.basename]: what follows the last slash. *)
Fixpoint basename (s : string) : string :=
  match s with
  | EmptyString => EmptyString
  | String c r =>
      if has_slash r then basename r
      else if is_slash c then r else s
  end.

(** What precedes and includes the last slash: [p[:p.rfind('/')+1]]. *)
Fixpoint head_upto_slash (s : string) : string :=
  match s with
  | EmptyString => EmptyString
  | String c r =>
      if has_slash r then String c (head_upto_slash r)
      else if is_slash c then String c EmptyString else EmptyString
  end.

(** [posixpath.dirname]. *)
Definition dirname (s : string) : string :=
  let head := head_upto_slash s in
  match rstrip is_slash head with
  | EmptyString => head
  | h => h
  end.

Fixpoint ends_with_slash (s : string) : bool :=
  match s with
  | EmptyString => false
  | String c EmptyString => is_slash c
  | String _ r => ends_with_slash r
  end.

(** [posixpath.join] of two components. *)
Definition join (a b : string) : string :=
  match b with
  | String c _ =>
      if is_slash c then b
      else if (a =? "") || ends_with_slash a then a ++ b
      else a ++ "/" ++ b
  | EmptyString =>
      if (a =? "") || ends_with_slash a then a else a ++ "/"
  end.

(** [s.split(sep, maxsplit)] for a one-character separator. *)
Fixpoint split_at (sep : ascii) (maxsplit : nat) (s : string) : list string :=
  match s with
  | EmptyString => [EmptyString]
  | String c r =>
      match maxsplit with
      | O => [s]
      | S m =>
          if Ascii.eqb c sep then EmptyString :: split_at sep m r
          else match split_at sep maxsplit r with
               | x :: xs => String c x :: xs
               | [] => [String c EmptyString]
               end
      end
  end.

(** [s.split(sep)] without a bound: no string has more separators than
    characters. *)
Definition split (sep : ascii) (s : string) : list string :=
  split_at sep (String.length s) s.

(** [s.replace(old, '')] for a non-empty [old]: [skip] counts the characters
    of a matched occurrence still to be dropped. *)
Fixpoint remove_from (old : string) (skip : nat) (s : string) : string :=
  match s with
  | EmptyString => EmptyString
  | String c r =>
      match skip with
      | S k => remove_from old k r
      | O =>
          if String.prefix old s
          then remove_from old (String.length old - 1) r
          else String c (remove_from old 0 r)
      end
  end.

Definition remove_all (old s : string) : string :=
  match old with
  | EmptyString => s
  | _ => remove_from old 0 s
  end.

Fixpoint digits_value (acc : Z) (s : string) : option Z :=
  match s with
  | EmptyString => Some acc
  | String c r =>
      if is_digit c
      then digits_value (10 * acc + Z.of_nat (nat_of_ascii c - 48)) r
      else None
  end.

(** [int(s)] on a string: surrounding whitespace, an optional sign, and at
    least one decimal digit; [None] stands for the [ValueError]. *)
Definition int (s : string) : option Z :=
  match strip s with
  | EmptyString => None
  | String c r =>
      if Ascii.eqb c "-" then
        match r with
        | EmptyString => None
        | _ => option_map Z.opp (digits_value 0 r)
        end
      else if Ascii.eqb c "+" then
        match r with
        | EmptyString => None
        | _ => digits_value 0 r
        end
      else digits_value 0 (String c r)
  end.

(** Truth value of a string: non-empty. *)
Definition nonempty (s : string) : bool :=
  match s with EmptyString => false | _ => true end.

End Py.

(** ** The [re] module, as far as [re.match] on a pattern without groups
    goes: whether some prefix of the subject is in the language of the
    pattern. *)

Module Re.

Inductive char_class : Type :=
| CChar (c : ascii)   (* a literal character *)
| CWord               (* \w *)
| CDigit.             (* \d *)

Definition class_mem (k : char_class) (c : ascii) : bool :=
  match k with
  | CChar d => Ascii.eqb c d
  | CWord => Py.is_word c
  | CDigit => Py.is_digit c
  end.

Inductive regex : Type :=
| Null
| Eps
| Sym (k : char_class)
| Cat (r1 r2 : regex)
| Alt (r1 r2 : regex)
| Plus (r : regex).

(** The language of a pattern. *)
Inductive lang : regex -> list ascii -> Prop :=
| L_Eps : lang Eps []
| L_Sym k c : class_mem k c = true -> lang (Sym k) [c]
| L_Cat r1 r2 s1 s2 : lang r1 s1 -> lang r2 s2 -> lang (Cat r1 r2) (s1 ++ s2)
| L_AltL r1 r2 s : lang r1 s -> lang (Alt r1 r2) s
| L_AltR r1 r2 s : lang r2 s -> lang (Alt r1 r2) s
| L_Plus1 r s : lang r s -> lang (Plus r) s
| L_PlusS r s1 s2 : lang r s1 -> lang (Plus r) s2 -> lang (Plus r) (s1 ++ s2).

Fixpoint nullable (r : regex) : bool :=
  match r with
  | Null => false
  | Eps => true
  | Sym _ => false
  | Cat r1 r2 => nullable r1 && nullable r2
  | Alt r1 r2 => nullable r1 || nullable r2
  | Plus r => nullable r
  end.

Fixpoint deriv (c : ascii) (r : regex) : regex :=
  match r with
  | Null => Null
  | Eps => Null
  | Sym k => if class_mem k c then Eps else Null
  | Cat r1 r2 =>
      if nullable r1
      then Alt (Cat (deriv c r1) r2) (deriv c r2)
      else Cat (deriv c r1) r2
  | Alt r1 r2 => Alt (deriv c r1) (deriv c r2)
  | Plus r => Cat (deriv c r) (Alt Eps (Plus r))
  end.

(** [re.match(r, s) is not None]. *)
Fixpoint match_prefix (r : regex) (s : list ascii) : bool :=
  nullable r ||
  match s with
  | [] => false
  | c :: s' => match_prefix (deriv c r) s'
  end.

Definition re_match (r : regex) (s : string) : bool :=
  match_prefix r (list_ascii_of_string s).

Fixpoint lit (s : list ascii) : regex :=
  match s with
  | [] => Eps
  | c :: r => Cat (Sym (CChar c)) (lit r)
  end.

Definition lits (s : string) : regex := lit (list_ascii_of_string s).

End Re.

(** The raw string [r'batch_\w+_\w+_ver\d\d'] of [_normalize_batch_name]. *)
Definition batch_name_re : Re.regex :=
  Re.Cat (Re.lits "batch_")
    (Re.Cat (Re.Plus (Re.Sym Re.CWord))
       (Re.Cat (Re.lits "_")
          (Re.Cat (Re.Plus (Re.Sym Re.CWord))
             (Re.Cat (Re.lits "_ver")
                (Re.Cat (Re.Sym Re.CDigit) (Re.Sym Re.CDigit)))))).

(** ** Exceptions *)

Inductive model : Type := MBatch | MAwardee | MTitle | MReel.

Definition model_name (m : model) : string :=
  match m with
  | MBatch => "Batch" | MAwardee => "Awardee"
  | MTitle => "Title" | MReel => "Reel"
  end.

(** The exception classes the loader raises, catches or lets through.
    [OtherException] is any further subclass of [Exception];
    [KeyboardInterrupt] is a [BaseException] that is not an [Exception]. *)
Inductive exn_class : Type :=
| ValueError
| IndexError
| KeyError
| AttributeError
| IOError
| DoesNotExist (m : model)
| MultipleObjectsReturned (m : model)
| BatchLoaderException
| OtherException
| KeyboardInterrupt.

(** An exception instance: its class and its [str()]. *)
Record exn : Type := Exn { exn_cls : exn_class; exn_str : string }.

Definition model_eqb (a b : model) : bool :=
  match a, b with
  | MBatch, MBatch | MAwardee, MAwardee | MTitle, MTitle | MReel, MReel => true
  | _, _ => false
  end.

(** [isinstance(e, cls)] for the classes named in [except] clauses. *)
Definition is_ValueError (e : exn) : bool :=
  match exn_cls e with ValueError => true | _ => false end.

Definition is_KeyError (e : exn) : bool :=
  match exn_cls e with KeyError => true | _ => false end.

Definition is_BatchLoaderException (e : exn) : bool :=
  match exn_cls e with BatchLoaderException => true | _ => false end.

Definition is_DoesNotExist (m : model) (e : exn) : bool :=
  match exn_cls e with DoesNotExist m' => model_eqb m m' | _ => false end.

Definition is_Exception (e : exn) : bool :=
  match exn_cls e with KeyboardInterrupt => false | _ => true end.

Inductive result (A : Type) : Type :=
| Ok (a : A)
| Raise (e : exn).
Arguments Ok {A} a.
Arguments Raise {A} e.

(** ** The Django models the loader touches

    [chronam/web/models.py] is not part of the sources at hand; the records
    below carry the fields that [batch_loader.py] reads and assigns. *)

(** A column that receives either text taken from the XML or a number. *)
Inductive pyval : Type :=
| PyNone
| PyStr (s : string)
| PyInt (z : Z).

Definition truthy (v : pyval) : bool :=
  match v with
  | PyNone => false
  | PyStr s => Py.nonempty s
  | PyInt z => negb (Z.eqb z 0)
  end.

Record date : Type := Date { year : nat; month : nat; day : nat }.

Record Awardee : Type := { awardee_org_code : string }.

Record Title : Type := { title_lccn : string }.

(** Modelled from the spec: the Batch record, whose identity is its
    (normalized) name, with its awardee reference and manifest filename. *)
Record Batch : Type := {
  batch_name : string;
  batch_awardee : string;
  batch_validated_batch_file : option string
}.

Record Reel : Type := {
  reel_id : option nat;
  reel_number : string;
  reel_batch : string;
  reel_implicit : bool
}.

Record Issue : Type := {
  issue_id : option nat;
  issue_volume : string;
  issue_number : string;
  issue_edition : Z;
  issue_edition_label : string;
  issue_date_issued : date;
  issue_title : string;
  issue_batch : string
}.

Record IssueNote : Type := {
  inote_id : option nat;
  inote_type : string;
  inote_label : string;
  inote_text : string;
  inote_issue : option nat
}.

Record Page : Type := {
  page_id : option nat;
  page_sequence : Z;
  page_number : string;
  page_reel : option nat;
  page_section_label : option string;
  page_issue : option nat;
  page_tiff_filename : option string;
  page_jp2_filename : option string;
  page_jp2_width : pyval;
  page_jp2_length : pyval;
  page_pdf_filename : option string;
  page_ocr_filename : option string;
  page_indexed : bool
}.

Record PageNote : Type := {
  pnote_id : option nat;
  pnote_type : string;
  pnote_label : string;
  pnote_text : string;
  pnote_page : option nat
}.

Record OCR : Type := {
  ocr_id : option nat;
  ocr_text : string;
  ocr_word_coordinates : string;
  ocr_page : option nat
}.

Record LoadBatchEvent : Type := {
  event_batch_name : string;
  event_message : string
}.

(** ** The parsed XML, seen through the loader's XPath queries *)

Record ModsNote : Type := {
  mn_type : string;          (* string(./@type) *)
  mn_displayLabel : string;  (* string(./@displayLabel) *)
  mn_text : string           (* string(.) *)
}.

(** A [mods:mods] element.  Each field is the value of one XPath [string()]
    query of [_load_issue] or [_load_page], which is the empty string when
    nothing matches. *)
Record Mods : Type := {
  mods_volume : string;
  mods_issue : string;
  mods_edition : string;
  mods_edition_caption : string;
  mods_dateIssued : string;
  mods_lccn : string;
  mods_notes : list ModsNote;
  mods_extent_start : string;
  mods_page_number : string;
  mods_reel_number : string;
  mods_section_label : string
}.

(** A [mets:file] element: its USE and ADMID attributes, when present, and
    [string(./mets:FLocat/@xlink:href)]. *)
Record FileEl : Type := {
  file_USE : option string;
  file_href : string;
  file_ADMID : option string
}.

(** A [mets:div] of type np:page: its DMDID attribute, the DMDID of the
    np:section div above it (empty when there is none) and the FILEID
    attribute of each [mets:fptr] child. *)
Record PageDiv : Type := {
  pdiv_DMDID : option string;
  pdiv_section_DMDID : string;
  pdiv_fptrs : list (option string)
}.

Record IssueDiv : Type := {
  idiv_DMDID : option string;
  idiv_pages : list PageDiv
}.

(** An issue METS document: each function field is the node list an XPath
    query returns for the identifier spliced into it. *)
Record MetsDoc : Type := {
  doc_URL : string;                              (* doc.docinfo.URL *)
  doc_issue_divs : list IssueDiv;                (* .//mets:div[@TYPE="np:issue"] *)
  doc_dmdSec_mods : string -> list Mods;         (* dmdSec[@ID=..]/descendant::mods:mods *)
  doc_file : string -> list FileEl;              (* .//mets:file[@ID=..] *)
  doc_ImageLength : string -> list (option string); (* .text of each mix:ImageLength *)
  doc_ImageWidth : string -> list (option string)
}.

(** The batch manifest: the reelNumber attribute of each [ndnp:reel] and the
    text of each [ndnp:issue], either of which can be missing. *)
Record BatchDoc : Type := {
  bdoc_reels : list (option string);
  bdoc_issues : list (option string)
}.

(** ** What lies outside the loader: the filesystem, [os.path], [lxml], the
    jp2 header reader and the OCR extractor. *)
Record Env : Type := {
  STORAGE : string;
  os_path_exists : string -> bool;
  os_path_abspath : string -> string;
  os_path_normpath : string -> string;
  etree_parse_batch : string -> result BatchDoc;
  etree_parse_mets : string -> result MetsDoc;
  j2k_dimensions : string -> result (pyval * pyval);
  ocr_extractor : string -> result (string * string);
  Issue_unicode : Issue -> string;   (* unicode(issue), of models.py *)
  Page_unicode : Page -> string
}.

(** ** The store *)

Record Store : Type := {
  next_id : nat;
  batches : list Batch;
  awardees : list Awardee;
  titles : list Title;
  reels : list Reel;
  issues : list Issue;
  issue_notes : list IssueNote;
  pages : list Page;
  page_notes : list PageNote;
  ocrs : list OCR;
  events : list LoadBatchEvent
}.

(** What the loader asks of the store's [delete] and of the index
    connection, in the order asked. *)
Inductive call : Type :=
| DeletePage (id : nat)
| DeleteIssue (id : nat)
| DeleteBatch (name : string)
| SolrAdd (page : option nat)
| SolrCommit
| SolrDeleteQuery (q : string).

Inductive level : Type := INFO | WARNING | ERROR | EXCEPTION.

(** The database, the calls made so far, the log, and the fields of the
    [BatchLoader] object. *)
Record World : Type := {
  db : Store;
  calls : list call;
  log : list (level * string);
  issues_processed : nat;
  pages_processed : nat;
  PROCESS_OCR : bool;
  current_batch : option Batch
}.

(** [BatchLoader.__init__]: [self.solr] exists exactly when [process_ocr]
    is set. *)
Definition BatchLoader (process_ocr : bool) (st : Store) : World :=
  {| db := st; calls := []; log := [];
     issues_processed := 0; pages_processed := 0;
     PROCESS_OCR := process_ocr; current_batch := None |}.

Definition set_db (st : Store) (w : World) : World :=
  {| db := st; calls := calls w; log := log w;
     issues_processed := issues_processed w;
     pages_processed := pages_processed w;
     PROCESS_OCR := PROCESS_OCR w; current_batch := current_batch w |}.

Definition add_call (c : call) (w : World) : World :=
  {| db := db w; calls := calls w ++ [c]; log := log w;
     issues_processed := issues_processed w;
     pages_processed := pages_processed w;
     PROCESS_OCR := PROCESS_OCR w; current_batch := current_batch w |}.

Definition add_log (l : level) (msg : string) (w : World) : World :=
  {| db := db w; calls := calls w; log := log w ++ [(l, msg)];
     issues_processed := issues_processed w;
     pages_processed := pages_processed w;
     PROCESS_OCR := PROCESS_OCR w; current_batch := current_batch w |}.

Definition set_issues_processed (n : nat) (w : World) : World :=
  {| db := db w; calls := calls w; log := log w;
     issues_processed := n;
     pages_processed := pages_processed w;
     PROCESS_OCR := PROCESS_OCR w; current_batch := current_batch w |}.

Definition set_pages_processed (n : nat) (w : World) : World :=
  {| db := db w; calls := calls w; log := log w;
     issues_processed := issues_processed w;
     pages_processed := n;
     PROCESS_OCR := PROCESS_OCR w; current_batch := current_batch w |}.

Definition set_current_batch (b : Batch) (w : World) : World :=
  {| db := db w; calls := calls w; log := log w;
     issues_processed := issues_processed w;
     pages_processed := pages_processed w;
     PROCESS_OCR := PROCESS_OCR w; current_batch := Some b |}.

Definition set_next_id (n : nat) (st : Store) : Store :=
  {| next_id := n; batches := batches st; awardees := awardees st;
     titles := titles st; reels := reels st; issues := issues st;
     issue_notes := issue_notes st; pages := pages st;
     page_notes := page_notes st; ocrs := ocrs st; events := events st |}.

Definition set_batches (t : list Batch) (st : Store) : Store :=
  {| next_id := next_id st; batches := t; awardees := awardees st;
     titles := titles st; reels := reels st; issues := issues st;
     issue_notes := issue_notes st; pages := pages st;
     page_notes := page_notes st; ocrs := ocrs st; events := events st |}.

Definition set_reels (t : list Reel) (st : Store) : Store :=
  {| next_id := next_id st; batches := batches st; awardees := awardees st;
     titles := titles st; reels := t; issues := issues st;
     issue_notes := issue_notes st; pages := pages st;
     page_notes := page_notes st; ocrs := ocrs st; events := events st |}.

Definition set_issues (t : list Issue) (st : Store) : Store :=
  {| next_id := next_id st; batches := batches st; awardees := awardees st;
     titles := titles st; reels := reels st; issues := t;
     issue_notes := issue_notes st; pages := pages st;
     page_notes := page_notes st; ocrs := ocrs st; events := events st |}.

Definition set_issue_notes (t : list IssueNote) (st : Store) : Store :=
  {| next_id := next_id st; batches := batches st; awardees := awardees st;
     titles := titles st; reels := reels st; issues := issues st;
     issue_notes := t; pages := pages st;
     page_notes := page_notes st; ocrs := ocrs st; events := events st |}.

Definition set_pages (t : list Page) (st : Store) : Store :=
  {| next_id := next_id st; batches := batches st; awardees := awardees st;
     titles := titles st; reels := reels st; issues := issues st;
     issue_notes := issue_notes st; pages := t;
     page_notes := page_notes st; ocrs := ocrs st; events := events st |}.

Definition set_page_notes (t : list PageNote) (st : Store) : Store :=
  {| next_id := next_id st; batches := batches st; awardees := awardees st;
     titles := titles st; reels := reels st; issues := issues st;
     issue_notes := issue_notes st; pages := pages st;
     page_notes := t; ocrs := ocrs st; events := events st |}.

Definition set_ocrs (t : list OCR) (st : Store) : Store :=
  {| next_id := next_id st; batches := batches st; awardees := awardees st;
     titles := titles st; reels := reels st; issues := issues st;
     issue_notes := issue_notes st; pages := pages st;
     page_notes := page_notes st; ocrs := t; events := events st |}.

Definition set_events (t : list LoadBatchEvent) (st : Store) : Store :=
  {| next_id := next_id st; batches := batches st; awardees := awardees st;
     titles := titles st; reels := reels st; issues := issues st;
     issue_notes := issue_notes st; pages := pages st;
     page_notes := page_notes st; ocrs := ocrs st; events := t |}.

Definition with_reel_id (k : nat) (r : Reel) : Reel :=
  {| reel_id := Some k; reel_number := reel_number r;
     reel_batch := reel_batch r; reel_implicit := reel_implicit r |}.

Definition with_issue_id (k : nat) (i : Issue) : Issue :=
  {| issue_id := Some k; issue_volume := issue_volume i;
     issue_number := issue_number i; issue_edition := issue_edition i;
     issue_edition_label := issue_edition_label i;
     issue_date_issued := issue_date_issued i;
     issue_title := issue_title i; issue_batch := issue_batch i |}.

Definition with_inote_id (k : nat) (n : IssueNote) : IssueNote :=
  {| inote_id := Some k; inote_type := inote_type n;
     inote_label := inote_label n; inote_text := inote_text n;
     inote_issue := inote_issue n |}.

Definition with_page_id (k : nat) (p : Page) : Page :=
  {| page_id := Some k; page_sequence := page_sequence p;
     page_number := page_number p; page_reel := page_reel p;
     page_section_label := page_section_label p; page_issue := page_issue p;
     page_tiff_filename := page_tiff_filename p;
     page_jp2_filename := page_jp2_filename p;
     page_jp2_width := page_jp2_width p; page_jp2_length := page_jp2_length p;
     page_pdf_filename := page_pdf_filename p;
     page_ocr_filename := page_ocr_filename p;
     page_indexed := page_indexed p |}.

Definition with_pnote_id (k : nat) (n : PageNote) : PageNote :=
  {| pnote_id := Some k; pnote_type := pnote_type n;
     pnote_label := pnote_label n; pnote_text := pnote_text n;
     pnote_page := pnote_page n |}.

Definition with_ocr_id (k : nat) (o : OCR) : OCR :=
  {| ocr_id := Some k; ocr_text := ocr_text o;
     ocr_word_coordinates := ocr_word_coordinates o; ocr_page := ocr_page o |}.

(** *** Tables keyed by an automatic id

    Modelled from the spec: the record store's get-by-unique-key, save
    (upsert) and delete, which [models.py] inherits from Django. *)
Section Tables.
Context {A : Type} (id_of : A -> option nat) (with_id : nat -> A -> A).

Definition has_id (k : nat) (r : A) : bool :=
  match id_of r with Some j => Nat.eqb j k | None => false end.

Definition ids (t : list A) : list nat :=
  flat_map (fun r => match id_of r with Some k => [k] | None => [] end) t.

(** [Model.save]: an instance without id is inserted under the next id;
    one with an id updates the row of that id, or is inserted when there
    is none.  The result is the instance, the table and the next id. *)
Definition tbl_save (r : A) (t : list A) (next : nat) : A * list A * nat :=
  match id_of r with
  | None => let r' := with_id next r in (r', t ++ [r'], S next)
  | Some k =>
      if existsb (has_id k) t
      then (r, map (fun x => if has_id k x then r else x) t, next)
      else (r, t ++ [r], next)
  end.
End Tables.

Definition mem (k : nat) (l : list nat) : bool := existsb (Nat.eqb k) l.

Definition opt_mem (o : option nat) (l : list nat) : bool :=
  match o with Some k => mem k l | None => false end.

Definition opt_test (f : nat -> bool) (o : option nat) : bool :=
  match o with Some k => f k | None => false end.

(** [Manager.get]: exactly one row must satisfy the lookup. *)
Definition objects_get {A : Type} (m : model) (p : A -> bool) (t : list A)
  : result A :=
  match filter p t with
  | [] => Raise (Exn (DoesNotExist m)
                   (model_name m ++ " matching query does not exist."))
  | [x] => Ok x
  | _ :: _ :: _ =>
      Raise (Exn (MultipleObjectsReturned m)
               ("get() returned more than one " ++ model_name m))
  end.

(** Modelled from the spec: [Model.delete] removes the instance together
    with every row that refers to it, directly or through other removed
    rows (the "single cascading delete" that [_purge_batch] spreads over
    many calls).  [dB] selects the batches to delete by name, [kI] and [kP]
    the issues and pages to delete by id; reels and issues go with their
    batch, pages with their issue or reel, notes with their issue or page,
    OCR with its page. *)
Section Cascade.
Variables (dB : string -> bool) (kI kP : nat -> bool) (st : Store).

(** The reels and the issues of the deleted batches. *)
Definition dead_reels : list nat :=
  ids reel_id (filter (fun r => dB (reel_batch r)) (reels st)).

Definition batch_issues : list nat :=
  ids issue_id (filter (fun i => dB (issue_batch i)) (issues st)).

(** A reference to a deleted issue. *)
Definition dead_issue (o : option nat) : bool :=
  opt_test (fun k => kI k || mem k batch_issues) o.

(** A page whose issue or reel is deleted. *)
Definition orphaned (p : Page) : bool :=
  dead_issue (page_issue p) || opt_mem (page_reel p) dead_reels.

Definition orphans : list nat := ids page_id (filter orphaned (pages st)).

(** A reference to a deleted page. *)
Definition dead_page (o : option nat) : bool :=
  opt_test (fun k => kP k || mem k orphans) o.

Definition cascade : Store :=
  {| next_id := next_id st;
     batches := filter (fun b => negb (dB (batch_name b))) (batches st);
     awardees := awardees st;
     titles := titles st;
     reels := filter (fun r => negb (dB (reel_batch r))) (reels st);
     issues :=
       filter (fun i => negb (opt_test kI (issue_id i) || dB (issue_batch i)))
         (issues st);
     issue_notes :=
       filter (fun n => negb (dead_issue (inote_issue n))) (issue_notes st);
     pages :=
       filter (fun p => negb (opt_test kP (page_id p) || orphaned p))
         (pages st);
     page_notes :=
       filter (fun n => negb (dead_page (pnote_page n))) (page_notes st);
     ocrs := filter (fun o => negb (dead_page (ocr_page o))) (ocrs st);
     events := events st |}.
End Cascade.

Definition none_of {A : Type} (_ : A) : bool := false.

(** ** Computations *)

Definition M (A : Type) : Type := World -> World * result A.

Definition ret {A : Type} (a : A) : M A := fun w => (w, Ok a).

Definition raise {A : Type} (e : exn) : M A := fun w => (w, Raise e).

Definition bind {A B : Type} (m : M A) (k : A -> M B) : M B :=
  fun w =>
    match m w with
    | (w', Ok a) => k a w'
    | (w', Raise e) => (w', Raise e)
    end.

(** [try: m  except cls, e: handler e], where [catches] is the
    [isinstance] test of the clause. *)
Definition try_except {A : Type} (m : M A) (catches : exn -> bool)
  (handler : exn -> M A) : M A :=
  fun w =>
    match m w with
    | (w', Ok a) => (w', Ok a)
    | (w', Raise e) => if catches e then handler e w' else (w', Raise e)
    end.

(** [try: m  finally: fin]. *)
Definition try_finally {A : Type} (m : M A) (fin : M unit) : M A :=
  fun w =>
    match m w with
    | (w', r) =>
        match fin w' with
        | (w'', Ok _) => (w'', r)
        | (w'', Raise e) => (w'', Raise e)
        end
    end.

Definition lift {A : Type} (r : result A) : M A := fun w => (w, r).

Definition gets {A : Type} (f : World -> A) : M A := fun w => (w, Ok (f w)).

Definition modify (f : World -> World) : M unit := fun w => (f w, Ok tt).

Declare Scope py_scope.
Delimit Scope py_scope with py.
Notation "x <- m ;; k" := (bind m (fun x => k))
  (at level 61, m at next level, right associativity) : py_scope.
Notation "m ;;; k" := (bind m (fun _ => k))
  (at level 61, right associativity) : py_scope.
Local Open Scope py_scope.

(** [for x in xs: body x]. *)
Fixpoint for_each {A : Type} (xs : list A) (body : A -> M unit) : M unit :=
  match xs with
  | [] => ret tt
  | x :: rest => body x ;;; for_each rest body
  end.

(** [l[0]] and [el.attrib[key]]. *)
Definition item0 {A : Type} (l : list A) : M A :=
  match l with
  | x :: _ => ret x
  | [] => raise (Exn IndexError "list index out of range")
  end.

Definition attrib {A : Type} (o : option A) (key : string) : M A :=
  match o with
  | Some v => ret v
  | None => raise (Exn KeyError ("'" ++ key ++ "'"))
  end.

Definition logger (l : level) (msg : string) : M unit := modify (add_log l msg).

(** [_logger.exception(e)]. *)
Definition logger_exception (e : exn) : M unit := logger EXCEPTION (exn_str e).

(** ** Formatting and parsing of numbers and dates *)

(** [str(n)], as [%s] prints a number. *)
Definition str_nat (n : nat) : string :=
  NilEmpty.string_of_uint (Nat.to_uint n).

Definition str_Z (z : Z) : string :=
  match z with
  | Zneg p => "-" ++ str_nat (Pos.to_nat p)
  | _ => str_nat (Z.to_nat z)
  end.

Definition digit_of (c : ascii) : nat := nat_of_ascii c - 48.

Definition in_range (lo hi : nat) (c : ascii) : bool :=
  Py.is_digit c && Nat.leb lo (digit_of c) && Nat.leb (digit_of c) hi.

(** The directive [%m] of [_strptime]: [1[0-2]|0[1-9]|[1-9]], alternatives
    tried in this order; the result is the month and what follows it. *)
Definition parse_month (s : string) : option (nat * string) :=
  match s with
  | String a (String b r) =>
      if Ascii.eqb a "1" && in_range 0 2 b then Some (10 + digit_of b, r)
      else if Ascii.eqb a "0" && in_range 1 9 b then Some (digit_of b, r)
      else if in_range 1 9 a then Some (digit_of a, String b r)
      else None
  | String a EmptyString =>
      if in_range 1 9 a then Some (digit_of a, EmptyString) else None
  | EmptyString => None
  end.

(** The directive [%d]: [3[0-1]|[1-2]\d|0[1-9]|[1-9]| [1-9]]. *)
Definition parse_day (s : string) : option (nat * string) :=
  match s with
  | String a (String b r) =>
      if Ascii.eqb a "3" && in_range 0 1 b then Some (30 + digit_of b, r)
      else if in_range 1 2 a && Py.is_digit b
           then Some (10 * digit_of a + digit_of b, r)
      else if Ascii.eqb a "0" && in_range 1 9 b then Some (digit_of b, r)
      else if in_range 1 9 a then Some (digit_of a, String b r)
      else if Ascii.eqb a " " && in_range 1 9 b then Some (digit_of b, r)
      else None
  | String a EmptyString =>
      if in_range 1 9 a then Some (digit_of a, EmptyString) else None
  | EmptyString => None
  end.

Definition is_leap (y : nat) : bool :=
  (Nat.eqb (y mod 4) 0 && negb (Nat.eqb (y mod 100) 0))
  || Nat.eqb (y mod 400) 0.

Definition days_in_month (y m : nat) : nat :=
  match m with
  | 2 => if is_leap y then 29 else 28
  | 4 | 6 | 9 | 11 => 30
  | _ => 31
  end.

(** [datetime.strptime(s, '%Y-%m-%d')]: four digits, a dash, a month, a
    dash, a day and nothing more, naming a day of the calendar from year 1
    on; [None] stands for the [ValueError]. *)
Definition strptime_Ymd (s : string) : option date :=
  match s with
  | String y1 (String y2 (String y3 (String y4 (String dash1 r)))) =>
      if Py.is_digit y1 && Py.is_digit y2 && Py.is_digit y3 && Py.is_digit y4
         && Ascii.eqb dash1 "-"
      then
        let y := 1000 * digit_of y1 + 100 * digit_of y2
                 + 10 * digit_of y3 + digit_of y4 in
        match parse_month r with
        | Some (m, String dash2 r') =>
            if Ascii.eqb dash2 "-" then
              match parse_day r' with
              | Some (d, EmptyString) =>
                  if Nat.leb 1 y && Nat.leb d (days_in_month y m)
                  then Some (Date y m d) else None
              | _ => None
              end
            else None
        | _ => None
        end
      else None
  | _ => None
  end.

(** ** Store operations as computations *)

Definition Reel_save (r : Reel) : M Reel :=
  fun w =>
    let st := db w in
    let '(r', t, n) := tbl_save reel_id with_reel_id r (reels st) (next_id st) in
    (set_db (set_next_id n (set_reels t st)) w, Ok r').

Definition Issue_save (i : Issue) : M Issue :=
  fun w =>
    let st := db w in
    let '(i', t, n) :=
      tbl_save issue_id with_issue_id i (issues st) (next_id st) in
    (set_db (set_next_id n (set_issues t st)) w, Ok i').

Definition IssueNote_save (x : IssueNote) : M IssueNote :=
  fun w =>
    let st := db w in
    let '(x', t, n) :=
      tbl_save inote_id with_inote_id x (issue_notes st) (next_id st) in
    (set_db (set_next_id n (set_issue_notes t st)) w, Ok x').

Definition Page_save (p : Page) : M Page :=
  fun w =>
    let st := db w in
    let '(p', t, n) := tbl_save page_id with_page_id p (pages st) (next_id st) in
    (set_db (set_next_id n (set_pages t st)) w, Ok p').

Definition PageNote_save (x : PageNote) : M PageNote :=
  fun w =>
    let st := db w in
    let '(x', t, n) :=
      tbl_save pnote_id with_pnote_id x (page_notes st) (next_id st) in
    (set_db (set_next_id n (set_page_notes t st)) w, Ok x').

Definition OCR_save (o : OCR) : M OCR :=
  fun w =>
    let st := db w in
    let '(o', t, n) := tbl_save ocr_id with_ocr_id o (ocrs st) (next_id st) in
    (set_db (set_next_id n (set_ocrs t st)) w, Ok o').

Definition named (name : string) (b : Batch) : bool := batch_name b =? name.

(** [batch.save()]: the name is the key. *)
Definition upsert_batch (b : Batch) (t : list Batch) : list Batch :=
  if existsb (named (batch_name b)) t
  then map (fun x => if named (batch_name b) x then b else x) t
  else t ++ [b].

Definition Batch_save (b : Batch) : M unit :=
  modify (fun w => set_db (set_batches (upsert_batch b (batches (db w))) (db w)) w).

Definition LoadBatchEvent_save (e : LoadBatchEvent) : M unit :=
  modify (fun w => set_db (set_events (events (db w) ++ [e]) (db w)) w).

Definition Batch_objects_get (name : string) : M Batch :=
  fun w => (w, objects_get MBatch (named name) (batches (db w))).

(** [Batch.objects.filter(name=batch_name).count()]. *)
Definition Batch_objects_count (name : string) : M nat :=
  gets (fun w => List.length (filter (named name) (batches (db w)))).

Definition Awardee_objects_get (org_code : string) : M Awardee :=
  fun w =>
    (w, objects_get MAwardee (fun a => awardee_org_code a =? org_code)
          (awardees (db w))).

Definition Title_objects_get (lccn : string) : M Title :=
  fun w =>
    (w, objects_get MTitle (fun t => title_lccn t =? lccn) (titles (db w))).

Definition Reel_objects_get (number : string) (batch : Batch) : M Reel :=
  fun w =>
    (w, objects_get MReel
          (fun r => (reel_number r =? number)
                    && (reel_batch r =? batch_name batch))
          (reels (db w))).

(** [batch.issues.all()] and [issue.pages.all()], evaluated when the loop
    over them starts. *)
Definition Batch_issues_all (batch : Batch) : M (list Issue) :=
  gets (fun w =>
          filter (fun i => issue_batch i =? batch_name batch) (issues (db w))).

Definition Issue_pages_all (issue : Issue) : M (list Page) :=
  gets (fun w =>
          match issue_id issue with
          | Some k => filter (fun p => opt_test (Nat.eqb k) (page_issue p))
                        (pages (db w))
          | None => []
          end).

Definition unsaved (m : string) : exn :=
  Exn OtherException
    (m ++ " object can't be deleted because its id attribute is set to None.").

Definition Page_delete (p : Page) : M unit :=
  match page_id p with
  | None => raise (unsaved "Page")
  | Some k =>
      modify (fun w =>
        add_call (DeletePage k)
          (set_db (cascade none_of none_of (Nat.eqb k) (db w)) w))
  end.

Definition Issue_delete (i : Issue) : M unit :=
  match issue_id i with
  | None => raise (unsaved "Issue")
  | Some k =>
      modify (fun w =>
        add_call (DeleteIssue k)
          (set_db (cascade none_of (Nat.eqb k) none_of (db w)) w))
  end.

Definition Batch_delete (b : Batch) : M unit :=
  modify (fun w =>
    add_call (DeleteBatch (batch_name b))
      (set_db (cascade (String.eqb (batch_name b)) none_of none_of (db w)) w)).

(** A request on [self.solr], an attribute that [__init__] sets only when
    OCR processing is on. *)
Definition solr (c : call) : M unit :=
  fun w =>
    if PROCESS_OCR w then (add_call c w, Ok tt)
    else (w, Raise (Exn AttributeError
                      "'BatchLoader' object has no attribute 'solr'")).

(** ** The loader *)

Definition dquote : string := String (ascii_of_nat 34) EmptyString.

Definition BLE (msg : string) : exn := Exn BatchLoaderException msg.

(** [_normalize_batch_name]. *)
Definition _normalize_batch_name (batch_name : string) : M string :=
  let batch_name := Py.rstrip Py.is_slash batch_name in
  let batch_name := Py.basename batch_name in
  if negb (Re.re_match batch_name_re batch_name) then
    let msg := ("unrecognized format for batch name " ++ batch_name)%string in
    logger ERROR msg ;;;
    raise (BLE msg)
  else ret batch_name.

(** [dmd_mods]. *)
Definition dmd_mods (doc : MetsDoc) (dmdid : string) : M Mods :=
  item0 (doc_dmdSec_mods doc dmdid).

(** [get_dimensions]: the pair (length, width). *)
Definition get_dimensions (doc : MetsDoc) (admid : string)
  : option string * option string :=
  let length := doc_ImageLength doc admid in
  let width := doc_ImageWidth doc admid in
  match length, width with
  | l :: _, w :: _ => (l, w)
  | _, _ => (None, None)
  end.

(** Truth value of an element's [.text], which is [None] or a string. *)
Definition text_truthy (o : option string) : bool :=
  match o with Some s => Py.nonempty s | None => false end.

Definition text_val (o : option string) : pyval :=
  match o with Some s => PyStr s | None => PyNone end.

Definition with_files (p : Page) (tiff jp2 : option string)
  (width length : pyval) (pdf ocr : option string) (indexed : bool) : Page :=
  {| page_id := page_id p; page_sequence := page_sequence p;
     page_number := page_number p; page_reel := page_reel p;
     page_section_label := page_section_label p; page_issue := page_issue p;
     page_tiff_filename := tiff; page_jp2_filename := jp2;
     page_jp2_width := width; page_jp2_length := length;
     page_pdf_filename := pdf; page_ocr_filename := ocr;
     page_indexed := indexed |}.

Definition set_tiff_filename (f : string) (p : Page) : Page :=
  with_files p (Some f) (page_jp2_filename p) (page_jp2_width p)
    (page_jp2_length p) (page_pdf_filename p) (page_ocr_filename p)
    (page_indexed p).

Definition set_jp2_filename (f : string) (p : Page) : Page :=
  with_files p (page_tiff_filename p) (Some f) (page_jp2_width p)
    (page_jp2_length p) (page_pdf_filename p) (page_ocr_filename p)
    (page_indexed p).

Definition set_jp2_dimensions (width length : pyval) (p : Page) : Page :=
  with_files p (page_tiff_filename p) (page_jp2_filename p) width length
    (page_pdf_filename p) (page_ocr_filename p) (page_indexed p).

Definition set_pdf_filename (f : string) (p : Page) : Page :=
  with_files p (page_tiff_filename p) (page_jp2_filename p) (page_jp2_width p)
    (page_jp2_length p) (Some f) (page_ocr_filename p) (page_indexed p).

Definition set_ocr_filename (f : string) (p : Page) : Page :=
  with_files p (page_tiff_filename p) (page_jp2_filename p) (page_jp2_width p)
    (page_jp2_length p) (page_pdf_filename p) (Some f) (page_indexed p).

Definition set_indexed (p : Page) : Page :=
  with_files p (page_tiff_filename p) (page_jp2_filename p) (page_jp2_width p)
    (page_jp2_length p) (page_pdf_filename p) (page_ocr_filename p) true.

Definition set_validated_batch_file (f : string) (b : Batch) : Batch :=
  {| batch_name := batch_name b; batch_awardee := batch_awardee b;
     batch_validated_batch_file := Some f |}.

Definition batch_file_aliases : list string :=
  ["batch_1.xml"; "BATCH_1.xml"; "batchfile_1.xml"; "batch_2.xml";
   "BATCH_2.xml"; "batch.xml"].

Section Loader.
Variable env : Env.

(** Modelled from the spec: [Batch.path], the batch's root under the
    configured storage root, and the paths [models.py] derives from it. *)
Definition Batch_path (name : string) : string := Py.join (STORAGE env) name.

Definition Batch_validated_batch_file_path (b : Batch) : M string :=
  match batch_validated_batch_file b with
  | Some f => ret (Py.join (Batch_path (batch_name b)) f)
  | None =>
      raise (Exn AttributeError
               "'Batch' object has no attribute 'validated_batch_file'")
  end.

Definition abs_filename (issue : Issue) (f : option string) : string :=
  Py.join (Batch_path (issue_batch issue))
    (match f with Some s => s | None => "" end).

(** The loop of [_find_batch_file].  The first component tells whether
    the loop was left through [break]; the second is the variable
    [validated_batch_file]. *)
Fixpoint _find_batch_file_loop (path : string) (aliases : list string)
  (validated_batch_file : option string) : bool * option string :=
  match aliases with
  | [] => (false, validated_batch_file)
  | alias :: rest =>
      if os_path_exists env (Py.join path alias)
      then (true, Some alias)
      else _find_batch_file_loop path rest (Some "batch.xml")
  end.

(** [_find_batch_file]: the [else] of the [for] runs when the loop ends
    without [break]. *)
Definition _find_batch_file (batch : Batch) : M string :=
  let path := Batch_path (batch_name batch) in
  match _find_batch_file_loop path batch_file_aliases None with
  | (true, Some validated_batch_file) => ret validated_batch_file
  | (true, None) =>
      raise (Exn OtherException
               "local variable 'validated_batch_file' referenced before assignment")
  | (false, _) =>
      raise (BLE ("could not find batch_1.xml (or any of its aliases) in "
                  ++ path ++ "--has the batch been validated?"))
  end.

(** [_sanity_check_batch]; the batch object it assigns to is returned. *)
Definition _sanity_check_batch (batch : Batch) : M Batch :=
  let path := Batch_path (batch_name batch) in
  if negb (os_path_exists env path)
  then raise (BLE ("batch does not exist at " ++ path))
  else
    f <- _find_batch_file batch ;;
    ret (set_validated_batch_file f batch).

(** [_create_batch]. *)
Definition _create_batch (batch_name : string) : M Batch :=
  n <- Batch_objects_count batch_name ;;
  if negb (Nat.eqb n 0)
  then raise (BLE ("batch " ++ batch_name ++ " already loaded"))
  else
    match Py.split_at "_" 3 batch_name with
    | [_; org_code; name_part; version] =>
        awardee <-
          try_except (Awardee_objects_get org_code)
            (is_DoesNotExist MAwardee)
            (fun _ =>
               let msg := ("no awardee for org code: " ++ org_code)%string in
               logger ERROR msg ;;; raise (BLE msg)) ;;
        let batch :=
          {| batch_name := Py.basename batch_name;
             batch_awardee := awardee_org_code awardee;
             batch_validated_batch_file := None |} in
        Batch_save batch ;;;
        ret batch
    | parts =>
        raise (Exn ValueError
                 ("need more than " ++ str_nat (List.length parts)
                  ++ " values to unpack"))
    end.

(** [_get_batch]. *)
Definition _get_batch (batch_name : string) (create : bool) : M Batch :=
  if create then _create_batch batch_name
  else Batch_objects_get batch_name.

(** [storage_relative_path]. *)
Definition storage_relative_path (path : string) : M string :=
  cb <- gets current_batch ;;
  match cb with
  | None =>
      raise (Exn AttributeError
               "'BatchLoader' object has no attribute 'current_batch'")
  | Some b =>
      let full_path := os_path_abspath env path in
      let rel_path := Py.remove_all (Batch_path (batch_name b)) full_path in
      ret (Py.lstrip (fun c => Ascii.eqb c "." || Ascii.eqb c "/") rel_path)
  end.

(** [process_ocr]; the page object it mutates is returned, and [issue] is
    the page's [page.issue]. *)
Definition process_ocr (issue : Issue) (page : Page) (index : bool)
  : M Page :=
  tc <- lift (ocr_extractor env (abs_filename issue (page_ocr_filename page))) ;;
  let '(text, coords) := tc in
  OCR_save {| ocr_id := None; ocr_text := text;
              ocr_word_coordinates := coords;
              ocr_page := page_id page |} ;;;
  page <- (if index
           then solr (SolrAdd (page_id page)) ;;; ret (set_indexed page)
           else ret page) ;;
  Page_save page.

Definition the_current_batch : M Batch :=
  cb <- gets current_batch ;;
  match cb with
  | Some b => ret b
  | None =>
      raise (Exn AttributeError
               "'BatchLoader' object has no attribute 'current_batch'")
  end.

(** The loop over the ADMID identifiers of a service file: it is left at
    the first identifier whose technical metadata gives both a length and
    a width. *)
Fixpoint admid_loop (doc : MetsDoc) (admids : list string) (page : Page)
  : Page :=
  match admids with
  | [] => page
  | admid :: rest =>
      let '(length, width) := get_dimensions doc admid in
      if text_truthy length && text_truthy width
      then set_jp2_dimensions (text_val width) (text_val length) page
      else admid_loop doc rest page
  end.

Definition page_error (what : string) (issue : Issue) (page : Page) : exn :=
  BLE (what ++ " for issue: " ++ Issue_unicode env issue
       ++ " page: " ++ Page_unicode env page).

(** The [try]/[except KeyError] of the service branch of [_load_page] and
    the two checks that follow it. *)
Definition jp2_dimensions (doc : MetsDoc) (file_el : FileEl)
  (issue : Issue) (page : Page) : M Page :=
  page <-
    try_except
      (admid <- attrib (file_ADMID file_el) "ADMID" ;;
       ret (admid_loop doc (Py.split " " admid) page))
      is_KeyError
      (fun _ =>
         logger INFO
           ("Could not determine dimensions of jp2 for issue: "
            ++ Issue_unicode env issue ++ " page: "
            ++ Page_unicode env page ++ "... trying harder...") ;;;
         wl <- lift (j2k_dimensions env
                       (abs_filename issue (page_jp2_filename page))) ;;
         let '(width, length) := wl in
         ret (set_jp2_dimensions width length page)) ;;
  if negb (truthy (page_jp2_width page))
  then raise (page_error "No jp2 width" issue page)
  else if negb (truthy (page_jp2_length page))
  then raise (page_error "No jp2 length" issue page)
  else ret page.

(** The body of the loop over the [mets:fptr] children of a page div. *)
Definition load_file (doc : MetsDoc) (issue : Issue) (page : Page)
  (fptr : option string) : M Page :=
  file_id <- attrib fptr "FILEID" ;;
  file_el <- item0 (doc_file doc file_id) ;;
  file_type <- attrib (file_USE file_el) "USE" ;;
  let file_name := file_href file_el in
  let file_name := Py.join (Py.dirname (doc_URL doc)) file_name in
  file_name <- storage_relative_path file_name ;;
  if file_type =? "master" then ret (set_tiff_filename file_name page)
  else if file_type =? "service"
  then jp2_dimensions doc file_el issue (set_jp2_filename file_name page)
  else if file_type =? "derivative"
  then ret (set_pdf_filename file_name page)
  else if file_type =? "ocr" then ret (set_ocr_filename file_name page)
  else ret page.

Fixpoint load_files (doc : MetsDoc) (issue : Issue) (page : Page)
  (fptrs : list (option string)) : M Page :=
  match fptrs with
  | [] => ret page
  | fptr :: rest =>
      page <- load_file doc issue page fptr ;;
      load_files doc issue page rest
  end.

(** [_load_page]. *)
Definition _load_page (doc : MetsDoc) (div : PageDiv) (issue : Issue)
  : M Page :=
  dmdid <- attrib (pdiv_DMDID div) "DMDID" ;;
  mods <- dmd_mods doc dmdid ;;
  let seq_string := mods_extent_start mods in
  sequence <-
    match Py.int seq_string with
    | Some z => ret z
    | None =>
        raise (BLE ("could not determine sequence number for page from '"
                    ++ seq_string ++ "'"))
    end ;;
  let number := Py.strip (mods_page_number mods) in
  let reel_number := Py.strip (mods_reel_number mods) in
  reel <-
    try_except
      (cb <- the_current_batch ;;
       r <- Reel_objects_get reel_number cb ;;
       ret (reel_id r))
      (is_DoesNotExist MReel)
      (fun _ =>
         if Py.nonempty reel_number then
           cb <- the_current_batch ;;
           r <- Reel_save {| reel_id := None; reel_number := reel_number;
                             reel_batch := batch_name cb;
                             reel_implicit := true |} ;;
           ret (reel_id r)
         else
           logger WARNING "unable to find reel number in page metadata" ;;;
           ret None) ;;
  logger INFO ("Assigned page sequence: " ++ str_Z sequence) ;;;
  let _section_dmdid := pdiv_section_DMDID div in
  section_label <-
    (if Py.nonempty _section_dmdid then
       section_mods <- dmd_mods doc _section_dmdid ;;
       let section_label := Py.strip (mods_section_label section_mods) in
       ret (if Py.nonempty section_label then Some section_label else None)
     else ret None) ;;
  page <-
    Page_save {| page_id := None; page_sequence := sequence;
                 page_number := number; page_reel := reel;
                 page_section_label := section_label;
                 page_issue := issue_id issue;
                 page_tiff_filename := None; page_jp2_filename := None;
                 page_jp2_width := PyNone; page_jp2_length := PyNone;
                 page_pdf_filename := None; page_ocr_filename := None;
                 page_indexed := false |} ;;
  for_each (mods_notes mods)
    (fun mods_note =>
       PageNote_save {| pnote_id := None; pnote_type := mn_type mods_note;
                        pnote_label := mn_displayLabel mods_note;
                        pnote_text := Py.strip (mn_text mods_note);
                        pnote_page := page_id page |} ;;;
       ret tt) ;;;
  page <- load_files doc issue page (pdiv_fptrs div) ;;
  process <- gets PROCESS_OCR ;;
  page <-
    (if text_truthy (page_ocr_filename page) then
       if process then process_ocr issue page true else ret page
     else
       logger INFO ("No ocr filename for issue: " ++ Issue_unicode env issue
                    ++ " page: " ++ Page_unicode env page) ;;;
       ret page) ;;
  Page_save page.

(** The loop of [_load_issue] over the page divs. *)
Fixpoint load_pages (doc : MetsDoc) (issue : Issue) (divs : list PageDiv)
  : M unit :=
  match divs with
  | [] => ret tt
  | page_div :: rest =>
      try_finally
        (try_except
           (_load_page doc page_div issue ;;; ret tt)
           is_BatchLoaderException
           (fun e => logger_exception e))
        (modify (fun w => set_pages_processed (pages_processed w + 1) w)) ;;;
      load_pages doc issue rest
  end.

(** The first part of [_load_issue]: the issue's own record, parsed from the
    descriptive metadata of the issue div and saved with its notes. *)
Definition load_issue_record (doc : MetsDoc) (div : IssueDiv) : M Issue :=
  dmdid <- attrib (idiv_DMDID div) "DMDID" ;;
  mods <- dmd_mods doc dmdid ;;
  let volume := Py.strip (mods_volume mods) in
  let number := Py.strip (mods_issue mods) in
  edition <-
    match Py.int (mods_edition mods) with
    | Some z => ret z
    | None =>
        raise (Exn ValueError
                 ("invalid literal for int() with base 10: '"
                  ++ mods_edition mods ++ "'"))
    end ;;
  let edition_label := Py.strip (mods_edition_caption mods) in
  let date_issued := mods_dateIssued mods in
  date_issued <-
    match strptime_Ymd date_issued with
    | Some d => ret d
    | None =>
        raise (Exn ValueError
                 ("time data '" ++ date_issued
                  ++ "' does not match format '%Y-%m-%d'"))
    end ;;
  let lccn := Py.strip (mods_lccn mods) in
  title <- Title_objects_get lccn ;;
  cb <- the_current_batch ;;
  issue <-
    Issue_save {| issue_id := None; issue_volume := volume;
                  issue_number := number; issue_edition := edition;
                  issue_edition_label := edition_label;
                  issue_date_issued := date_issued;
                  issue_title := title_lccn title;
                  issue_batch := batch_name cb |} ;;
  for_each (mods_notes mods)
    (fun mods_note =>
       IssueNote_save {| inote_id := None; inote_type := mn_type mods_note;
                         inote_label := mn_displayLabel mods_note;
                         inote_text := mn_text mods_note;
                         inote_issue := issue_id issue |} ;;;
       ret tt) ;;;
  Issue_save issue.

(** [_load_issue]: the issue's record, then its pages. *)
Definition _load_issue (mets_file : string) : M Issue :=
  doc <- lift (etree_parse_mets env mets_file) ;;
  div <- item0 (doc_issue_divs doc) ;;
  issue <- load_issue_record doc div ;;
  load_pages doc issue (idiv_pages div) ;;;
  ret issue.

(** The loop of [load_batch] over the [ndnp:reel] elements. *)
Definition load_reel (batch : Batch) (e : option string) : M unit :=
  reelNumber <- attrib e "reelNumber" ;;
  let reel_number := Py.strip reelNumber in
  try_except
    (Reel_objects_get reel_number batch ;;; ret tt)
    (is_DoesNotExist MReel)
    (fun _ =>
       Reel_save {| reel_id := None; reel_number := reel_number;
                    reel_batch := batch_name batch;
                    reel_implicit := false |} ;;;
       ret tt).

(** The loop of [load_batch] over the [ndnp:issue] elements.  [times]
    keeps, of each pair the source appends, the page count; the seconds
    elapsed are a reading of the clock. *)
Fixpoint load_issues (batch : Batch) (es : list (option string))
  (times : list nat) : M (list nat) :=
  match es with
  | [] => ret times
  | e :: rest =>
      mets_file <-
        match e with
        | Some text =>
            ret (os_path_normpath env
                   (Py.join (Batch_path (batch_name batch)) text))
        | None =>
            raise (Exn AttributeError
                     "'NoneType' object has no attribute 'startswith'")
        end ;;
      loaded <-
        try_except
          (issue <- _load_issue mets_file ;; ret (Some issue))
          is_ValueError
          (fun e => logger_exception e ;;; ret None) ;;
      match loaded with
      | None => load_issues batch rest times
      | Some _ =>
          modify (fun w => set_issues_processed (issues_processed w + 1) w) ;;;
          pages <- gets pages_processed ;;
          load_issues batch rest (times ++ [pages])
      end
  end.

(** What [load_batch] does inside its [try], from the manifest on; the
    closing [_chart(times)] only logs. *)
Definition load_manifest (batch_name : string) (batch : Batch) : M Batch :=
  path <- Batch_validated_batch_file_path batch ;;
  doc <- lift (etree_parse_batch env path) ;;
  for_each (bdoc_reels doc) (load_reel batch) ;;;
  load_issues batch (bdoc_issues doc) [] ;;;
  process <- gets PROCESS_OCR ;;
  (if process then solr SolrCommit else ret tt) ;;;
  Batch_save batch ;;;
  n <- gets issues_processed ;;
  let msg := ("processed " ++ str_nat n ++ " issues")%string in
  logger INFO msg ;;;
  LoadBatchEvent_save {| event_batch_name := batch_name;
                         event_message := msg |} ;;;
  ret batch.

(** The body of the [try] of [load_batch]. *)
Definition load_batch_try (batch_name : string) : M Batch :=
  batch <- _get_batch batch_name true ;;
  batch <- _sanity_check_batch batch ;;
  modify (set_current_batch batch) ;;;
  load_manifest batch_name batch.

(** The [except BaseException] of [load_batch]. *)
Definition load_batch_except (batch_name : string) (e : exn) : M Batch :=
  let msg := ("unable to load batch: " ++ exn_str e)%string in
  logger ERROR msg ;;;
  logger_exception e ;;;
  LoadBatchEvent_save {| event_batch_name := batch_name;
                         event_message := msg |} ;;;
  raise (BLE msg).

(** [load_batch], from the "starting load" event on. *)
Definition load_batch_fresh (batch_name : string) : M Batch :=
  logger INFO ("loading batch: " ++ batch_name) ;;;
  LoadBatchEvent_save {| event_batch_name := batch_name;
                         event_message := "starting load" |} ;;;
  try_except (load_batch_try batch_name) (fun _ => true)
    (load_batch_except batch_name).

(** [load_batch]. *)
Definition load_batch (batch_name : string) (strict : bool) : M Batch :=
  batch_name <- _normalize_batch_name batch_name ;;
  found <-
    (if negb strict then
       try_except
         (batch <- Batch_objects_get batch_name ;;
          logger INFO ("Batch already loaded: " ++ batch_name) ;;;
          ret (Some batch))
         (is_DoesNotExist MBatch)
         (fun _ => ret None)
     else ret None) ;;
  match found with
  | Some batch => ret batch
  | None => load_batch_fresh batch_name
  end.

(** The body of the loop of [_purge_batch] over the issues. *)
Definition purge_issue (issue : Issue) : M unit :=
  all_pages <- Issue_pages_all issue ;;
  for_each all_pages Page_delete ;;;
  Issue_delete issue.

(** [_purge_batch]. *)
Definition _purge_batch (batch : Batch) : M unit :=
  let batch_name := batch_name batch in
  all_issues <- Batch_issues_all batch ;;
  for_each all_issues purge_issue ;;;
  Batch_delete batch ;;;
  solr (SolrDeleteQuery ("batch:" ++ dquote ++ batch_name ++ dquote)) ;;;
  solr SolrCommit.

(** [purge_batch]. *)
Definition purge_batch (batch_name : string) : M unit :=
  LoadBatchEvent_save {| event_batch_name := batch_name;
                         event_message := "starting purge" |} ;;;
  try_except
    (batch <- _get_batch batch_name false ;;
     _purge_batch batch ;;;
     LoadBatchEvent_save {| event_batch_name := batch_name;
                            event_message := "purged" |})
    is_Exception
    (fun e =>
       let msg := ("purge failed: " ++ exn_str e)%string in
       logger ERROR msg ;;;
       logger_exception e ;;;
       LoadBatchEvent_save {| event_batch_name := batch_name;
                              event_message := msg |} ;;;
       raise (BLE msg)).
End Loader.

(** ** The chart of a load's progress

    [_chart] receives the pairs that [load_batch] appends to [times]: the
    seconds elapsed, a float, and the pages processed so far.  The float and
    its rendering by [%.2f] belong to the interpreter; they are the type
    [Seconds] and the function [format_2f]. *)

(** [l[i]] for a list and a non-negative index, and [l[-1]]. *)
Definition getitem {A : Type} (l : list A) (i : nat) : M A :=
  match nth_error l i with
  | Some x => ret x
  | None => raise (Exn IndexError "list index out of range")
  end.

Definition item_last {A : Type} (l : list A) : M A :=
  match rev l with
  | x :: _ => ret x
  | [] => raise (Exn IndexError "list index out of range")
  end.

(** [range(start, num, step)] for a positive [step], as the loop over it
    runs: [i] is yielded while it is below [num].  No range below [num] has
    more than [num] members, which bounds the recursion. *)
Fixpoint range_from (fuel i num step : nat) : list nat :=
  match fuel with
  | O => []
  | S fuel' =>
      if Nat.ltb i num then i :: range_from fuel' (i + step) num step
      else []
  end.

Definition py_range (num step : nat) : list nat := range_from num 0 num step.

(** A list comprehension [[f x for x in xs]]. *)
Fixpoint comprehension {A B : Type} (xs : list A) (f : A -> M B) : M (list B) :=
  match xs with
  | [] => ret []
  | x :: rest =>
      y <- f x ;;
      ys <- comprehension rest f ;;
      ret (y :: ys)
  end.

Definition newline : string := String (ascii_of_nat 10) EmptyString.

Section Chart.
Context {Seconds : Type} (format_2f : Seconds -> string).

(** [_chart]. *)
Definition _chart (times : list (Seconds * nat)) : M unit :=
  let num := List.length times in
  if Nat.eqb num 0 then ret tt
  else
    let step := Nat.max (num / 100) 1 in
    f_times <-
      comprehension (py_range num step)
        (fun i => t <- getitem times i ;; ret (format_2f (fst t))) ;;
    counts <-
      comprehension (py_range num step)
        (fun i => t <- getitem times i ;; ret (str_nat (snd t))) ;;
    f_first <- item0 f_times ;;
    f_last <- item_last f_times ;;
    c_first <- item0 counts ;;
    c_last <- item_last counts ;;
    logger INFO
      (newline
       ++ "    http://chart.apis.google.com/chart?cht=lxy&chs=200x125&chd=t:"
       ++ String.concat "," f_times ++ "|" ++ String.concat "," counts
       ++ "&chds=" ++ f_first ++ "," ++ f_last ++ "," ++ c_first ++ ","
       ++ c_last).
End Chart.

(** ** What the specification says, in the terms of the model *)

(** A token of a batch name: one or more word characters. *)
Definition token (t : list ascii) : Prop :=
  t <> [] /\ Forall (fun c => Py.is_word c = true) t.

(** A name of the form batch_<token>_<token>_ver<2 digits>. *)
Definition names_batch (s : list ascii) : Prop :=
  exists t1 t2 d1 d2,
    token t1 /\ token t2 /\ Py.is_digit d1 = true /\ Py.is_digit d2 = true /\
    s = list_ascii_of_string "batch_" ++ t1 ++ list_ascii_of_string "_"
        ++ t2 ++ list_ascii_of_string "_ver" ++ [d1; d2].

(** A name that starts with one of that form. *)
Definition begins_with_batch_name (s : list ascii) : Prop :=
  exists p q, s = p ++ q /\ names_batch p.

Definition unrecognized (name : string) : string :=
  "unrecognized format for batch name " ++ name.

Definition no_manifest (path : string) : exn :=
  BLE ("could not find batch_1.xml (or any of its aliases) in "
       ++ path ++ "--has the batch been validated?").

(** Whether the technical metadata under [admid] gives both a length and
    a width. *)
Definition pair_found (doc : MetsDoc) (admid : string) : bool :=
  let '(length, width) := get_dimensions doc admid in
  text_truthy length && text_truthy width.

(** The two checks that end the service branch of [_load_page]. *)
Definition checked_dimensions (env : Env) (issue : Issue) (page : Page)
  : result Page :=
  if negb (truthy (page_jp2_width page))
  then Raise (page_error env "No jp2 width" issue page)
  else if negb (truthy (page_jp2_length page))
  then Raise (page_error env "No jp2 length" issue page)
  else Ok page.

Definition trying_harder (env : Env) (issue : Issue) (page : Page) : string :=
  "Could not determine dimensions of jp2 for issue: "
  ++ Issue_unicode env issue ++ " page: "
  ++ Page_unicode env page ++ "... trying harder...".

(** The world after an audit event has been saved. *)
Definition add_event (name msg : string) (w : World) : World :=
  set_db (set_events (events (db w)
                      ++ [ {| event_batch_name := name;
                              event_message := msg |} ]) (db w)) w.

(** The world once [load_batch] has announced a load, and once it has
    recorded its failure with [e]. *)
Definition load_started (name : string) (w : World) : World :=
  add_event name "starting load" (add_log INFO ("loading batch: " ++ name) w).

Definition unable_to_load (e : exn) : string :=
  "unable to load batch: " ++ exn_str e.

Definition load_failed (name : string) (e : exn) (w : World) : World :=
  add_event name (unable_to_load e)
    (add_log EXCEPTION (exn_str e) (add_log ERROR (unable_to_load e) w)).

Definition already_loaded (name : string) : exn :=
  BLE ("batch " ++ name ++ " already loaded").

(** One more page counted. *)
Definition counted (w : World) : World :=
  set_pages_processed (pages_processed w + 1) w.

(** The path [load_batch] computes for an issue of the manifest. *)
Definition mets_path (env : Env) (batch : Batch) (text : string) : string :=
  os_path_normpath env (Py.join (Batch_path env (batch_name batch)) text).

(** The descriptive metadata of the issue in the METS file [mets_file], when
    the file parses and holds an issue div that points to some. *)
Definition issue_mods_of (env : Env) (mets_file : string) : option Mods :=
  match etree_parse_mets env mets_file with
  | Ok doc =>
      match doc_issue_divs doc with
      | div :: _ =>
          match idiv_DMDID div with
          | Some dmdid =>
              match doc_dmdSec_mods doc dmdid with
              | mods :: _ => Some mods
              | [] => None
              end
          | None => None
          end
      | [] => None
      end
  | Raise _ => None
  end.

(** The page divs of that issue. *)
Definition issue_pages_of (env : Env) (mets_file : string) : list PageDiv :=
  match etree_parse_mets env mets_file with
  | Ok doc =>
      match doc_issue_divs doc with
      | div :: _ => idiv_pages div
      | [] => []
      end
  | Raise _ => []
  end.

Definition title_lookup (mods : Mods) (st : Store) : result Title :=
  objects_get MTitle (fun t => title_lccn t =? Py.strip (mods_lccn mods))
    (titles st).

(** The raw name [raw] is accepted and normalizes to [name]. *)
Definition normalizes_to (raw name : string) : Prop :=
  name = Py.basename (Py.rstrip Py.is_slash raw)
  /\ begins_with_batch_name (list_ascii_of_string name).

(** A strict load of [name] from [w] gets as far as its loop over the issues
    of the manifest [doc], which it enters in the world [wr] with the batch
    record [batch]. *)
Definition reaches_issues (env : Env) (name : string) (w : World)
  (batch : Batch) (doc : BatchDoc) (wr : World) : Prop :=
  exists b0 wa wb path,
    _get_batch name true (load_started name w) = (wa, Ok b0)
    /\ _sanity_check_batch env b0 wa = (wb, Ok batch)
    /\ Batch_validated_batch_file_path env batch (set_current_batch batch wb)
       = (set_current_batch batch wb, Ok path)
    /\ etree_parse_batch env path = Ok doc
    /\ for_each (bdoc_reels doc) (load_reel batch) (set_current_batch batch wb)
       = (wr, Ok tt).

Definition event (name msg : string) : LoadBatchEvent :=
  {| event_batch_name := name; event_message := msg |}.

Definition processed (n : nat) : string :=
  "processed " ++ str_nat n ++ " issues".

(** The world after [purge_batch] has recorded its failure with [e]. *)
Definition purge_failed_msg (e : exn) : string := "purge failed: " ++ exn_str e.

Definition purge_failed (name : string) (e : exn) (w : World) : World :=
  add_event name (purge_failed_msg e)
    (add_log EXCEPTION (exn_str e) (add_log ERROR (purge_failed_msg e) w)).

(** The computation [m] leaves the observation [f] of the world as it
    found it, whether it returns or raises. *)
Definition frames {X A : Type} (f : World -> X) (m : M A) : Prop :=
  forall w, f (fst (m w)) = f w.

(** The exceptions that [m] raises all satisfy [C]. *)
Definition raises {A : Type} (C : exn -> Prop) (m : M A) : Prop :=
  forall w w' e, m w = (w', Raise e) -> C e.

(** *** The store before and after a load *)

(** An id, or a reference to one, allotted before [n0]. *)
Definition is_old (n0 : nat) (o : option nat) : bool :=
  match o with Some k => Nat.ltb k n0 | None => false end.

(** A reference that is absent or refers to an id allotted before [n0]. *)
Definition ref_old (n0 : nat) (o : option nat) : bool :=
  match o with Some k => Nat.ltb k n0 | None => true end.

(** The store is well formed: every row has an id below the next id and
    refers only to ids below it, and every reel and issue names a batch that
    the store holds. *)
Definition wf_store (st : Store) : bool :=
  let n := next_id st in
  forallb (fun r => is_old n (reel_id r)
                    && existsb (named (reel_batch r)) (batches st)) (reels st)
  && forallb (fun i => is_old n (issue_id i)
                       && existsb (named (issue_batch i)) (batches st))
       (issues st)
  && forallb (fun x => is_old n (inote_id x) && ref_old n (inote_issue x))
       (issue_notes st)
  && forallb (fun p => is_old n (page_id p) && ref_old n (page_issue p)
                       && ref_old n (page_reel p)) (pages st)
  && forallb (fun x => is_old n (pnote_id x) && ref_old n (pnote_page x))
       (page_notes st)
  && forallb (fun o => is_old n (ocr_id o) && ref_old n (ocr_page o)) (ocrs st).

(** The two stores hold the same records of every kind but the audit
    events. *)
Definition same_records (a b : Store) : Prop :=
  batches a = batches b /\ awardees a = awardees b /\ titles a = titles b
  /\ reels a = reels b /\ issues a = issues b
  /\ issue_notes a = issue_notes b /\ pages a = pages b
  /\ page_notes a = page_notes b /\ ocrs a = ocrs b.

(** The rows of a table allotted before [n0]. *)
Definition old {A : Type} (id_of : A -> option nat) (n0 : nat) (t : list A)
  : list A :=
  filter (fun r => is_old n0 (id_of r)) t.

(** An id allotted from [n0] on, and a reference to such an id among
    [parents]. *)
Definition fresh (n0 : nat) (o : option nat) : Prop :=
  exists k, o = Some k /\ (n0 <= k)%nat.

Definition new_ref (n0 : nat) (parents : list nat) (o : option nat) : Prop :=
  exists k, o = Some k /\ (n0 <= k)%nat /\ In k parents.

(** A row that hangs on a batch is either old, and then of another batch,
    or fresh, and then of the batch [name]. *)
Definition of_batch (n0 : nat) (name : string) (id : option nat)
  (batch : string) : Prop :=
  (is_old n0 id = true /\ batch <> name) \/ (fresh n0 id /\ batch = name).

(** A row that hangs on a parent row is either old with an old parent, or
    fresh with a fresh parent that the store holds. *)
Definition of_parent (n0 : nat) (parents : list nat) (id ref : option nat)
  : Prop :=
  (is_old n0 id = true /\ ref_old n0 ref = true)
  \/ (fresh n0 id /\ new_ref n0 parents ref).

Definition page_of_parent (n0 : nat) (parents : list nat) (p : Page) : Prop :=
  (is_old n0 (page_id p) = true /\ ref_old n0 (page_issue p) = true
   /\ ref_old n0 (page_reel p) = true)
  \/ (fresh n0 (page_id p) /\ new_ref n0 parents (page_issue p)).

(** The store [st] is the store [st0] together with rows that the batch
    [name] owns: the rows allotted before [n0] are those of [st0], and every
    row allotted since hangs on that batch, on one of its issues or on one of
    its pages. *)
Record owned_by (n0 : nat) (name : string) (st0 st : Store) : Prop := {
  ob_next : (n0 <= next_id st)%nat;
  ob_batches :
    filter (fun b => negb (named name b)) (batches st) = batches st0;
  ob_awardees : awardees st = awardees st0;
  ob_titles : titles st = titles st0;
  ob_old_reels : old reel_id n0 (reels st) = reels st0;
  ob_old_issues : old issue_id n0 (issues st) = issues st0;
  ob_old_inotes : old inote_id n0 (issue_notes st) = issue_notes st0;
  ob_old_pages : old page_id n0 (pages st) = pages st0;
  ob_old_pnotes : old pnote_id n0 (page_notes st) = page_notes st0;
  ob_old_ocrs : old ocr_id n0 (ocrs st) = ocrs st0;
  ob_reels :
    Forall (fun r => of_batch n0 name (reel_id r) (reel_batch r)) (reels st);
  ob_issues :
    Forall (fun i => of_batch n0 name (issue_id i) (issue_batch i))
      (issues st);
  ob_inotes :
    Forall (fun x => of_parent n0 (ids issue_id (issues st))
                       (inote_id x) (inote_issue x)) (issue_notes st);
  ob_pages :
    Forall (page_of_parent n0 (ids issue_id (issues st))) (pages st);
  ob_pnotes :
    Forall (fun x => of_parent n0 (ids page_id (pages st))
                       (pnote_id x) (pnote_page x)) (page_notes st);
  ob_ocrs :
    Forall (fun o => of_parent n0 (ids page_id (pages st))
                       (ocr_id o) (ocr_page o)) (ocrs st)
}.

(** The pages of the issue [k]. *)
Definition pages_of (k : nat) (st : Store) : list Page :=
  filter (fun p => opt_test (Nat.eqb k) (page_issue p)) (pages st).

(** The store holds exactly one batch of that name. *)
Definition the_batch (name : string) (st : Store) : Prop :=
  exists b, filter (named name) (batches st) = [b].

(** The world in the middle of a load of the batch [name] into the store
    [st0]: the batch owns what has been added, the loader has it as its
    current batch, and the issues [ks] and pages [js] are in the store. *)
Definition loading_into (n0 : nat) (name : string) (st0 : Store)
  (ks js : list nat) (w : World) : Prop :=
  owned_by n0 name st0 (db w)
  /\ the_batch name (db w)
  /\ (exists cb, current_batch w = Some cb /\ batch_name cb = name)
  /\ incl ks (ids issue_id (issues (db w)))
  /\ incl js (ids page_id (pages (db w))).

(** The world before the record of the batch [name] is created. *)
Definition not_yet_loaded (n0 : nat) (name : string) (st0 : Store)
  (w : World) : Prop :=
  owned_by n0 name st0 (db w) /\ filter (named name) (batches (db w)) = [].

(** The pages [p] and [p'] have the same id and belong to the same issue. *)
Definition same_keys (p p' : Page) : Prop :=
  page_id p' = page_id p /\ page_issue p' = page_issue p.

(** The calls of one round of [_purge_batch]: the pages of an issue, then
    the issue. *)
Definition block_calls (block : list nat * nat) : list call :=
  map DeletePage (fst block) ++ [DeleteIssue (snd block)].

(** The order of deletion that the specification describes: every page of
    every issue, then every issue, then the batch, then the index. *)
Definition pages_then_issues (name : string) (cs : list call) : Prop :=
  exists ps ks,
    cs = map DeletePage ps ++ map DeleteIssue ks
         ++ [DeleteBatch name;
             SolrDeleteQuery ("batch:" ++ dquote ++ name ++ dquote);
             SolrCommit].

(** The order of deletion of [_purge_batch]: issue by issue, the pages of
    the issue and then the issue; then the batch, then the index. *)
Definition issue_by_issue (name : string) (blocks : list (list nat * nat))
  (cs : list call) : Prop :=
  cs = flat_map block_calls blocks
       ++ [DeleteBatch name;
           SolrDeleteQuery ("batch:" ++ dquote ++ name ++ dquote);
           SolrCommit].

(** [w] assures [Q] of the value returned and [E] of the world left by an
    exception. *)
Definition hoare {A : Type} (P : World -> Prop) (m : M A)
  (Q : A -> World -> Prop) (E : World -> Prop) : Prop :=
  forall w, P w ->
    match m w with
    | (w', Ok a) => Q a w'
    | (w', Raise _) => E w'
    end.

(** ** A small batch on which the statements are exercised *)

Module Ex.

Definition issue_mods (edition date lccn : string) : Mods :=
  {| mods_volume := "1"; mods_issue := "2"; mods_edition := edition;
     mods_edition_caption := ""; mods_dateIssued := date; mods_lccn := lccn;
     mods_notes := [ {| mn_type := "t"; mn_displayLabel := "l";
                        mn_text := " x " |} ];
     mods_extent_start := ""; mods_page_number := "";
     mods_reel_number := ""; mods_section_label := "" |}.

Definition page_mods (seq reel : string) : Mods :=
  {| mods_volume := ""; mods_issue := ""; mods_edition := "";
     mods_edition_caption := ""; mods_dateIssued := ""; mods_lccn := "";
     mods_notes := [ {| mn_type := "t"; mn_displayLabel := "l";
                        mn_text := " x " |} ];
     mods_extent_start := seq; mods_page_number := "1";
     mods_reel_number := reel; mods_section_label := "" |}.

Definition page1 : PageDiv :=
  {| pdiv_DMDID := Some "p1"; pdiv_section_DMDID := "";
     pdiv_fptrs := [Some "f1"; Some "f2"; Some "f3"] |}.

(** A page whose service image has an ADMID without dimensions. *)
Definition page2 : PageDiv :=
  {| pdiv_DMDID := Some "p2"; pdiv_section_DMDID := "";
     pdiv_fptrs := [Some "f4"] |}.

(** A page whose descriptive metadata section is missing. *)
Definition page3 : PageDiv :=
  {| pdiv_DMDID := Some "nowhere"; pdiv_section_DMDID := "";
     pdiv_fptrs := [] |}.

Definition service_with_dimensions : FileEl :=
  {| file_USE := Some "service"; file_href := "0001.jp2";
     file_ADMID := Some "x a1" |}.

Definition service_without_dimensions : FileEl :=
  {| file_USE := Some "service"; file_href := "0002.jp2";
     file_ADMID := Some "a2" |}.

Definition service_without_ADMID : FileEl :=
  {| file_USE := Some "service"; file_href := "0003.jp2";
     file_ADMID := None |}.

Definition mets (url edition date lccn : string) (divs : list PageDiv)
  : MetsDoc :=
  {| doc_URL := url;
     doc_issue_divs :=
       [ {| idiv_DMDID := Some "issueModsBib"; idiv_pages := divs |} ];
     doc_dmdSec_mods := fun id =>
       if id =? "issueModsBib" then [issue_mods edition date lccn]
       else if id =? "p1" then [page_mods "1" "1"]
       else if id =? "p2" then [page_mods "2" "9"]
       else [];
     doc_file := fun id =>
       if id =? "f1" then [ {| file_USE := Some "master";
                               file_href := "0001.tif";
                               file_ADMID := None |} ]
       else if id =? "f2" then [service_with_dimensions]
       else if id =? "f3" then [ {| file_USE := Some "ocr";
                                    file_href := "0001.xml";
                                    file_ADMID := None |} ]
       else if id =? "f4" then [service_without_dimensions]
       else [];
     doc_ImageLength := fun id => if id =? "a1" then [Some "100"] else [];
     doc_ImageWidth := fun id => if id =? "a1" then [Some "200"] else [] |}.

Definition name : string := "batch_dlc_test_ver01".

Definition root : string := "/st/batch_dlc_test_ver01".

Definition manifest : BatchDoc :=
  {| bdoc_reels := [Some " 1 "];
     bdoc_issues := [Some "a/i1.xml"; Some "b/i2.xml"] |}.

(** The environment, given the files that exist and the issue documents. *)
Definition environment (exists_ : string -> bool)
  (issue_docs : string -> result MetsDoc) : Env :=
  {| STORAGE := "/st";
     os_path_exists := exists_;
     os_path_abspath := fun p => p;
     os_path_normpath := fun p => p;
     etree_parse_batch := fun p =>
       if p =? "/st/batch_dlc_test_ver01/batch_1.xml" then Ok manifest
       else Raise (Exn IOError "Error reading file");
     etree_parse_mets := issue_docs;
     j2k_dimensions := fun _ => Ok (PyInt 10, PyInt 20);
     ocr_extractor := fun _ => Ok ("text", "coords");
     Issue_unicode := fun _ => "an issue";
     Page_unicode := fun _ => "a page" |}.

Definition validated (p : string) : bool :=
  (p =? "/st/batch_dlc_test_ver01")
  || (p =? "/st/batch_dlc_test_ver01/batch_1.xml").

Definition no_document : result MetsDoc :=
  Raise (Exn IOError "Error reading file").

(** Two good issues of two pages each; the second page of each lacks its
    image dimensions. *)
Definition env : Env :=
  environment validated
    (fun p =>
       if p =? "/st/batch_dlc_test_ver01/a/i1.xml"
       then Ok (mets p "1" "1900-02-28" "sn123" [page1; page2])
       else if p =? "/st/batch_dlc_test_ver01/b/i2.xml"
       then Ok (mets p "1" "1900-03-01" "sn123" [page1; page2])
       else no_document).

(** The batch root exists but holds no manifest under any alias. *)
Definition env_no_manifest : Env :=
  environment (fun p => p =? "/st/batch_dlc_test_ver01") (fun _ => no_document).

(** The first issue has an edition that is no number. *)
Definition env_bad_edition : Env :=
  environment validated
    (fun p =>
       if p =? "/st/batch_dlc_test_ver01/a/i1.xml"
       then Ok (mets p "first" "1900-02-28" "sn123" [page1])
       else if p =? "/st/batch_dlc_test_ver01/b/i2.xml"
       then Ok (mets p "1" "1900-03-01" "sn123" [page1])
       else no_document).

(** The first issue names a title that the store does not hold. *)
Definition env_no_title : Env :=
  environment validated
    (fun p =>
       if p =? "/st/batch_dlc_test_ver01/a/i1.xml"
       then Ok (mets p "1" "1900-02-28" "sn999" [page1])
       else if p =? "/st/batch_dlc_test_ver01/b/i2.xml"
       then Ok (mets p "1" "1900-03-01" "sn123" [page1])
       else no_document).

(** The first issue has a page without descriptive metadata before a good
    page. *)
Definition env_page_without_mods : Env :=
  environment validated
    (fun p =>
       if p =? "/st/batch_dlc_test_ver01/a/i1.xml"
       then Ok (mets p "1" "1900-02-28" "sn123" [page3; page1])
       else if p =? "/st/batch_dlc_test_ver01/b/i2.xml"
       then Ok (mets p "1" "1900-03-01" "sn123" [page1])
       else no_document).

Definition store : Store :=
  {| next_id := 1; batches := [];
     awardees := [ {| awardee_org_code := "dlc" |} ];
     titles := [ {| title_lccn := "sn123" |} ];
     reels := []; issues := []; issue_notes := []; pages := [];
     page_notes := []; ocrs := []; events := [] |}.

Definition issue : Issue :=
  {| issue_id := Some 2; issue_volume := "1"; issue_number := "2";
     issue_edition := 1; issue_edition_label := "";
     issue_date_issued := Date 1900 2 28; issue_title := "sn123";
     issue_batch := name |}.

(** A page as [_load_page] has it when it reaches its first file. *)
Definition page : Page :=
  {| page_id := Some 4; page_sequence := 1; page_number := "1";
     page_reel := Some 1; page_section_label := None; page_issue := Some 2;
     page_tiff_filename := None; page_jp2_filename := Some "a/0002.jp2";
     page_jp2_width := PyNone; page_jp2_length := PyNone;
     page_pdf_filename := None; page_ocr_filename := None;
     page_indexed := false |}.

Definition doc : MetsDoc :=
  mets "/st/batch_dlc_test_ver01/a/i1.xml" "1" "1900-02-28" "sn123"
    [page1; page2].

Definition batch : Batch :=
  {| batch_name := name; batch_awardee := "dlc";
     batch_validated_batch_file := Some "batch_1.xml" |}.

(** The loader in the middle of its load, with its batch at hand. *)
Definition loading : World := set_current_batch batch (BatchLoader true store).

Definition issue1 : string := "/st/batch_dlc_test_ver01/a/i1.xml".

Definition issue2 : string := "/st/batch_dlc_test_ver01/b/i2.xml".

(** A loader over the store above, and the world its load leaves. *)
Definition world : World := BatchLoader true store.

(** The world in which a strict load of [name] enters its loop over the
    issues. *)
Definition at_issues : World :=
  fst (for_each (bdoc_reels manifest) (load_reel batch)
         (set_current_batch batch
            (fst (_get_batch name true (load_started name world))))).

Definition doc_page_without_mods : MetsDoc :=
  mets issue1 "1" "1900-02-28" "sn123" [page3; page1].

Definition loaded : World := fst (load_batch env name true world).

End Ex.

(** ** Further notions, for the properties of the loader at large *)

(** [m] keeps the invariant [I], whether it returns or raises. *)
Definition preserves {A : Type} (I : World -> Prop) (m : M A) : Prop :=
  hoare I m (fun _ => I) I.

(** A request that adds to the index, as opposed to one that deletes from
    the store or from the index. *)
Definition is_index_write (c : call) : bool :=
  match c with
  | SolrAdd _ | SolrCommit => true
  | _ => false
  end.

(** The loader has made the calls [c0] and has no index connection. *)
Definition offline (c0 : list call) (w : World) : Prop :=
  PROCESS_OCR w = false /\ calls w = c0.

(** Since the calls [c0], the loader has only added to the index. *)
Definition only_index_writes (c0 : list call) (w : World) : Prop :=
  exists cs, calls w = c0 ++ cs /\ forallb is_index_write cs = true.

(** The store holds the titles [ts] and the awardees [aws]. *)
Definition reference_data (ts : list Title) (aws : list Awardee) (w : World)
  : Prop :=
  titles (db w) = ts /\ awardees (db w) = aws.

(** The awardee code that [_create_batch] reads off a batch name: what
    stands between its first and its second underscore. *)
Definition org_code_of (name : string) : string :=
  nth 1 (Py.split_at "_" 3 name) "".

Definition no_awardee (name : string) : string :=
  "no awardee for org code: " ++ org_code_of name.

(** The record that [_create_batch] saves for the batch [name] of the
    awardee [a]. *)
Definition new_batch (name : string) (a : Awardee) : Batch :=
  {| batch_name := name; batch_awardee := awardee_org_code a;
     batch_validated_batch_file := None |}.

Definition awardee_of (name : string) (st : Store) : result Awardee :=
  objects_get MAwardee (fun a => awardee_org_code a =? org_code_of name)
    (awardees st).

(** The batch [name] has not been validated: its root is missing, or holds
    no manifest under any alias. *)
Definition unvalidated (env : Env) (name : string) : bool :=
  negb (os_path_exists env (Batch_path env name))
  || forallb (fun a => negb (os_path_exists env
                               (Py.join (Batch_path env name) a)))
       batch_file_aliases.

(** The exceptions of a purge that cannot go through: the loader has no
    index connection, or the store has no batch of the name. *)
Definition no_index : exn :=
  Exn AttributeError "'BatchLoader' object has no attribute 'solr'".

Definition no_such_batch : exn :=
  Exn (DoesNotExist MBatch) "Batch matching query does not exist.".

(** The world that an attempt to load the batch [name] into the store [st0]
    leaves: either the batch record is there and the batch owns what has been
    added, or nothing at all has been added. *)
Definition attempted (n0 : nat) (name : string) (st0 : Store) (w : World)
  : Prop :=
  (owned_by n0 name st0 (db w) /\ the_batch name (db w))
  \/ (same_records (db w) st0 /\ filter (named name) (batches (db w)) = []).

(** The reel [r] is the reel [number] of the batch [batch]: the lookup of
    [Reel.objects.get(number=..., batch=...)]. *)
Definition reel_of (batch : Batch) (number : string) (r : Reel) : bool :=
  (reel_number r =? number) && (reel_batch r =? batch_name batch).

(** [hoare], with an assertion on the exception raised as well. *)
Definition hoare_exn {A : Type} (P : World -> Prop) (m : M A)
  (Q : A -> World -> Prop) (E : exn -> World -> Prop) : Prop :=
  forall w, P w ->
    match m w with
    | (w', Ok a) => Q a w'
    | (w', Raise e) => E e w'
    end.

(** A page row of the issue [issue] as [_load_page] first saves it: no file
    name, no dimensions, not indexed. *)
Definition bare_page (issue : Issue) (p : Page) : Prop :=
  page_issue p = issue_id issue
  /\ page_tiff_filename p = None /\ page_jp2_filename p = None
  /\ page_pdf_filename p = None /\ page_ocr_filename p = None
  /\ page_jp2_width p = PyNone /\ page_jp2_length p = PyNone
  /\ page_indexed p = false.

(** The pages of [w'] are those of [w] and one bare page of [issue]. *)
Definition one_bare_page_more (issue : Issue) (w w' : World) : Prop :=
  exists p, pages (db w') = pages (db w) ++ [p] /\ bare_page issue p.

(** The pages of [w0] are those of [w]. *)
Definition same_pages_as (w w0 : World) : Prop := pages (db w0) = pages (db w).

(** What an exception [e] of [_load_page], run from [w] for a page of
    [issue], finds in the world [w0]. *)
Definition left_by_failed_page (issue : Issue) (w : World) (e : exn)
  (w0 : World) : Prop :=
  (is_BatchLoaderException e = true ->
   w0 = w \/ one_bare_page_more issue w w0)
  /\ (same_pages_as w w0 \/ one_bare_page_more issue w w0).

(** Whether [old] occurs in [s]. *)
Fixpoint occurs (old s : string) : bool :=
  String.prefix old s
  || match s with
     | EmptyString => false
     | String _ r => occurs old r
     end.

(** The characters that [storage_relative_path] strips from the left. *)
Definition dot_or_slash (c : ascii) : bool :=
  Ascii.eqb c "." || Ascii.eqb c "/".

(** The members of [times] at the indices [idx] that it has. *)
Definition sample {A : Type} (times : list A) (idx : list nat) : list A :=
  flat_map (fun i => match nth_error times i with
                     | Some t => [t]
                     | None => []
                     end) idx.

(** The points that [_chart] plots: one in [step], from the first. *)
Definition chart_points {A : Type} (times : list A) : list A :=
  let num := List.length times in
  sample times (py_range num (Nat.max (num / 100) 1)).

(** The message that [_chart] logs for the points it plots. *)
Definition chart_message {Seconds : Type} (format_2f : Seconds -> string)
  (points : list (Seconds * nat)) : string :=
  let f_times := map (fun t => format_2f (fst t)) points in
  let counts := map (fun t => str_nat (snd t)) points in
  newline
  ++ "    http://chart.apis.google.com/chart?cht=lxy&chs=200x125&chd=t:"
  ++ String.concat "," f_times ++ "|" ++ String.concat "," counts
  ++ "&chds=" ++ hd "" f_times ++ "," ++ last f_times "" ++ ","
  ++ hd "" counts ++ "," ++ last counts "".

(** The issue [issue], loaded from the world [w], is in the store of [w0]:
    it has an id, belongs to the batch that the loader had at hand, and
    refers to a title that the store holds. *)
Definition stored_issue (w : World) (issue : Issue) (w0 : World) : Prop :=
  In issue (issues (db w0))
  /\ (exists k, issue_id issue = Some k)
  /\ (exists cb, current_batch w = Some cb
                 /\ issue_batch issue = batch_name cb)
  /\ existsb (fun t => title_lccn t =? issue_title issue) (titles (db w0))
     = true.

(** A page with a service image has a width and a length. *)
Definition has_dimensions (p : Page) : bool :=
  match page_jp2_filename p with
  | None => true
  | Some _ => truthy (page_jp2_width p) && truthy (page_jp2_length p)
  end.

(** The page [p] in the hands of [_load_page], before its OCR is processed:
    a page of [issue], not indexed, with its dimensions if it has a service
    image. *)
Definition page_in_hand (issue : Issue) (p : Page) : Prop :=
  page_issue p = issue_id issue /\ page_indexed p = false
  /\ has_dimensions p = true.

(** The page [p], loaded from the world [w], is in the store of [w0]: it
    is a page of [issue], it has its dimensions if it has a service image,
    and it is marked as indexed exactly when the loader processes OCR and the
    page has an OCR file. *)
Definition stored_page (issue : Issue) (w : World) (p : Page) (w0 : World)
  : Prop :=
  In p (pages (db w0))
  /\ page_issue p = issue_id issue
  /\ has_dimensions p = true
  /\ page_indexed p = PROCESS_OCR w && text_truthy (page_ocr_filename p).

(** The loader has the index connection, or not, that it had in [w]. *)
Definition same_loader (w w0 : World) : Prop := PROCESS_OCR w0 = PROCESS_OCR w.

(** The audit events and the issue counter, which the steps of a load
    around its loop over the issues leave alone. *)
Definition events_and_count (w : World) : list LoadBatchEvent * nat :=
  (events (db w), issues_processed w).

(** An addition of a document to the index. *)
Definition is_solr_add (c : call) : bool :=
  match c with
  | SolrAdd _ => true
  | _ => false
  end.

(** Since the calls [c0], the loader has added documents to the index and
    has not committed them. *)
Definition uncommitted (c0 : list call) (w : World) : Prop :=
  exists adds, calls w = c0 ++ adds /\ forallb is_solr_add adds = true.

(** Since the calls [c0], the loader has added documents to the index and
    then, if it has an index connection, committed them. *)
Definition committed (c0 : list call) (w : World) : Prop :=
  exists adds,
    calls w = c0 ++ adds ++ (if PROCESS_OCR w then [SolrCommit] else [])
    /\ forallb is_solr_add adds = true.

(** The reels of [w0] are those of [w], or those and one more: an
    implicit reel of the loader's current batch, with a number. *)
Definition at_most_an_implicit_reel (w w0 : World) : Prop :=
  reels (db w0) = reels (db w)
  \/ exists r cb,
       reels (db w0) = reels (db w) ++ [r]
       /\ reel_implicit r = true
       /\ current_batch w = Some cb
       /\ reel_batch r = batch_name cb
       /\ Py.nonempty (reel_number r) = true.

(** ** Further examples *)

Module Cases.

(** The first page of the first issue of the small batch, as
    [_load_page] returns it. *)
Definition page1_loaded : Page :=
  {| page_id := Some 2; page_sequence := 1; page_number := "1";
     page_reel := Some 1; page_section_label := None; page_issue := Some 2;
     page_tiff_filename := Some "a/0001.tif";
     page_jp2_filename := Some "a/0001.jp2";
     page_jp2_width := PyStr "200"; page_jp2_length := PyStr "100";
     page_pdf_filename := None; page_ocr_filename := Some "a/0001.xml";
     page_indexed := true |}.

(** A loader that has already loaded three issues. *)
Definition seasoned : World := set_issues_processed 3 Ex.world.

End Cases.

(** * Properties *)

(** ** Patterns *)

Module ReFacts.
Import Re.

Lemma lang_nil_nullable r s : lang r s -> s = [] -> nullable r = true.
Proof.
  induction 1 as [ | k c Hc | r1 r2 s1 s2 _ IH1 _ IH2 | r1 r2 s _ IH
                 | r1 r2 s _ IH | r s _ IH | r s1 s2 _ IH1 _ _ ];
    intros E; simpl.
  - reflexivity.
  - discriminate.
  - apply app_eq_nil in E as [E1 E2]. now rewrite IH1, IH2.
  - now rewrite IH.
  - rewrite IH by assumption. apply orb_true_r.
  - now apply IH.
  - apply app_eq_nil in E as [E1 _]. now apply IH1.
Qed.

Lemma nullable_lang_nil r : nullable r = true -> lang r [].
Proof.
  induction r as [ | | k | r1 IH1 r2 IH2 | r1 IH1 r2 IH2 | r IH ];
    simpl; intros E; try discriminate.
  - constructor.
  - apply andb_true_iff in E as [E1 E2].
    change (@nil ascii) with (@nil ascii ++ []). constructor; auto.
  - apply orb_true_iff in E as [E | E]; [apply L_AltL | apply L_AltR]; auto.
  - apply L_Plus1; auto.
Qed.

Lemma deriv_sound c r : forall s, lang (deriv c r) s -> lang r (c :: s).
Proof.
  induction r as [ | | k | r1 IH1 r2 IH2 | r1 IH1 r2 IH2 | r IH ];
    simpl; intros s H.
  - inversion H.
  - inversion H.
  - destruct (class_mem k c) eqn:E; inversion H; subst. now constructor.
  - destruct (nullable r1) eqn:N.
    + inversion H as [ | | | ? ? ? H1 | ? ? ? H2 | | ]; subst.
      * inversion H1; subst.
        change (c :: ?a ++ ?b) with ((c :: a) ++ b). constructor; auto.
      * change (c :: s) with ([] ++ c :: s).
        constructor; auto using nullable_lang_nil.
    + inversion H; subst.
      change (c :: ?a ++ ?b) with ((c :: a) ++ b). constructor; auto.
  - inversion H; subst; [apply L_AltL | apply L_AltR]; auto.
  - inversion H as [ | | ? ? s1 s2 H1 H2 | | | | ]; subst.
    change (c :: s1 ++ s2) with ((c :: s1) ++ s2).
    inversion H2 as [ | | | ? ? ? HE | ? ? ? HP | | ]; subst.
    + inversion HE; subst. rewrite app_nil_r. apply L_Plus1; auto.
    + apply L_PlusS; auto.
Qed.

Lemma deriv_complete c r t :
  lang r t -> forall s, t = c :: s -> lang (deriv c r) s.
Proof.
  induction 1 as [ | k d Hd | r1 r2 s1 s2 H1 IH1 H2 IH2 | r1 r2 s0 _ IH
                 | r1 r2 s0 _ IH | r s0 _ IH | r s1 s2 H1 IH1 H2 IH2 ];
    intros s E; simpl.
  - discriminate.
  - injection E as -> <-. rewrite Hd. constructor.
  - destruct s1 as [ | a s1 ]; simpl in E.
    + rewrite (lang_nil_nullable _ _ H1 eq_refl). apply L_AltR; auto.
    + injection E as -> <-.
      destruct (nullable r1); [apply L_AltL | ]; constructor; auto.
  - apply L_AltL; auto.
  - apply L_AltR; auto.
  - rewrite <- (app_nil_r s). constructor; auto. apply L_AltL. constructor.
  - destruct s1 as [ | a s1 ]; simpl in E.
    + apply (IH2 _ E).
    + injection E as -> <-. constructor; auto. now apply L_AltR.
Qed.

Lemma match_prefix_spec s : forall r,
  match_prefix r s = true <-> exists p q, s = p ++ q /\ lang r p.
Proof.
  induction s as [ | c s IH ]; intros r; simpl.
  - rewrite orb_false_r. split.
    + intros N. exists [], []. split; auto using nullable_lang_nil.
    + intros (p & q & E & L). symmetry in E.
      apply app_eq_nil in E as [-> _].
      now apply (lang_nil_nullable r []).
  - rewrite orb_true_iff, IH. split.
    + intros [N | (p & q & -> & L)].
      * exists [], (c :: s). split; auto using nullable_lang_nil.
      * exists (c :: p), q. split; auto using deriv_sound.
    + intros (p & q & E & L). destruct p as [ | a p ]; simpl in E.
      * left. now apply (lang_nil_nullable r []).
      * injection E as <- ->. right. exists p, q.
        split; eauto using deriv_complete.
Qed.

Lemma lang_lit l : forall t, lang (lit l) t <-> t = l.
Proof.
  induction l as [ | c l IH ]; intros t; simpl; split.
  - inversion 1; reflexivity.
  - intros ->. constructor.
  - inversion 1 as [ | | ? ? s1 s2 H1 H2 | | | | ]; subst.
    inversion H1 as [ | ? ? Hc | | | | | ]; subst. simpl in Hc.
    apply Ascii.eqb_eq in Hc as ->. apply IH in H2 as ->. reflexivity.
  - intros ->. change (c :: l) with ([c] ++ l). constructor.
    + constructor. simpl. apply Ascii.eqb_refl.
    + now apply IH.
Qed.

Lemma lang_sym k t : lang (Sym k) t <-> exists c, t = [c] /\ class_mem k c = true.
Proof.
  split.
  - inversion 1; subst. eauto.
  - intros (c & -> & Hc). now constructor.
Qed.

Lemma lang_cat r1 r2 t :
  lang (Cat r1 r2) t <-> exists t1 t2, t = t1 ++ t2 /\ lang r1 t1 /\ lang r2 t2.
Proof.
  split.
  - inversion 1; subst. eauto.
  - intros (t1 & t2 & -> & H1 & H2). now constructor.
Qed.

Lemma lang_plus_word_token t :
  lang (Plus (Sym CWord)) t -> token t.
Proof.
  intros H. remember (Plus (Sym CWord)) as r eqn:E.
  induction H as [ | | | | | r s H _ | r s1 s2 H1 _ H2 IH2 ]; try discriminate;
    injection E as ->.
  - apply lang_sym in H as (c & -> & Hc). split; [discriminate | ].
    constructor; auto.
  - apply lang_sym in H1 as (c & -> & Hc). split; [discriminate | ].
    constructor; auto. now apply IH2.
Qed.

Lemma token_lang_plus_word t : token t -> lang (Plus (Sym CWord)) t.
Proof.
  intros [Hne Hall]. induction Hall as [ | c t Hc Hall IH ]; [ easy | ].
  destruct t as [ | d t ].
  - apply L_Plus1. now constructor.
  - change (c :: d :: t) with ([c] ++ d :: t). apply L_PlusS.
    + now constructor.
    + apply IH. discriminate.
Qed.

End ReFacts.

(** The pattern of [_normalize_batch_name] denotes the names of the form
    batch_<token>_<token>_ver<2 digits>. *)
Lemma batch_name_re_lang p : Re.lang batch_name_re p <-> names_batch p.
Proof.
  unfold batch_name_re, names_batch, Re.lits. split.
  - intros H.
    apply ReFacts.lang_cat in H as (a & r1 & -> & Ha & H).
    apply ReFacts.lang_cat in H as (t1 & r2 & -> & Ht1 & H).
    apply ReFacts.lang_cat in H as (b & r3 & -> & Hb & H).
    apply ReFacts.lang_cat in H as (t2 & r4 & -> & Ht2 & H).
    apply ReFacts.lang_cat in H as (v & r5 & -> & Hv & H).
    apply ReFacts.lang_cat in H as (x1 & x2 & -> & H1 & H2).
    apply ReFacts.lang_lit in Ha as ->, Hb as ->, Hv as ->.
    apply ReFacts.lang_sym in H1 as (d1 & -> & Hd1), H2 as (d2 & -> & Hd2).
    exists t1, t2, d1, d2.
    repeat split; auto using ReFacts.lang_plus_word_token; try apply Ht1; try apply Ht2.
    all: try (apply ReFacts.lang_plus_word_token; assumption).
  - intros (t1 & t2 & d1 & d2 & H1 & H2 & Hd1 & Hd2 & ->).
    repeat (apply Re.L_Cat);
      try (apply ReFacts.lang_lit; reflexivity);
      try (apply ReFacts.token_lang_plus_word; assumption).
    change [d1; d2] with ([d1] ++ [d2]).
    apply Re.L_Cat; now constructor.
Qed.

Lemma re_match_batch_name n :
  Re.re_match batch_name_re n = true
  <-> begins_with_batch_name (list_ascii_of_string n).
Proof.
  unfold Re.re_match, begins_with_batch_name.
  rewrite ReFacts.match_prefix_spec.
  split; intros (p & q & E & H); exists p, q; split; auto;
    now apply batch_name_re_lang.
Qed.

(** ** The batch name normalizer *)

Lemma normalize_batch_name_outcome (raw : string) (w : World) :
  let name := Py.basename (Py.rstrip Py.is_slash raw) in
  (begins_with_batch_name (list_ascii_of_string name) /\
   _normalize_batch_name raw w = (w, Ok name))
  \/
  (~ begins_with_batch_name (list_ascii_of_string name) /\
   _normalize_batch_name raw w
   = (add_log ERROR (unrecognized name) w, Raise (BLE (unrecognized name)))).
Proof.
  intros name.
  destruct (Re.re_match batch_name_re name) eqn:E.
  - left. split; [now apply re_match_batch_name | ].
    unfold _normalize_batch_name. fold name. now rewrite E.
  - right. split.
    + intros B. apply re_match_batch_name in B. congruence.
    + unfold _normalize_batch_name. fold name. now rewrite E.
Qed.

Lemma load_batch_rejected (env : Env) (raw : string) (strict : bool)
  (w : World) :
  let name := Py.basename (Py.rstrip Py.is_slash raw) in
  ~ begins_with_batch_name (list_ascii_of_string name) ->
  load_batch env raw strict w
  = (add_log ERROR (unrecognized name) w, Raise (BLE (unrecognized name))).
Proof.
  intros name N.
  destruct (normalize_batch_name_outcome raw w) as [[B _] | [_ E]];
    [contradiction | ].
  unfold load_batch, bind at 1. now rewrite E.
Qed.

(** C7, as amended: the normalizer strips trailing slashes, keeps the last
    path segment, and accepts it exactly when it begins with a name of the
    form batch_<token>_<token>_ver<2 digits>; whatever follows the two digits
    is accepted with it.  A rejected name is logged and raised as a
    [BatchLoaderException], the world being otherwise untouched, and
    [load_batch] then stops with that exception whatever the filesystem and
    the store hold. *)
Theorem normalize_batch_name_accepts_prefix (raw : string) (w : World) :
  let name := Py.basename (Py.rstrip Py.is_slash raw) in
  (begins_with_batch_name (list_ascii_of_string name) /\
   _normalize_batch_name raw w = (w, Ok name))
  \/
  (~ begins_with_batch_name (list_ascii_of_string name) /\
   _normalize_batch_name raw w
   = (add_log ERROR (unrecognized name) w, Raise (BLE (unrecognized name))) /\
   forall env strict,
     load_batch env raw strict w
     = (add_log ERROR (unrecognized name) w, Raise (BLE (unrecognized name)))).
Proof.
  intros name.
  destruct (normalize_batch_name_outcome raw w) as [A | [N E]];
    [now left | right ].
  split; [exact N | split; [exact E | ] ].
  intros env strict. now apply load_batch_rejected.
Qed.

(** C7, as stated, fails: a name with more text after the two digits of the
    version is accepted although it is not of the form
    batch_<token>_<token>_ver<2 digits>. *)
Lemma normalize_batch_name_accepts_longer_name :
  _normalize_batch_name "/st/batch_dlc_test_ver01.bak/" Ex.world
  = (Ex.world, Ok "batch_dlc_test_ver01.bak")
  /\ ~ names_batch (list_ascii_of_string "batch_dlc_test_ver01.bak").
Proof.
  split; [reflexivity | ].
  intros (t1 & t2 & d1 & d2 & _ & _ & _ & Hd2 & E).
  apply (f_equal (@rev ascii)) in E.
  repeat rewrite rev_app_distr in E. simpl in E.
  injection E as E _. subst d2. discriminate Hd2.
Qed.

(** ** The batch locator *)

Lemma find_batch_file_loop_spec env path aliases : forall v,
  _find_batch_file_loop env path aliases v
  = match find (fun a => os_path_exists env (Py.join path a)) aliases with
    | Some a => (true, Some a)
    | None => (false, match aliases with [] => v | _ => Some "batch.xml" end)
    end.
Proof.
  induction aliases as [ | a rest IH ]; intros v; simpl; [reflexivity | ].
  destruct (os_path_exists env (Py.join path a)); [reflexivity | ].
  rewrite IH. destruct (find _ rest); [reflexivity | ].
  now destruct rest.
Qed.

(** C6, as amended: the locator returns the first alias, in the order
    batch_1.xml, BATCH_1.xml, batchfile_1.xml, batch_2.xml, BATCH_2.xml,
    batch.xml, that exists under the batch root; when none exists it raises a
    [BatchLoaderException] itself, and no default name is returned. *)
Theorem find_batch_file_first_alias_or_raises (env : Env) (batch : Batch)
  (w : World) :
  let path := Batch_path env (batch_name batch) in
  _find_batch_file env batch w
  = match find (fun a => os_path_exists env (Py.join path a))
            batch_file_aliases with
    | Some alias => (w, Ok alias)
    | None => (w, Raise (no_manifest path))
    end.
Proof.
  intros path. unfold _find_batch_file. fold path.
  rewrite find_batch_file_loop_spec.
  destruct (find _ batch_file_aliases); reflexivity.
Qed.

(** C6, as stated, fails: in a batch root where no alias exists the locator
    does not return "batch.xml" but raises. *)
Lemma find_batch_file_without_manifest_raises :
  forallb (fun a => negb (os_path_exists Ex.env_no_manifest
                            (Py.join Ex.root a))) batch_file_aliases = true
  /\ _find_batch_file Ex.env_no_manifest Ex.batch Ex.world
     = (Ex.world, Raise (no_manifest Ex.root))
  /\ _find_batch_file Ex.env_no_manifest Ex.batch Ex.world
     <> (Ex.world, Ok "batch.xml").
Proof.
  split; [reflexivity | ]. split; [reflexivity | ].
  discriminate.
Qed.

(** ** Image dimensions of the service file *)

Lemma admid_loop_first_pair doc page admids :
  admid_loop doc admids page
  = match find (pair_found doc) admids with
    | Some admid =>
        let '(length, width) := get_dimensions doc admid in
        set_jp2_dimensions (text_val width) (text_val length) page
    | None => page
    end.
Proof.
  induction admids as [ | a rest IH ]; simpl; [reflexivity | ].
  unfold pair_found at 1.
  destruct (get_dimensions doc a) as [l wd] eqn:E.
  destruct (text_truthy l && text_truthy wd); [now rewrite E | apply IH].
Qed.

(** C4, as amended: for a service file the loader takes the ADMID
    identifiers of the file entry in turn and keeps the (length, width) of
    the first one whose technical metadata gives both.  It inspects the image
    file itself only when the file entry has no ADMID attribute at all; with
    an ADMID attribute whose identifiers give no pair there is no fallback.
    In either case the page fails with a [BatchLoaderException] when its
    width or its length is then still unset. *)
Theorem jp2_dimensions_fallback_needs_missing_ADMID (env : Env)
  (doc : MetsDoc) (file_el : FileEl) (issue : Issue) (page : Page) (w : World) :
  match file_ADMID file_el with
  | Some admid =>
      jp2_dimensions env doc file_el issue page w
      = (w, checked_dimensions env issue
              match find (pair_found doc) (Py.split " " admid) with
              | Some a =>
                  set_jp2_dimensions (text_val (snd (get_dimensions doc a)))
                    (text_val (fst (get_dimensions doc a))) page
              | None => page
              end)
  | None =>
      let w' := add_log INFO (trying_harder env issue page) w in
      match j2k_dimensions env (abs_filename env issue (page_jp2_filename page))
      with
      | Ok (width, length) =>
          jp2_dimensions env doc file_el issue page w
          = (w', checked_dimensions env issue
                   (set_jp2_dimensions width length page))
      | Raise e => jp2_dimensions env doc file_el issue page w = (w', Raise e)
      end
  end.
Proof.
  unfold jp2_dimensions, checked_dimensions.
  destruct (file_ADMID file_el) as [admid | ]; simpl.
  - unfold bind, try_except, ret; simpl.
    rewrite admid_loop_first_pair.
    destruct (find (pair_found doc) (Py.split " " admid)) as [a | ].
    + destruct (get_dimensions doc a) as [l wd]; simpl.
      destruct (negb (truthy (text_val wd))); [reflexivity | ].
      destruct (negb (truthy (text_val l))); reflexivity.
    + destruct (negb (truthy (page_jp2_width page))); [reflexivity | ].
      destruct (negb (truthy (page_jp2_length page))); reflexivity.
  - unfold bind, try_except, raise, lift, logger, modify, ret, trying_harder;
      simpl.
    destruct (j2k_dimensions env _) as [[width length] | e]; simpl;
      [ | reflexivity ].
    destruct (negb (truthy width)); [reflexivity | ].
    destruct (negb (truthy length)); reflexivity.
Qed.

(** C4, as stated, fails: the file entry names technical metadata that holds
    no dimensions, reading the image header would give them, and the page
    fails without the header having been read. *)
Lemma jp2_dimensions_no_fallback_with_ADMID :
  file_ADMID Ex.service_without_dimensions = Some "a2"
  /\ find (pair_found Ex.doc) (Py.split " " "a2") = None
  /\ j2k_dimensions Ex.env
       (abs_filename Ex.env Ex.issue (page_jp2_filename Ex.page))
     = Ok (PyInt 10, PyInt 20)
  /\ jp2_dimensions Ex.env Ex.doc Ex.service_without_dimensions Ex.issue
       Ex.page Ex.world
     = (Ex.world, Raise (page_error Ex.env "No jp2 width" Ex.issue Ex.page)).
Proof. repeat split. Qed.

(** ** Running a computation step by step *)

Lemma bind_ok {A B : Type} (m : M A) (k : A -> M B) w w' a :
  m w = (w', Ok a) -> bind m k w = k a w'.
Proof. intros E. unfold bind. now rewrite E. Qed.

Lemma bind_raise {A B : Type} (m : M A) (k : A -> M B) w w' e :
  m w = (w', Raise e) -> bind m k w = (w', Raise e).
Proof. intros E. unfold bind. now rewrite E. Qed.

Lemma try_except_ok {A : Type} (m : M A) c h w w' a :
  m w = (w', Ok a) -> try_except m c h w = (w', Ok a).
Proof. intros E. unfold try_except. now rewrite E. Qed.

Lemma try_except_raise {A : Type} (m : M A) c h w w' e :
  m w = (w', Raise e) ->
  try_except m c h w = if c e then h e w' else (w', Raise e).
Proof. intros E. unfold try_except. now rewrite E. Qed.

(** ** Failures of an issue *)

Lemma load_issue_before_save env mets_file mods w :
  issue_mods_of env mets_file = Some mods ->
  _load_issue env mets_file w
  = match Py.int (mods_edition mods) with
    | None =>
        (w, Raise (Exn ValueError
                     ("invalid literal for int() with base 10: '"
                      ++ mods_edition mods ++ "'")))
    | Some _ =>
        match strptime_Ymd (mods_dateIssued mods) with
        | None =>
            (w, Raise (Exn ValueError
                         ("time data '" ++ mods_dateIssued mods
                          ++ "' does not match format '%Y-%m-%d'")))
        | Some _ =>
            match title_lookup mods (db w) with
            | Raise e => (w, Raise e)
            | Ok _ => _load_issue env mets_file w
            end
        end
    end.
Proof.
  unfold issue_mods_of. intros H.
  destruct (Py.int (mods_edition mods)) as [ed | ] eqn:Ed;
    [ destruct (strptime_Ymd (mods_dateIssued mods)) as [d | ] eqn:Dt;
      [ destruct (title_lookup mods (db w)) as [t | e] eqn:Tt;
        [ reflexivity | ] | ] | ];
    unfold _load_issue, load_issue_record, dmd_mods, bind, lift, item0, attrib,
      Title_objects_get, ret, raise;
    destruct (etree_parse_mets env mets_file) as [doc | ]; try discriminate;
    destruct (doc_issue_divs doc) as [ | div divs ]; try discriminate;
    destruct (idiv_DMDID div) as [dmdid | ]; try discriminate;
    destruct (doc_dmdSec_mods doc dmdid) as [ | m ms ]; try discriminate;
    injection H as ->; cbv beta iota zeta; rewrite Ed; cbv beta iota;
    try rewrite Dt; try reflexivity.
  cbv beta iota. unfold title_lookup in Tt. now rewrite Tt.
Qed.

Lemma title_lookup_not_ValueError mods st e :
  title_lookup mods st = Raise e -> is_ValueError e = false.
Proof.
  unfold title_lookup, objects_get.
  destruct (filter _ (titles st)) as [ | t [ | t' ts ] ]; intros H;
    try discriminate; injection H as <-; reflexivity.
Qed.

Lemma load_issues_step env batch text rest times w :
  load_issues env batch (Some text :: rest) times w
  = match _load_issue env (mets_path env batch text) w with
    | (w1, Ok _) =>
        load_issues env batch rest (times ++ [pages_processed w1])
          (set_issues_processed (issues_processed w1 + 1) w1)
    | (w1, Raise e) =>
        if is_ValueError e
        then load_issues env batch rest times (add_log EXCEPTION (exn_str e) w1)
        else (w1, Raise e)
    end.
Proof.
  simpl. unfold bind at 1. unfold ret at 1. fold (mets_path env batch text).
  unfold bind at 1, try_except.
  unfold bind at 1.
  destruct (_load_issue env (mets_path env batch text) w) as [w1 [i | e]].
  - reflexivity.
  - destruct (is_ValueError e); reflexivity.
Qed.

Lemma load_issues_app env batch xs : forall ys times w,
  load_issues env batch (xs ++ ys) times w
  = match load_issues env batch xs times w with
    | (w', Ok times') => load_issues env batch ys times' w'
    | (w', Raise e) => (w', Raise e)
    end.
Proof.
  induction xs as [ | x xs IH ]; intros ys times w; [reflexivity | ].
  destruct x as [text | ].
  - rewrite <- app_comm_cons, !load_issues_step.
    destruct (_load_issue env (mets_path env batch text) w) as [w1 [i | e]].
    + apply IH.
    + destruct (is_ValueError e); [apply IH | reflexivity].
  - reflexivity.
Qed.

Lemma load_batch_normalized env raw name strict w :
  normalizes_to raw name ->
  load_batch env raw strict w
  = bind
      (if negb strict then
         try_except
           (bind (Batch_objects_get name)
              (fun batch =>
                 bind (logger INFO ("Batch already loaded: " ++ name))
                   (fun _ => ret (Some batch))))
           (is_DoesNotExist MBatch) (fun _ => ret None)
       else ret None)
      (fun found =>
         match found with
         | Some batch => ret batch
         | None => load_batch_fresh env name
         end) w.
Proof.
  intros [-> Hn]. unfold load_batch.
  destruct (normalize_batch_name_outcome raw w)
    as [[_ E] | [N _]]; [ | contradiction ].
  now rewrite (bind_ok _ _ _ _ _ E).
Qed.

Lemma load_batch_strict env raw name w :
  normalizes_to raw name ->
  load_batch env raw true w = load_batch_fresh env name w.
Proof.
  intros H. now rewrite (load_batch_normalized env raw name true w H).
Qed.

Lemma load_batch_fresh_outcome env name w :
  load_batch_fresh env name w
  = match load_batch_try env name (load_started name w) with
    | (w2, Ok b) => (w2, Ok b)
    | (w2, Raise e) => (load_failed name e w2, Raise (BLE (unable_to_load e)))
    end.
Proof.
  unfold load_batch_fresh, bind at 1, logger, modify.
  unfold bind at 1, LoadBatchEvent_save, modify, try_except.
  change (set_db _ (add_log INFO ("loading batch: " ++ name) w))
    with (load_started name w).
  destruct (load_batch_try env name (load_started name w)) as [w2 [b | e]];
    reflexivity.
Qed.

Lemma load_batch_try_issues env name w batch doc wr :
  reaches_issues env name w batch doc wr ->
  load_batch_try env name (load_started name w)
  = match load_issues env batch (bdoc_issues doc) [] wr with
    | (w2, Raise e) => (w2, Raise e)
    | (w2, Ok times) =>
        load_batch_try env name (load_started name w)
    end.
Proof.
  intros (b0 & wa & wb & path & E1 & E2 & E3 & E4 & E5).
  destruct (load_issues env batch (bdoc_issues doc) [] wr) as [w2 [t | e]] eqn:L;
    [reflexivity | ].
  unfold load_batch_try.
  rewrite (bind_ok _ _ _ _ _ E1), (bind_ok _ _ _ _ _ E2).
  unfold bind at 1, modify. unfold load_manifest.
  rewrite (bind_ok _ _ _ _ _ E3).
  unfold bind at 1, lift. rewrite E4.
  rewrite (bind_ok _ _ _ _ _ E5).
  now rewrite (bind_raise _ _ _ _ _ L).
Qed.

(** C3: in the loop of [load_batch] over the issues of the manifest, an
    issue whose load raises a [ValueError] (an edition that is no integer, a
    date that does not parse) is logged and skipped, and the loop goes on with
    the remaining issues; an issue whose load raises anything else (a title
    that the store does not hold, say) ends the load, which records an
    "unable to load batch" event and raises a [BatchLoaderException]. *)
Theorem issue_value_errors_skipped_others_abort (env : Env)
  (raw name : string) (w : World) (batch : Batch) (doc : BatchDoc)
  (wr : World) (before : list (option string)) (text : string)
  (rest : list (option string)) (times : list nat) (wk w1 : World) (e : exn) :
  normalizes_to raw name ->
  reaches_issues env name w batch doc wr ->
  bdoc_issues doc = before ++ Some text :: rest ->
  load_issues env batch before [] wr = (wk, Ok times) ->
  _load_issue env (mets_path env batch text) wk = (w1, Raise e) ->
  if is_ValueError e then
    load_issues env batch (bdoc_issues doc) [] wr
    = load_issues env batch rest times (add_log EXCEPTION (exn_str e) w1)
  else
    load_batch env raw true w
    = (load_failed name e w1, Raise (BLE (unable_to_load e))).
Proof.
  intros Hn Hr Hd Hb He.
  assert (L : load_issues env batch (bdoc_issues doc) [] wr
              = if is_ValueError e
                then load_issues env batch rest times
                       (add_log EXCEPTION (exn_str e) w1)
                else (w1, Raise e)).
  { rewrite Hd, load_issues_app, Hb, load_issues_step, He. reflexivity. }
  destruct (is_ValueError e); [exact L | ].
  rewrite (load_batch_strict env raw name w Hn), load_batch_fresh_outcome.
  rewrite (load_batch_try_issues env name w batch doc wr Hr), L.
  reflexivity.
Qed.

Lemma normalizes_to_example : normalizes_to "/st/batch_dlc_test_ver01/" Ex.name.
Proof.
  split; [reflexivity | ]. apply re_match_batch_name. reflexivity.
Qed.

Ltac reaches_issues_by_computation :=
  exists {| batch_name := Ex.name; batch_awardee := "dlc";
            batch_validated_batch_file := None |},
    (fst (_get_batch Ex.name true (load_started Ex.name Ex.world))),
    (fst (_get_batch Ex.name true (load_started Ex.name Ex.world))),
    "/st/batch_dlc_test_ver01/batch_1.xml";
  repeat split; vm_compute; reflexivity.

Lemma reaches_issues_bad_edition :
  reaches_issues Ex.env_bad_edition Ex.name Ex.world Ex.batch Ex.manifest
    Ex.at_issues.
Proof. reaches_issues_by_computation. Qed.

Lemma reaches_issues_no_title :
  reaches_issues Ex.env_no_title Ex.name Ex.world Ex.batch Ex.manifest
    Ex.at_issues.
Proof. reaches_issues_by_computation. Qed.

Lemma issue_value_errors_skipped_others_abort_witness :
  load_issues Ex.env_bad_edition Ex.batch (bdoc_issues Ex.manifest) []
    Ex.at_issues
  = load_issues Ex.env_bad_edition Ex.batch [Some "b/i2.xml"] []
      (add_log EXCEPTION "invalid literal for int() with base 10: 'first'"
         Ex.at_issues)
  /\ load_batch Ex.env_no_title "/st/batch_dlc_test_ver01/" true Ex.world
     = (load_failed Ex.name
          (Exn (DoesNotExist MTitle) "Title matching query does not exist.")
          Ex.at_issues,
        Raise (BLE "unable to load batch: Title matching query does not exist.")).
Proof.
  split.
  - apply (issue_value_errors_skipped_others_abort Ex.env_bad_edition
             "/st/batch_dlc_test_ver01/" Ex.name Ex.world Ex.batch Ex.manifest
             Ex.at_issues [] "a/i1.xml" [Some "b/i2.xml"] [] Ex.at_issues
             Ex.at_issues
             (Exn ValueError "invalid literal for int() with base 10: 'first'")).
    + exact normalizes_to_example.
    + exact reaches_issues_bad_edition.
    + reflexivity.
    + reflexivity.
    + vm_compute. reflexivity.
  - apply (issue_value_errors_skipped_others_abort Ex.env_no_title
             "/st/batch_dlc_test_ver01/" Ex.name Ex.world Ex.batch Ex.manifest
             Ex.at_issues [] "a/i1.xml" [Some "b/i2.xml"] [] Ex.at_issues
             Ex.at_issues
             (Exn (DoesNotExist MTitle) "Title matching query does not exist.")).
    + exact normalizes_to_example.
    + exact reaches_issues_no_title.
    + reflexivity.
    + reflexivity.
    + vm_compute. reflexivity.
Defined.

(** C9, as amended: when the load of an issue fails because its edition is
    no integer, because its date does not parse, or because the store holds
    no title for its identifier, nothing has been written: the world, and so
    the store's issue records, are as before the call, and the exception goes
    to the caller.  The caller, [load_batch], logs a parse error (a
    [ValueError]) and moves on to the next issue; on an absent title it does
    not, and the exception leaves its loop. *)
Theorem load_issue_failure_saves_nothing (env : Env) (mets_file : string)
  (mods : Mods) (w : World) :
  issue_mods_of env mets_file = Some mods ->
  Py.int (mods_edition mods) = None
  \/ strptime_Ymd (mods_dateIssued mods) = None
  \/ (exists e, title_lookup mods (db w) = Raise e) ->
  exists e,
    _load_issue env mets_file w = (w, Raise e)
    /\ is_ValueError e
       = match Py.int (mods_edition mods),
               strptime_Ymd (mods_dateIssued mods) with
         | Some _, Some _ => false
         | _, _ => true
         end
    /\ forall batch text rest times,
         mets_path env batch text = mets_file ->
         load_issues env batch (Some text :: rest) times w
         = if is_ValueError e
           then load_issues env batch rest times
                  (add_log EXCEPTION (exn_str e) w)
           else (w, Raise e).
Proof.
  intros Hm Hf.
  pose proof (load_issue_before_save env mets_file mods w Hm) as L.
  assert (S : forall e, _load_issue env mets_file w = (w, Raise e) ->
              forall batch text rest times,
                mets_path env batch text = mets_file ->
                load_issues env batch (Some text :: rest) times w
                = if is_ValueError e
                  then load_issues env batch rest times
                         (add_log EXCEPTION (exn_str e) w)
                  else (w, Raise e)).
  { intros e E batch text rest times P.
    rewrite load_issues_step, P, E. reflexivity. }
  destruct (Py.int (mods_edition mods)) as [ed | ].
  - destruct (strptime_Ymd (mods_dateIssued mods)) as [d | ].
    + destruct Hf as [Hf | [Hf | [e Hf]]]; try discriminate.
      rewrite Hf in L. exists e. split; [exact L | ]. split.
      * now apply title_lookup_not_ValueError in Hf.
      * now apply S.
    + eexists. split; [exact L | ]. split; [reflexivity | now apply S].
  - eexists. split; [exact L | ]. split; [reflexivity | now apply S].
Qed.

Lemma load_issue_failure_saves_nothing_witness :
  exists e,
    _load_issue Ex.env_no_title Ex.issue1 Ex.at_issues = (Ex.at_issues, Raise e)
    /\ is_ValueError e = false
    /\ forall batch text rest times,
         mets_path Ex.env_no_title batch text = Ex.issue1 ->
         load_issues Ex.env_no_title batch (Some text :: rest) times
           Ex.at_issues
         = if is_ValueError e
           then load_issues Ex.env_no_title batch rest times
                  (add_log EXCEPTION (exn_str e) Ex.at_issues)
           else (Ex.at_issues, Raise e).
Proof.
  apply (load_issue_failure_saves_nothing Ex.env_no_title Ex.issue1
           (Ex.issue_mods "1" "1900-02-28" "sn999") Ex.at_issues).
  - reflexivity.
  - right. right. eexists. reflexivity.
Defined.

(** C9, as stated, fails: the first issue of the manifest names a title that
    the store does not hold; its load writes nothing, but the caller does not
    move on: the loop over the issues ends with the exception, and the second
    issue, which loads when tried, is never tried. *)
Lemma absent_title_ends_the_loop :
  load_issues Ex.env_no_title Ex.batch
    [Some "a/i1.xml"; Some "b/i2.xml"] [] Ex.at_issues
  = (Ex.at_issues,
     Raise (Exn (DoesNotExist MTitle) "Title matching query does not exist."))
  /\ issues (db Ex.at_issues) = []
  /\ (exists i, snd (_load_issue Ex.env_no_title Ex.issue2 Ex.at_issues) = Ok i).
Proof.
  split; [vm_compute; reflexivity | ]. split; [reflexivity | ].
  eexists. vm_compute. reflexivity.
Qed.

(** ** Failures of a page *)

Lemma load_pages_step env doc issue div rest w :
  load_pages env doc issue (div :: rest) w
  = match _load_page env doc div issue w with
    | (w1, Ok _) => load_pages env doc issue rest (counted w1)
    | (w1, Raise e) =>
        if is_BatchLoaderException e
        then load_pages env doc issue rest
               (counted (add_log EXCEPTION (exn_str e) w1))
        else (counted w1, Raise e)
    end.
Proof.
  simpl. unfold bind at 1, try_finally, try_except. unfold bind at 1.
  destruct (_load_page env doc div issue w) as [w1 [p | e]].
  - reflexivity.
  - destruct (is_BatchLoaderException e); reflexivity.
Qed.

Lemma load_pages_survives_BatchLoaderExceptions env doc issue divs :
  (forall div w0 w' e,
      In div divs ->
      _load_page env doc div issue w0 = (w', Raise e) ->
      is_BatchLoaderException e = true) ->
  forall w, snd (load_pages env doc issue divs w) = Ok tt.
Proof.
  induction divs as [ | div rest IH ]; intros H w; [reflexivity | ].
  rewrite load_pages_step.
  destruct (_load_page env doc div issue w) as [w1 [p | e]] eqn:E.
  - apply IH. intros; eapply H; [right | ]; eassumption.
  - rewrite (H div w w1 e (or_introl eq_refl) E).
    apply IH. intros; eapply H; [right | ]; eassumption.
Qed.

(** C2, as amended: a page whose load raises a [BatchLoaderException] (a
    sequence number that is no integer, a service image left without width
    or length) is logged, counted and skipped, and the loop goes on with the
    pages after it, so that an issue whose pages fail in no other way comes
    out of the page loop unharmed.  A page that fails with any other
    exception is counted too, but the exception leaves the loop and the
    pages after it are not loaded. *)
Theorem page_BatchLoaderExceptions_skipped (env : Env) (doc : MetsDoc)
  (issue : Issue) (div : PageDiv) (rest : list PageDiv) (w w1 : World)
  (e : exn) :
  _load_page env doc div issue w = (w1, Raise e) ->
  (if is_BatchLoaderException e
   then load_pages env doc issue (div :: rest) w
        = load_pages env doc issue rest
            (counted (add_log EXCEPTION (exn_str e) w1))
   else load_pages env doc issue (div :: rest) w = (counted w1, Raise e))
  /\ ((forall d w0 w' e',
          In d (div :: rest) ->
          _load_page env doc d issue w0 = (w', Raise e') ->
          is_BatchLoaderException e' = true) ->
      snd (load_pages env doc issue (div :: rest) w) = Ok tt).
Proof.
  intros E. split.
  - rewrite load_pages_step, E. destruct (is_BatchLoaderException e); reflexivity.
  - intros H. now apply load_pages_survives_BatchLoaderExceptions.
Qed.

Lemma page_BatchLoaderExceptions_skipped_witness :
  (load_pages Ex.env Ex.doc Ex.issue [Ex.page2; Ex.page1] Ex.loading
   = load_pages Ex.env Ex.doc Ex.issue [Ex.page1]
       (counted (add_log EXCEPTION "No jp2 width for issue: an issue page: a page"
                   (fst (_load_page Ex.env Ex.doc Ex.page2 Ex.issue Ex.loading)))))
  /\ ((forall d w0 w' e',
          In d [Ex.page2; Ex.page1] ->
          _load_page Ex.env Ex.doc d Ex.issue w0 = (w', Raise e') ->
          is_BatchLoaderException e' = true) ->
      snd (load_pages Ex.env Ex.doc Ex.issue [Ex.page2; Ex.page1] Ex.loading)
      = Ok tt).
Proof.
  apply (page_BatchLoaderExceptions_skipped Ex.env Ex.doc Ex.issue Ex.page2
           [Ex.page1] Ex.loading
           (fst (_load_page Ex.env Ex.doc Ex.page2 Ex.issue Ex.loading))
           (BLE "No jp2 width for issue: an issue page: a page")).
  vm_compute. reflexivity.
Defined.

(** C2, as stated, fails: the first page of the issue points to descriptive
    metadata that the document does not hold, and the [IndexError] this
    raises is not caught: the issue, whose own record has been saved, fails,
    and the page after it, which loads when tried, is not loaded. *)
Lemma page_IndexError_aborts_issue :
  snd (_load_issue Ex.env_page_without_mods Ex.issue1 Ex.loading)
  = Raise (Exn IndexError "list index out of range")
  /\ List.length
       (issues (db (fst (_load_issue Ex.env_page_without_mods Ex.issue1
                           Ex.loading)))) = 1
  /\ pages (db (fst (_load_issue Ex.env_page_without_mods Ex.issue1
                       Ex.loading))) = []
  /\ (exists p,
        snd (_load_page Ex.env_page_without_mods Ex.doc_page_without_mods
               Ex.page1 Ex.issue Ex.loading) = Ok p).
Proof.
  split; [vm_compute; reflexivity | ]. split; [vm_compute; reflexivity | ].
  split; [vm_compute; reflexivity | ].
  eexists. vm_compute. reflexivity.
Qed.

(** ** What a computation leaves alone *)

Section Frames.
Context {X : Type} (f : World -> X).

Lemma frames_ret {A : Type} (a : A) : frames f (ret a).
Proof. intros w. reflexivity. Qed.

Lemma frames_raise {A : Type} (e : exn) : frames f (@raise A e).
Proof. intros w. reflexivity. Qed.

Lemma frames_lift {A : Type} (r : result A) : frames f (lift r).
Proof. intros w. reflexivity. Qed.

Lemma frames_gets {A : Type} (g : World -> A) : frames f (gets g).
Proof. intros w. reflexivity. Qed.

Lemma frames_bind {A B : Type} (m : M A) (k : A -> M B) :
  frames f m -> (forall a, frames f (k a)) -> frames f (bind m k).
Proof.
  intros Hm Hk w. unfold bind. specialize (Hm w).
  destruct (m w) as [w' [a | e]]; simpl in *.
  - now rewrite Hk.
  - assumption.
Qed.

Lemma frames_try_except {A : Type} (m : M A) c h :
  frames f m -> (forall e, frames f (h e)) -> frames f (try_except m c h).
Proof.
  intros Hm Hh w. unfold try_except. specialize (Hm w).
  destruct (m w) as [w' [a | e]]; simpl in *; [assumption | ].
  destruct (c e); simpl; [now rewrite Hh | assumption].
Qed.

Lemma frames_for_each {A : Type} (xs : list A) (body : A -> M unit) :
  (forall x, frames f (body x)) -> frames f (for_each xs body).
Proof.
  intros H. induction xs as [ | x xs IH ]; simpl.
  - apply frames_ret.
  - apply frames_bind; auto.
Qed.

Lemma frames_modify (g : World -> World) :
  (forall w, f (g w) = f w) -> frames f (modify g).
Proof. intros H w. apply H. Qed.

Lemma frames_try_finally {A : Type} (m : M A) (fin : M unit) :
  frames f m -> frames f fin -> frames f (try_finally m fin).
Proof.
  intros Hm Hf w. unfold try_finally. specialize (Hm w).
  destruct (m w) as [w' r]. specialize (Hf w').
  destruct (fin w') as [w'' [u | e]]; simpl in *; congruence.
Qed.

(** The observation does not depend on the log, on the calls made, on the
    loader's current batch, nor on the tables other than the audit events. *)
Hypothesis f_log : forall l msg w, f (add_log l msg w) = f w.
Hypothesis f_call : forall c w, f (add_call c w) = f w.
Hypothesis f_batch : forall b w, f (set_current_batch b w) = f w.
Hypothesis f_db : forall st w, events st = events (db w) -> f (set_db st w) = f w.

Ltac frames_step :=
  match goal with
  | |- frames _ (bind _ _) => apply frames_bind; [ | intros ? ]
  | |- frames _ (ret _) => apply frames_ret
  | |- frames _ (raise _) => apply frames_raise
  | |- frames _ (lift _) => apply frames_lift
  | |- frames _ (gets _) => apply frames_gets
  | |- frames _ (try_except _ _ _) => apply frames_try_except; [ | intros ? ]
  | |- frames _ (for_each _ _) => apply frames_for_each; intros ?
  | |- frames _ (logger _ _) => apply frames_modify; intros ?; apply f_log
  | |- frames _ (logger_exception _) => apply frames_modify; intros ?; apply f_log
  | |- frames _ (match ?x with _ => _ end) => destruct x
  end.

Ltac saves :=
  let w := fresh "w" in
  intros w;
  match goal with
  | |- context [tbl_save ?i ?s ?r ?t ?n] =>
      destruct (tbl_save i s r t n) as [[? ?] ?]
  end;
  apply f_db; reflexivity.

Lemma frames_Reel_save r : frames f (Reel_save r).
Proof. unfold Reel_save. saves. Qed.

Lemma frames_Issue_save i : frames f (Issue_save i).
Proof. unfold Issue_save. saves. Qed.

Lemma frames_IssueNote_save x : frames f (IssueNote_save x).
Proof. unfold IssueNote_save. saves. Qed.

Lemma frames_Page_save p : frames f (Page_save p).
Proof. unfold Page_save. saves. Qed.

Lemma frames_PageNote_save x : frames f (PageNote_save x).
Proof. unfold PageNote_save. saves. Qed.

Lemma frames_OCR_save o : frames f (OCR_save o).
Proof. unfold OCR_save. saves. Qed.

Lemma frames_Batch_save b : frames f (Batch_save b).
Proof. apply frames_modify. intros w. now apply f_db. Qed.

Lemma frames_solr c : frames f (solr c).
Proof. intros w. unfold solr. destruct (PROCESS_OCR w); simpl; auto. Qed.

Lemma frames_Page_delete p : frames f (Page_delete p).
Proof.
  unfold Page_delete. destruct (page_id p); [ | apply frames_raise ].
  apply frames_modify. intros w. rewrite f_call. now apply f_db.
Qed.

Lemma frames_Issue_delete i : frames f (Issue_delete i).
Proof.
  unfold Issue_delete. destruct (issue_id i); [ | apply frames_raise ].
  apply frames_modify. intros w. rewrite f_call. now apply f_db.
Qed.

Lemma frames_Batch_delete b : frames f (Batch_delete b).
Proof.
  apply frames_modify. intros w. rewrite f_call. now apply f_db.
Qed.

Lemma frames_the_current_batch : frames f the_current_batch.
Proof. unfold the_current_batch. repeat frames_step. Qed.

Lemma frames_storage_relative_path env path :
  frames f (storage_relative_path env path).
Proof. unfold storage_relative_path. repeat frames_step. Qed.

Lemma frames_process_ocr env issue page index :
  frames f (process_ocr env issue page index).
Proof.
  unfold process_ocr. repeat frames_step;
    auto using frames_OCR_save, frames_Page_save, frames_solr.
Qed.

Lemma frames_jp2_dimensions env doc file_el issue page :
  frames f (jp2_dimensions env doc file_el issue page).
Proof. unfold jp2_dimensions, attrib. repeat frames_step. Qed.

Lemma frames_load_file env doc issue page fptr :
  frames f (load_file env doc issue page fptr).
Proof.
  unfold load_file, attrib, item0. repeat frames_step;
    auto using frames_storage_relative_path, frames_jp2_dimensions.
Qed.

Lemma frames_load_files env doc issue fptrs : forall page,
  frames f (load_files env doc issue page fptrs).
Proof.
  induction fptrs as [ | fptr rest IH ]; intros page; simpl.
  - apply frames_ret.
  - apply frames_bind; auto using frames_load_file.
Qed.

Lemma frames_load_page env doc div issue :
  frames f (_load_page env doc div issue).
Proof.
  unfold _load_page, attrib, dmd_mods, item0. repeat frames_step;
    auto using frames_the_current_batch, frames_Reel_save, frames_Page_save,
      frames_PageNote_save, frames_load_files, frames_process_ocr.
  all: intros w; reflexivity.
Qed.

Lemma frames_get_batch name create : frames f (_get_batch name create).
Proof.
  unfold _get_batch, _create_batch, Batch_objects_count.
  repeat frames_step; auto using frames_Batch_save.
  all: intros w; reflexivity.
Qed.

Lemma frames_sanity_check_batch env batch :
  frames f (_sanity_check_batch env batch).
Proof.
  unfold _sanity_check_batch, _find_batch_file. repeat frames_step.
Qed.

Lemma frames_load_reel batch e : frames f (load_reel batch e).
Proof.
  unfold load_reel, attrib. repeat frames_step; auto using frames_Reel_save.
  all: intros w; reflexivity.
Qed.

Lemma frames_purge_batch batch : frames f (_purge_batch batch).
Proof.
  unfold _purge_batch, purge_issue, Batch_issues_all, Issue_pages_all.
  repeat frames_step;
    auto using frames_Page_delete, frames_Issue_delete, frames_Batch_delete,
      frames_solr.
Qed.

Lemma frames_load_issue_record doc div : frames f (load_issue_record doc div).
Proof.
  unfold load_issue_record, attrib, dmd_mods, item0, Title_objects_get.
  repeat frames_step;
    auto using frames_the_current_batch, frames_Issue_save,
      frames_IssueNote_save.
  all: intros w; reflexivity.
Qed.

(** The observation does not depend on the page counter either. *)
Hypothesis f_pages : forall n w, f (set_pages_processed n w) = f w.

Lemma frames_load_pages env doc issue divs :
  frames f (load_pages env doc issue divs).
Proof.
  induction divs as [ | div rest IH ]; simpl.
  - apply frames_ret.
  - apply frames_bind; [ | auto ].
    apply frames_try_finally; [ | apply frames_modify; intros; apply f_pages ].
    repeat frames_step. apply frames_load_page.
Qed.

Lemma frames_load_issue env mets_file : frames f (_load_issue env mets_file).
Proof.
  unfold _load_issue, item0.
  repeat frames_step; auto using frames_load_issue_record, frames_load_pages.
Qed.

(** Nor on the issue counter. *)
Hypothesis f_issues : forall n w, f (set_issues_processed n w) = f w.

Lemma frames_load_issues env batch es : forall times,
  frames f (load_issues env batch es times).
Proof.
  induction es as [ | e rest IH ]; intros times; simpl.
  - apply frames_ret.
  - repeat frames_step; auto using frames_load_issue.
    apply frames_modify. intros; apply f_issues.
Qed.

(** Nor on the store at all. *)
Hypothesis f_store : forall st w, f (set_db st w) = f w.

Lemma frames_LoadBatchEvent_save e : frames f (LoadBatchEvent_save e).
Proof. apply frames_modify. intros w. apply f_store. Qed.

Lemma frames_load_manifest env name batch :
  frames f (load_manifest env name batch).
Proof.
  unfold load_manifest, Batch_validated_batch_file_path.
  repeat frames_step;
    auto using frames_load_reel, frames_load_issues, frames_solr,
      frames_Batch_save, frames_LoadBatchEvent_save.
Qed.

Lemma frames_load_batch_try env name : frames f (load_batch_try env name).
Proof.
  unfold load_batch_try.
  repeat frames_step;
    auto using frames_get_batch, frames_sanity_check_batch,
      frames_load_manifest.
  apply frames_modify. intros w. apply f_batch.
Qed.

Lemma frames_load_batch_fresh env name : frames f (load_batch_fresh env name).
Proof.
  unfold load_batch_fresh, load_batch_except.
  repeat frames_step;
    auto using frames_load_batch_try, frames_LoadBatchEvent_save.
Qed.

End Frames.

(** The audit events, the page counter and the issue counter, each left
    alone by the parts of the loader that do not name them. *)
Lemma events_load_issues env batch es times w :
  events (db (fst (load_issues env batch es times w))) = events (db w).
Proof. apply (frames_load_issues (fun w => events (db w))); auto. Qed.

Lemma events_get_batch name create w :
  events (db (fst (_get_batch name create w))) = events (db w).
Proof. apply (frames_get_batch (fun w => events (db w))); auto. Qed.

Lemma events_purge_batch batch w :
  events (db (fst (_purge_batch batch w))) = events (db w).
Proof. apply (frames_purge_batch (fun w => events (db w))); auto. Qed.

Lemma pages_processed_load_page env doc div issue w :
  pages_processed (fst (_load_page env doc div issue w)) = pages_processed w.
Proof. apply (frames_load_page pages_processed); auto. Qed.

Lemma issues_processed_load_issue env mets_file w :
  issues_processed (fst (_load_issue env mets_file w)) = issues_processed w.
Proof. apply (frames_load_issue issues_processed); auto. Qed.

Lemma pages_processed_load_issue_record doc div w :
  pages_processed (fst (load_issue_record doc div w)) = pages_processed w.
Proof. apply (frames_load_issue_record pages_processed); auto. Qed.

(** ** The counters *)

Lemma load_pages_counts env doc issue divs : forall w w',
  load_pages env doc issue divs w = (w', Ok tt) ->
  pages_processed w' = pages_processed w + List.length divs.
Proof.
  induction divs as [ | div rest IH ]; intros w w' H.
  - injection H as <-. simpl. lia.
  - rewrite load_pages_step in H.
    pose proof (pages_processed_load_page env doc div issue w) as P.
    destruct (_load_page env doc div issue w) as [w1 [p | e]]; simpl in P.
    + apply IH in H. simpl in *. lia.
    + destruct (is_BatchLoaderException e); [ | discriminate ].
      apply IH in H. simpl in *. lia.
Qed.

Lemma load_issue_counts_pages env mets_file w w' issue :
  _load_issue env mets_file w = (w', Ok issue) ->
  pages_processed w'
  = pages_processed w + List.length (issue_pages_of env mets_file).
Proof.
  unfold _load_issue, issue_pages_of, lift, item0.
  unfold bind at 1.
  destruct (etree_parse_mets env mets_file) as [doc | e]; [ | discriminate ].
  unfold bind at 1.
  destruct (doc_issue_divs doc) as [ | div divs ]; [discriminate | ].
  unfold ret at 1. unfold bind at 1.
  pose proof (pages_processed_load_issue_record doc div w) as P.
  destruct (load_issue_record doc div w) as [w1 [i | e]]; [ | discriminate ].
  simpl in P. unfold bind.
  destruct (load_pages env doc i (idiv_pages div) w1) as [w2 [[] | e]] eqn:L;
    [ | discriminate ].
  intros H. injection H as <- _.
  apply load_pages_counts in L. lia.
Qed.

Lemma load_issues_counts env batch es : forall times w w' times',
  load_issues env batch es times w = (w', Ok times') ->
  issues_processed w' + List.length times
  = issues_processed w + List.length times'.
Proof.
  induction es as [ | [text | ] rest IH ]; intros times w w' times' H.
  - injection H as <- <-. reflexivity.
  - rewrite load_issues_step in H.
    pose proof (issues_processed_load_issue env (mets_path env batch text) w)
      as P.
    destruct (_load_issue env (mets_path env batch text) w) as [w1 [i | e]];
      simpl in P.
    + apply IH in H. rewrite length_app in H. simpl in H. lia.
    + destruct (is_ValueError e); [ | discriminate ].
      apply IH in H. simpl in H. lia.
  - discriminate.
Qed.

(** C10: a call of [_load_issue] that returns has raised [pages_processed]
    by the number of page divs of the issue, whether their pages loaded or
    were skipped, and has left [issues_processed] alone.  [load_batch] then
    raises [issues_processed] by one for that issue, and does not for an
    issue it skips on a [ValueError]; over the whole loop the counter has
    grown by the number of issues that were not skipped, which is the number
    of entries added to [times]. *)
Theorem counters_count_page_divs_and_loaded_issues (env : Env) (batch : Batch)
  (text : string) (rest : list (option string)) (times : list nat)
  (w w1 : World) (issue : Issue) :
  _load_issue env (mets_path env batch text) w = (w1, Ok issue) ->
  pages_processed w1
  = pages_processed w
    + List.length (issue_pages_of env (mets_path env batch text))
  /\ issues_processed w1 = issues_processed w
  /\ load_issues env batch (Some text :: rest) times w
     = load_issues env batch rest (times ++ [pages_processed w1])
         (set_issues_processed (issues_processed w + 1) w1)
  /\ (forall text' w0 w2 e,
         _load_issue env (mets_path env batch text') w0 = (w2, Raise e) ->
         is_ValueError e = true ->
         load_issues env batch (Some text' :: rest) times w0
         = load_issues env batch rest times (add_log EXCEPTION (exn_str e) w2)
         /\ issues_processed (add_log EXCEPTION (exn_str e) w2)
            = issues_processed w0)
  /\ (forall es w0 w' times',
         load_issues env batch es times w0 = (w', Ok times') ->
         issues_processed w' + List.length times
         = issues_processed w0 + List.length times').
Proof.
  intros H.
  pose proof (issues_processed_load_issue env (mets_path env batch text) w) as I.
  rewrite H in I. simpl in I.
  split; [now apply load_issue_counts_pages in H | ].
  split; [exact I | ].
  split; [rewrite load_issues_step, H, I; reflexivity | ].
  split.
  - intros text' w0 w2 e E V. split.
    + rewrite load_issues_step, E, V. reflexivity.
    + pose proof (issues_processed_load_issue env (mets_path env batch text') w0)
        as I'.
      rewrite E in I'. exact I'.
  - intros es w0 w' times'. apply load_issues_counts.
Qed.

Lemma counters_witness_run :
  _load_issue Ex.env (mets_path Ex.env Ex.batch "a/i1.xml") Ex.at_issues
  = (fst (_load_issue Ex.env Ex.issue1 Ex.at_issues), Ok Ex.issue).
Proof. vm_compute. reflexivity. Qed.

Lemma counters_count_page_divs_and_loaded_issues_witness :
  let w1 := fst (_load_issue Ex.env Ex.issue1 Ex.at_issues) in
  pages_processed w1
  = pages_processed Ex.at_issues
    + List.length (issue_pages_of Ex.env (mets_path Ex.env Ex.batch "a/i1.xml"))
  /\ issues_processed w1 = issues_processed Ex.at_issues
  /\ load_issues Ex.env Ex.batch [Some "a/i1.xml"; Some "b/i2.xml"] []
       Ex.at_issues
     = load_issues Ex.env Ex.batch [Some "b/i2.xml"] ([] ++ [pages_processed w1])
         (set_issues_processed (issues_processed Ex.at_issues + 1) w1)
  /\ (forall text' w0 w2 e,
         _load_issue Ex.env (mets_path Ex.env Ex.batch text') w0 = (w2, Raise e) ->
         is_ValueError e = true ->
         load_issues Ex.env Ex.batch (Some text' :: [Some "b/i2.xml"]) [] w0
         = load_issues Ex.env Ex.batch [Some "b/i2.xml"] []
             (add_log EXCEPTION (exn_str e) w2)
         /\ issues_processed (add_log EXCEPTION (exn_str e) w2)
            = issues_processed w0)
  /\ (forall es w0 w' times',
         load_issues Ex.env Ex.batch es [] w0 = (w', Ok times') ->
         issues_processed w' + List.length (@nil nat)
         = issues_processed w0 + List.length times').
Proof.
  exact (counters_count_page_divs_and_loaded_issues Ex.env Ex.batch "a/i1.xml"
           [Some "b/i2.xml"] [] Ex.at_issues
           (fst (_load_issue Ex.env Ex.issue1 Ex.at_issues)) Ex.issue
           counters_witness_run).
Defined.

(** ** The fast path of a load *)

Lemma objects_get_count name st b :
  objects_get MBatch (named name) (batches st) = Ok b ->
  List.length (filter (named name) (batches st)) = 1.
Proof.
  unfold objects_get.
  destruct (filter (named name) (batches st)) as [ | x [ | y l ] ];
    try discriminate; reflexivity.
Qed.

(** C5: when the store holds the batch record of a name, a load of it that
    is not strict returns that record at once; it logs that the batch is
    already loaded and writes nothing, neither to the store nor to the
    index, so that a second such call returns the same record again.  A
    strict load announces itself, finds the record when it sets out to
    create it, and fails. *)
Theorem load_batch_of_existing_batch (env : Env) (raw name : string)
  (b : Batch) (w : World) :
  normalizes_to raw name ->
  objects_get MBatch (named name) (batches (db w)) = Ok b ->
  let noted := add_log INFO ("Batch already loaded: " ++ name) in
  load_batch env raw false w = (noted w, Ok b)
  /\ db (noted w) = db w
  /\ calls (noted w) = calls w
  /\ load_batch env raw false (noted w) = (noted (noted w), Ok b)
  /\ load_batch env raw true w
     = (load_failed name (already_loaded name) (load_started name w),
        Raise (BLE (unable_to_load (already_loaded name)))).
Proof.
  intros Hn Hb noted.
  assert (F : forall w0, db w0 = db w ->
                load_batch env raw false w0 = (noted w0, Ok b)).
  { intros w0 E.
    rewrite (load_batch_normalized env raw name false w0 Hn). simpl negb.
    unfold bind at 1, try_except. unfold bind at 1, Batch_objects_get.
    rewrite E, Hb. reflexivity. }
  split; [now apply F | ]. split; [reflexivity | ]. split; [reflexivity | ].
  split; [now apply F | ].
  rewrite (load_batch_strict env raw name w Hn), load_batch_fresh_outcome.
  unfold load_batch_try, _get_batch, _create_batch.
  unfold bind at 1. unfold bind at 1. unfold Batch_objects_count, gets.
  change (batches (db (load_started name w))) with (batches (db w)).
  rewrite (objects_get_count name (db w) b Hb). reflexivity.
Qed.

Lemma load_batch_of_existing_batch_witness :
  let noted := add_log INFO "Batch already loaded: batch_dlc_test_ver01" in
  load_batch Ex.env "/st/batch_dlc_test_ver01/" false Ex.loaded
  = (noted Ex.loaded, Ok Ex.batch)
  /\ db (noted Ex.loaded) = db Ex.loaded
  /\ calls (noted Ex.loaded) = calls Ex.loaded
  /\ load_batch Ex.env "/st/batch_dlc_test_ver01/" false (noted Ex.loaded)
     = (noted (noted Ex.loaded), Ok Ex.batch)
  /\ load_batch Ex.env "/st/batch_dlc_test_ver01/" true Ex.loaded
     = (load_failed Ex.name (already_loaded Ex.name)
          (load_started Ex.name Ex.loaded),
        Raise (BLE (unable_to_load (already_loaded Ex.name)))).
Proof.
  apply (load_batch_of_existing_batch Ex.env "/st/batch_dlc_test_ver01/"
           Ex.name Ex.batch Ex.loaded).
  - exact normalizes_to_example.
  - vm_compute. reflexivity.
Defined.

(** ** The audit trail *)

Lemma raises_bind {A B : Type} (C : exn -> Prop) (m : M A) (k : A -> M B) :
  raises C m -> (forall a, raises C (k a)) -> raises C (bind m k).
Proof.
  intros Hm Hk w w' e. unfold bind.
  destruct (m w) as [w1 [a | e1]] eqn:E.
  - apply Hk.
  - intros H. injection H as _ <-. eapply Hm; eassumption.
Qed.

Lemma raises_for_each {A : Type} (C : exn -> Prop) (xs : list A) body :
  (forall x, raises C (body x)) -> raises C (for_each xs body).
Proof.
  intros H. induction xs as [ | x xs IH ]; simpl.
  - intros w w' e; discriminate.
  - apply raises_bind; auto.
Qed.

Lemma raises_modify (C : exn -> Prop) g : raises C (modify g).
Proof. intros w w' e; discriminate. Qed.

Lemma raises_gets {A : Type} (C : exn -> Prop) (g : World -> A) :
  raises C (gets g).
Proof. intros w w' e; discriminate. Qed.

Lemma raises_solr c : raises (fun e => is_Exception e = true) (solr c).
Proof.
  intros w w' e. unfold solr. destruct (PROCESS_OCR w); [discriminate | ].
  intros H. injection H as _ <-. reflexivity.
Qed.

Lemma purge_batch_raises_Exception batch :
  raises (fun e => is_Exception e = true) (_purge_batch batch).
Proof.
  unfold _purge_batch.
  apply raises_bind; [apply raises_gets | intros issues ].
  apply raises_bind.
  - apply raises_for_each. intros issue. unfold purge_issue.
    apply raises_bind; [apply raises_gets | intros pages ].
    apply raises_bind.
    + apply raises_for_each. intros page. unfold Page_delete.
      destruct (page_id page); [apply raises_modify | ].
      intros w w' e H. injection H as _ <-. reflexivity.
    + intros _. unfold Issue_delete.
      destruct (issue_id issue); [apply raises_modify | ].
      intros w w' e H. injection H as _ <-. reflexivity.
  - intros _. apply raises_bind; [apply raises_modify | intros _ ].
    apply raises_bind; intros; apply raises_solr.
Qed.

Lemma objects_get_raises_Exception {A : Type} m (p : A -> bool) t e :
  objects_get m p t = Raise e -> is_Exception e = true.
Proof.
  unfold objects_get. destruct (filter p t) as [ | x [ | y l ] ]; intros H;
    try discriminate; injection H as <-; reflexivity.
Qed.

(** What [purge_batch] comes to, by the outcome of its lookup and of
    [_purge_batch]. *)
Lemma purge_batch_outcome name w :
  let started := add_event name "starting purge" w in
  purge_batch name w
  = match objects_get MBatch (named name) (batches (db w)) with
    | Raise e => (purge_failed name e started, Raise (BLE (purge_failed_msg e)))
    | Ok batch =>
        match _purge_batch batch started with
        | (w1, Ok _) => (add_event name "purged" w1, Ok tt)
        | (w1, Raise e) =>
            (purge_failed name e w1, Raise (BLE (purge_failed_msg e)))
        end
    end.
Proof.
  intros started. unfold purge_batch.
  unfold bind at 1, LoadBatchEvent_save at 1, modify.
  fold (add_event name "starting purge" w). fold started.
  unfold try_except, _get_batch. unfold bind at 1, Batch_objects_get.
  change (batches (db started)) with (batches (db w)).
  destruct (objects_get MBatch (named name) (batches (db w))) as [batch | e] eqn:G.
  - unfold bind at 1.
    pose proof (purge_batch_raises_Exception batch started) as R.
    destruct (_purge_batch batch started) as [w1 [[] | e]].
    + reflexivity.
    + rewrite (R w1 e eq_refl). reflexivity.
  - rewrite (objects_get_raises_Exception _ _ _ _ G). reflexivity.
Qed.

Lemma load_manifest_events env name batch w :
  match load_manifest env name batch w with
  | (w1, Ok _) =>
      exists n, events (db w1)
                = events (db w) ++ [event name (processed n)]
  | (w1, Raise _) => events (db w1) = events (db w)
  end.
Proof.
  unfold load_manifest.
  unfold bind at 1, Batch_validated_batch_file_path.
  destruct (batch_validated_batch_file batch) as [file | ]; [ | reflexivity ].
  unfold ret at 1. unfold bind at 1, lift.
  destruct (etree_parse_batch env _) as [doc | e]; [ | reflexivity ].
  unfold bind at 1.
  assert (R : events (db (fst (for_each (bdoc_reels doc) (load_reel batch) w)))
              = events (db w)).
  { apply (frames_for_each (fun w => events (db w))). intros x.
    apply (frames_load_reel (fun w => events (db w))); auto. }
  destruct (for_each (bdoc_reels doc) (load_reel batch) w) as [w1 [[] | e]];
    simpl in R; [ | exact R ].
  unfold bind at 1.
  pose proof (events_load_issues env batch (bdoc_issues doc) [] w1) as I.
  destruct (load_issues env batch (bdoc_issues doc) [] w1) as [w2 [t | e]];
    simpl in I; [ | congruence ].
  unfold bind at 1, gets. unfold bind at 1.
  assert (S : events (db (fst (solr SolrCommit w2))) = events (db w2))
    by (apply (frames_solr (fun w => events (db w))); auto).
  destruct (PROCESS_OCR w2).
  - destruct (solr SolrCommit w2) as [w3 [[] | e]]; simpl in S; [ | congruence ].
    simpl. exists (issues_processed w3). rewrite S, I, R. reflexivity.
  - simpl. exists (issues_processed w2). rewrite I, R. reflexivity.
Qed.

Lemma load_batch_try_events env name w :
  match load_batch_try env name w with
  | (w1, Ok _) =>
      exists n, events (db w1)
                = events (db w) ++ [event name (processed n)]
  | (w1, Raise _) => events (db w1) = events (db w)
  end.
Proof.
  unfold load_batch_try. unfold bind at 1.
  pose proof (events_get_batch name true w) as G.
  destruct (_get_batch name true w) as [w1 [b0 | e]]; simpl in G; [ | exact G ].
  unfold bind at 1.
  assert (S : events (db (fst (_sanity_check_batch env b0 w1))) = events (db w1))
    by (apply (frames_sanity_check_batch (fun w => events (db w))); auto).
  destruct (_sanity_check_batch env b0 w1) as [w2 [batch | e]]; simpl in S;
    [ | congruence ].
  unfold bind at 1, modify.
  pose proof (load_manifest_events env name batch (set_current_batch batch w2))
    as L.
  destruct (load_manifest env name batch (set_current_batch batch w2))
    as [w3 [b | e]]; simpl in L.
  - destruct L as [n L]. exists n. rewrite L. simpl. congruence.
  - simpl in *. congruence.
Qed.

Lemma load_batch_fresh_events env name w :
  exists msg,
    events (db (fst (load_batch_fresh env name w)))
    = events (db w) ++ [event name "starting load"; event name msg]
    /\ ((exists b n, snd (load_batch_fresh env name w) = Ok b
                     /\ msg = processed n)
        \/ (exists e, snd (load_batch_fresh env name w) = Raise (BLE msg)
                      /\ msg = unable_to_load e)).
Proof.
  rewrite load_batch_fresh_outcome.
  pose proof (load_batch_try_events env name (load_started name w)) as T.
  destruct (load_batch_try env name (load_started name w)) as [w2 [b | e]].
  - destruct T as [n T]. exists (processed n).
    split.
    + simpl. rewrite T. simpl. now rewrite <- app_assoc.
    + left. now exists b, n.
  - exists (unable_to_load e). split.
    + simpl. rewrite T. simpl. now rewrite <- app_assoc.
    + right. now exists e.
Qed.

(** C8, as amended: every purge attempt appends a "starting purge" event
    and then an outcome event, "purged" when it succeeds and "purge failed:
    ..." when it fails, in which case it raises a [BatchLoaderException];
    purging a name for which the store holds no batch is such a failure, the
    store's own lookup exception being wrapped.  A load attempt appends a
    "starting load" event and then an outcome event, "processed N issues" or
    "unable to load batch: ...", once the name has been accepted and the load
    has not been answered from the store; a load whose name is rejected, and
    a load that is not strict and finds a batch of that name in the store,
    append no event. *)
Theorem attempts_and_audit_events (env : Env) (raw : string) (strict : bool)
  (w : World) (purged : string) (wp : World) :
  (exists msg,
      events (db (fst (purge_batch purged wp)))
      = events (db wp) ++ [event purged "starting purge"; event purged msg]
      /\ ((snd (purge_batch purged wp) = Ok tt /\ msg = "purged")
          \/ (exists e, snd (purge_batch purged wp) = Raise (BLE msg)
                        /\ msg = purge_failed_msg e)))
  /\ (filter (named purged) (batches (db wp)) = [] ->
      snd (purge_batch purged wp)
      = Raise (BLE "purge failed: Batch matching query does not exist."))
  /\ let name := Py.basename (Py.rstrip Py.is_slash raw) in
     let r := load_batch env raw strict w in
     (events (db (fst r)) = events (db w)
      /\ (~ begins_with_batch_name (list_ascii_of_string name)
          \/ (strict = false
              /\ filter (named name) (batches (db w)) <> [])))
     \/ (exists msg,
            begins_with_batch_name (list_ascii_of_string name)
            /\ events (db (fst r))
               = events (db w) ++ [event name "starting load"; event name msg]
            /\ ((exists b n, snd r = Ok b
                             /\ msg = processed n)
                \/ (exists e, snd r = Raise (BLE msg)
                              /\ msg = unable_to_load e))).
Proof.
  split; [ | split ].
  - rewrite purge_batch_outcome.
    destruct (objects_get MBatch (named purged) (batches (db wp)))
      as [batch | e].
    + pose proof (events_purge_batch batch (add_event purged "starting purge" wp))
        as P.
      destruct (_purge_batch batch (add_event purged "starting purge" wp))
        as [w1 [[] | e]]; simpl in P.
      * exists "purged". split; [ | now left ].
        simpl. rewrite P. simpl. now rewrite <- app_assoc.
      * exists (purge_failed_msg e). split; [ | right; now exists e ].
        simpl. rewrite P. simpl. now rewrite <- app_assoc.
    + exists (purge_failed_msg e). split; [ | right; now exists e ].
      simpl. now rewrite <- app_assoc.
  - intros H. rewrite purge_batch_outcome. unfold objects_get. rewrite H.
    reflexivity.
  - intros name r.
    destruct (normalize_batch_name_outcome raw w) as [[B _] | [N _]].
    + assert (Hn : normalizes_to raw name) by (split; [reflexivity | exact B]).
      assert (Fresh : load_batch_fresh env name w = r ->
                exists msg,
                  begins_with_batch_name (list_ascii_of_string name)
                  /\ events (db (fst r))
                     = events (db w)
                       ++ [event name "starting load"; event name msg]
                  /\ ((exists b n, snd r = Ok b
                                   /\ msg = processed n)
                      \/ (exists e, snd r = Raise (BLE msg)
                                    /\ msg = unable_to_load e))).
      { intros <-. destruct (load_batch_fresh_events env name w) as (msg & E & O).
        exists msg. auto. }
      subst r. rewrite (load_batch_normalized env raw name strict w Hn).
      rewrite (load_batch_normalized env raw name strict w Hn) in Fresh.
      destruct strict; simpl negb in *; cbv iota in *.
      * right. apply Fresh. reflexivity.
      * unfold bind at 1 in Fresh. unfold bind at 1.
        unfold try_except, Batch_objects_get in *.
        unfold bind at 1 in Fresh. unfold bind at 1.
        unfold objects_get in *.
        destruct (filter (named name) (batches (db w))) as [ | x [ | y l ] ].
        -- right. apply Fresh. reflexivity.
        -- left. split; [reflexivity | ]. right. split; [reflexivity | discriminate].
        -- left. split; [reflexivity | ]. right. split; [reflexivity | discriminate].
    + left. subst r. rewrite (load_batch_rejected env raw strict w N).
      split; [reflexivity | now left].
Qed.

(** C8, as stated, fails: a load of a name that is rejected fails without
    an audit event, and a load that is not strict of a batch the store
    already holds succeeds without one. *)
Lemma load_attempts_without_audit_event :
  (snd (load_batch Ex.env "jamaica" true Ex.world)
   = Raise (BLE "unrecognized format for batch name jamaica")
   /\ events (db (fst (load_batch Ex.env "jamaica" true Ex.world)))
      = events (db Ex.world))
  /\ (snd (load_batch Ex.env Ex.name false Ex.loaded) = Ok Ex.batch
      /\ events (db (fst (load_batch Ex.env Ex.name false Ex.loaded)))
         = events (db Ex.loaded)).
Proof.
  split; split; vm_compute; reflexivity.
Qed.

(** ** Tables *)

Section TableFacts.
Context {A : Type} (id_of : A -> option nat) (with_id : nat -> A -> A).
Hypothesis id_with : forall k r, id_of (with_id k r) = Some k.

Lemma in_ids k t : In k (ids id_of t) <-> exists r, In r t /\ id_of r = Some k.
Proof.
  unfold ids. rewrite in_flat_map. split; intros (r & Hr & H); exists r.
  - destruct (id_of r) as [j | ]; simpl in H; [ | contradiction ].
    destruct H as [-> | []]. auto.
  - rewrite H. simpl. auto.
Qed.

Lemma ids_filter_incl g k t : In k (ids id_of (filter g t)) -> In k (ids id_of t).
Proof.
  rewrite !in_ids. intros (r & Hr & H). apply filter_In in Hr as [Hr _]. eauto.
Qed.

Lemma has_id_spec k r : has_id id_of k r = true <-> id_of r = Some k.
Proof.
  unfold has_id. destruct (id_of r) as [j | ]; [ | split; discriminate ].
  rewrite Nat.eqb_eq. split; congruence.
Qed.

Lemma old_filter g n0 t :
  (forall r, In r t -> is_old n0 (id_of r) = true -> g r = true) ->
  old id_of n0 (filter g t) = old id_of n0 t.
Proof.
  unfold old. induction t as [ | r t IH ]; intros H; simpl; [reflexivity | ].
  destruct (is_old n0 (id_of r)) eqn:O.
  - rewrite (H r (or_introl eq_refl) O). simpl. rewrite O.
    f_equal. apply IH. intros; apply H; [right | ]; assumption.
  - destruct (g r); simpl; [rewrite O | ];
      apply IH; intros; apply H; [right | | right | ]; assumption.
Qed.

Lemma filter_is_old g n0 t :
  (forall r, In r t -> g r = is_old n0 (id_of r)) ->
  filter g t = old id_of n0 t.
Proof. intros H. now apply filter_ext_in. Qed.

Lemma in_old n0 r t :
  In r t -> is_old n0 (id_of r) = true -> In r (old id_of n0 t).
Proof. intros. apply filter_In. auto. Qed.

Lemma tbl_save_cases r t next r' t' next' :
  tbl_save id_of with_id r t next = (r', t', next') ->
  (id_of r = None /\ r' = with_id next r /\ t' = t ++ [r'] /\ next' = S next)
  \/ (exists k, id_of r = Some k /\ r' = r /\ next' = next
                /\ ((existsb (has_id id_of k) t = true
                     /\ t' = map (fun x => if has_id id_of k x then r else x) t)
                    \/ (existsb (has_id id_of k) t = false /\ t' = t ++ [r]))).
Proof.
  unfold tbl_save. destruct (id_of r) as [k | ].
  - destruct (existsb (has_id id_of k) t) eqn:E; intros H;
      injection H as <- <- <-; right; exists k; auto 10.
  - intros H. injection H as <- <- <-. left. auto.
Qed.

Lemma tbl_save_next r t next r' t' next' :
  tbl_save id_of with_id r t next = (r', t', next') -> next <= next'.
Proof.
  intros H. apply tbl_save_cases in H
    as [(_ & _ & _ & ->) | (k & _ & _ & -> & _)]; lia.
Qed.

Lemma old_replace n0 k r t :
  id_of r = Some k -> n0 <= k ->
  old id_of n0 (map (fun x => if has_id id_of k x then r else x) t)
  = old id_of n0 t.
Proof.
  intros Hr Hk. unfold old. induction t as [ | x t IH ]; simpl; [reflexivity | ].
  destruct (has_id id_of k x) eqn:E.
  - apply has_id_spec in E. rewrite Hr, E. simpl.
    destruct (Nat.ltb_spec k n0); [lia | exact IH].
  - destruct (is_old n0 (id_of x)); [f_equal | ]; exact IH.
Qed.

Lemma old_app n0 t u :
  old id_of n0 (t ++ u) = old id_of n0 t ++ old id_of n0 u.
Proof. apply filter_app. Qed.

Lemma tbl_save_old n0 r t next r' t' next' :
  tbl_save id_of with_id r t next = (r', t', next') ->
  n0 <= next ->
  (forall k, id_of r = Some k -> n0 <= k) ->
  old id_of n0 t' = old id_of n0 t.
Proof.
  intros H Hn Hk. apply tbl_save_cases in H
    as [(E & -> & -> & _)
       | (k & E & -> & _ & [(_ & ->) | (_ & ->)])].
  - rewrite old_app. unfold old at 2. simpl. rewrite id_with. simpl.
    destruct (Nat.ltb_spec next n0); [lia | ]. apply app_nil_r.
  - apply old_replace; auto.
  - rewrite old_app. unfold old at 2. simpl. rewrite E. simpl.
    destruct (Nat.ltb_spec k n0); [specialize (Hk k E); lia | ].
    apply app_nil_r.
Qed.

Lemma tbl_save_Forall (Q : A -> Prop) r t next r' t' next' :
  tbl_save id_of with_id r t next = (r', t', next') ->
  Forall Q t -> Q r' -> Forall Q t'.
Proof.
  intros H Ht Hr. apply tbl_save_cases in H
    as [(E & E' & -> & _)
       | (k & E & -> & _ & [(_ & ->) | (_ & ->)])].
  - apply Forall_app. auto.
  - apply Forall_map. eapply Forall_impl; [ | exact Ht ].
    intros x Hx. simpl. destruct (has_id id_of k x); assumption.
  - apply Forall_app. auto.
Qed.

Lemma tbl_save_ids r t next r' t' next' j :
  tbl_save id_of with_id r t next = (r', t', next') ->
  In j (ids id_of t) -> In j (ids id_of t').
Proof.
  intros H. rewrite !in_ids. intros (x & Hx & Ej).
  apply tbl_save_cases in H
    as [(E & E' & -> & _)
       | (k & E & -> & _ & [(_ & ->) | (_ & ->)])].
  - exists x. split; [apply in_or_app | ]; auto.
  - destruct (has_id id_of k x) eqn:Ek.
    + exists r. split.
      * apply in_map_iff. exists x. rewrite Ek. auto.
      * apply has_id_spec in Ek. congruence.
    + exists x. split; [ | assumption ].
      apply in_map_iff. exists x. rewrite Ek. auto.
  - exists x. split; [apply in_or_app | ]; auto.
Qed.

Lemma tbl_save_result r t next r' t' next' :
  tbl_save id_of with_id r t next = (r', t', next') ->
  exists k, id_of r' = Some k /\ In k (ids id_of t')
            /\ (id_of r = None -> k = next)
            /\ (forall k0, id_of r = Some k0 -> k = k0).
Proof.
  intros H. apply tbl_save_cases in H
    as [(E & -> & -> & _)
       | (k & E & -> & _ & [(X & ->) | (_ & ->)])].
  - exists next. rewrite id_with. repeat split; [ | congruence ].
    apply in_ids. exists (with_id next r). split; [ | apply id_with ].
    apply in_or_app. right. now left.
  - exists k. repeat split; try congruence.
    apply existsb_exists in X as (x & Hx & Ek).
    apply in_ids. exists r. split; [ | assumption ].
    apply in_map_iff. exists x. rewrite Ek. auto.
  - exists k. repeat split; try congruence.
    apply in_ids. exists r. split; [ | assumption ].
    apply in_or_app. right. now left.
Qed.

End TableFacts.

(** ** Deletion and ownership *)

Lemma mem_In k l : mem k l = true <-> In k l.
Proof.
  unfold mem. rewrite existsb_exists. split.
  - intros (x & Hx & E). apply Nat.eqb_eq in E. now subst.
  - intros H. exists k. split; [assumption | apply Nat.eqb_refl].
Qed.

Lemma fresh_not_old n0 o : fresh n0 o -> is_old n0 o = false.
Proof.
  intros (k & -> & H). simpl. destruct (Nat.ltb_spec k n0); [lia | reflexivity].
Qed.

Lemma old_not_fresh n0 o : is_old n0 o = true -> ~ fresh n0 o.
Proof. intros O F. apply fresh_not_old in F. congruence. Qed.

Lemma filter_absorb {A : Type} (f g : A -> bool) l :
  (forall x, f x = true -> g x = true) ->
  filter f (filter g l) = filter f l.
Proof.
  intros H. induction l as [ | x l IH ]; simpl; [reflexivity | ].
  destruct (g x) eqn:G; simpl.
  - destruct (f x); [f_equal | ]; exact IH.
  - destruct (f x) eqn:F; [ | exact IH ].
    rewrite (H x F) in G. discriminate.
Qed.

Lemma Forall_filter {A : Type} (P : A -> Prop) g l :
  Forall P l -> Forall P (filter g l).
Proof.
  intros H. apply Forall_forall. intros x Hx.
  apply filter_In in Hx as [Hx _]. revert x Hx. now apply Forall_forall.
Qed.

Section CascadeFacts.
Variables (n0 : nat) (name : string) (st0 st : Store).
Hypothesis X : owned_by n0 name st0 st.
Variables (dB : string -> bool) (kI kP : nat -> bool).
Hypothesis KB : forall b, dB b = true -> b = name.
Hypothesis KI : forall k, kI k = true -> n0 <= k.
Hypothesis KP : forall k, kP k = true -> n0 <= k.

Lemma batch_issues_fresh k : In k (batch_issues dB st) -> n0 <= k.
Proof.
  unfold batch_issues. rewrite in_ids. intros (i & Hi & E).
  apply filter_In in Hi as [Hi D]. apply KB in D.
  pose proof (proj1 (Forall_forall _ _) (ob_issues _ _ _ _ X) i Hi)
    as [[_ N] | [(j & Ej & Hj) _]]; [contradiction | congruence ].
Qed.

Lemma dead_reels_fresh k : In k (dead_reels dB st) -> n0 <= k.
Proof.
  unfold dead_reels. rewrite in_ids. intros (r & Hr & E).
  apply filter_In in Hr as [Hr D]. apply KB in D.
  pose proof (proj1 (Forall_forall _ _) (ob_reels _ _ _ _ X) r Hr)
    as [[_ N] | [(j & Ej & Hj) _]]; [contradiction | congruence ].
Qed.

Lemma dead_issue_old o : ref_old n0 o = true -> dead_issue dB kI st o = false.
Proof.
  destruct o as [k | ]; simpl; [ | reflexivity ]. intros O.
  apply Nat.ltb_lt in O. apply orb_false_iff. split.
  - destruct (kI k) eqn:E; [apply KI in E; lia | reflexivity].
  - destruct (mem k (batch_issues dB st)) eqn:E; [ | reflexivity ].
    apply mem_In, batch_issues_fresh in E. lia.
Qed.

Lemma dead_reel_old o :
  ref_old n0 o = true -> opt_mem o (dead_reels dB st) = false.
Proof.
  destruct o as [k | ]; simpl; [ | reflexivity ]. intros O.
  apply Nat.ltb_lt in O.
  destruct (mem k (dead_reels dB st)) eqn:E; [ | reflexivity ].
  apply mem_In, dead_reels_fresh in E. lia.
Qed.

Lemma orphaned_fresh p :
  In p (pages st) -> orphaned dB kI st p = true -> fresh n0 (page_id p).
Proof.
  intros Hp O.
  pose proof (proj1 (Forall_forall _ _) (ob_pages _ _ _ _ X) p Hp)
    as [(_ & I & R) | [F _]]; [ | exact F ].
  unfold orphaned in O. rewrite (dead_issue_old _ I), (dead_reel_old _ R) in O.
  discriminate.
Qed.

Lemma orphans_fresh k : In k (orphans dB kI st) -> n0 <= k.
Proof.
  unfold orphans. rewrite in_ids. intros (p & Hp & E).
  apply filter_In in Hp as [Hp O].
  destruct (orphaned_fresh p Hp O) as (j & Ej & Hj). congruence.
Qed.

Lemma dead_page_old o :
  ref_old n0 o = true -> dead_page dB kI kP st o = false.
Proof.
  destruct o as [k | ]; simpl; [ | reflexivity ]. intros O.
  apply Nat.ltb_lt in O. apply orb_false_iff. split.
  - destruct (kP k) eqn:E; [apply KP in E; lia | reflexivity].
  - destruct (mem k (orphans dB kI st)) eqn:E; [ | reflexivity ].
    apply mem_In, orphans_fresh in E. lia.
Qed.

Lemma issue_survives k :
  In k (ids issue_id (issues st)) ->
  dead_issue dB kI st (Some k) = false ->
  In k (ids issue_id (issues (cascade dB kI kP st))).
Proof.
  rewrite !in_ids. intros (i & Hi & E) D. exists i. split; [ | exact E ].
  simpl in D. apply orb_false_iff in D as [D1 D2].
  simpl. apply filter_In. split; [exact Hi | ].
  rewrite E. simpl. rewrite D1. simpl.
  destruct (dB (issue_batch i)) eqn:B; [ | reflexivity ].
  assert (M : mem k (batch_issues dB st) = true).
  { apply mem_In. unfold batch_issues. apply in_ids. exists i.
    split; [apply filter_In | ]; auto. }
  congruence.
Qed.

Lemma page_survives k :
  In k (ids page_id (pages st)) ->
  dead_page dB kI kP st (Some k) = false ->
  In k (ids page_id (pages (cascade dB kI kP st))).
Proof.
  rewrite !in_ids. intros (p & Hp & E) D. exists p. split; [ | exact E ].
  simpl in D. apply orb_false_iff in D as [D1 D2].
  simpl. apply filter_In. split; [exact Hp | ].
  rewrite E. simpl. rewrite D1. simpl.
  destruct (orphaned dB kI st p) eqn:O; [ | reflexivity ].
  assert (M : mem k (orphans dB kI st) = true).
  { apply mem_In. unfold orphans. apply in_ids. exists p.
    split; [apply filter_In | ]; auto. }
  congruence.
Qed.

Lemma of_parent_survives parents parents' dead id ref :
  of_parent n0 parents id ref ->
  dead ref = false ->
  (forall k, In k parents -> dead (Some k) = false -> In k parents') ->
  of_parent n0 parents' id ref.
Proof.
  intros [O | [F (k & -> & Hk & Hin)]] D S; [now left | right ].
  split; [exact F | ]. exists k. auto.
Qed.

(** A cascade that deletes only the batch [name], fresh issues and fresh
    pages leaves a store that the batch owns as before. *)
Lemma cascade_owned : owned_by n0 name st0 (cascade dB kI kP st).
Proof.
  destruct X as [Xn Xb Xa Xt Xr Xi Xin Xp Xpn Xo Fr Fi Fin Fp Fpn Fo].
  constructor; simpl; auto.
  - rewrite filter_absorb; [exact Xb | ].
    intros b H. apply negb_true_iff in H. apply negb_true_iff.
    destruct (dB (batch_name b)) eqn:D; [ | reflexivity ].
    apply KB in D. unfold named in H. rewrite D, String.eqb_refl in H.
    discriminate.
  - rewrite old_filter; [exact Xr | ]. intros r Hr O.
    pose proof (proj1 (Forall_forall _ _) Fr r Hr) as [[_ N] | [F _]];
      [ | now apply old_not_fresh in O ].
    apply negb_true_iff. destruct (dB (reel_batch r)) eqn:D; [ | reflexivity ].
    apply KB in D. contradiction.
  - rewrite old_filter; [exact Xi | ]. intros i Hi O.
    pose proof (proj1 (Forall_forall _ _) Fi i Hi) as [[_ N] | [F _]];
      [ | now apply old_not_fresh in O ].
    apply negb_true_iff, orb_false_iff. split.
    + destruct (issue_id i) as [k | ]; [ | reflexivity ]. simpl in *.
      destruct (kI k) eqn:E; [ | reflexivity ].
      apply KI in E. apply Nat.ltb_lt in O. lia.
    + destruct (dB (issue_batch i)) eqn:D; [ | reflexivity ].
      apply KB in D. contradiction.
  - rewrite old_filter; [exact Xin | ]. intros x Hx O.
    pose proof (proj1 (Forall_forall _ _) Fin x Hx) as [[_ R] | [F _]];
      [ | now apply old_not_fresh in O ].
    apply negb_true_iff. now apply dead_issue_old.
  - rewrite old_filter; [exact Xp | ]. intros p Hp O.
    pose proof (proj1 (Forall_forall _ _) Fp p Hp) as [(_ & I & R) | [F _]];
      [ | now apply old_not_fresh in O ].
    apply negb_true_iff, orb_false_iff. split.
    + destruct (page_id p) as [k | ]; [ | reflexivity ]. simpl in *.
      destruct (kP k) eqn:E; [ | reflexivity ].
      apply KP in E. apply Nat.ltb_lt in O. lia.
    + unfold orphaned. now rewrite dead_issue_old, dead_reel_old.
  - rewrite old_filter; [exact Xpn | ]. intros x Hx O.
    pose proof (proj1 (Forall_forall _ _) Fpn x Hx) as [[_ R] | [F _]];
      [ | now apply old_not_fresh in O ].
    apply negb_true_iff. now apply dead_page_old.
  - rewrite old_filter; [exact Xo | ]. intros x Hx O.
    pose proof (proj1 (Forall_forall _ _) Fo x Hx) as [[_ R] | [F _]];
      [ | now apply old_not_fresh in O ].
    apply negb_true_iff. now apply dead_page_old.
  - now apply Forall_filter.
  - now apply Forall_filter.
  - apply Forall_forall. intros x Hx. apply filter_In in Hx as [Hx S].
    apply negb_true_iff in S.
    eapply of_parent_survives;
      [exact (proj1 (Forall_forall _ _) Fin x Hx) | exact S | ].
    apply issue_survives.
  - apply Forall_forall. intros p Hp. apply filter_In in Hp as [Hp S].
    apply negb_true_iff, orb_false_iff in S as [_ S].
    unfold orphaned in S. apply orb_false_iff in S as [S _].
    destruct (proj1 (Forall_forall _ _) Fp p Hp)
      as [O | [F (k & E & Hk & Hin)]]; [now left | right ].
    split; [exact F | ]. exists k. rewrite E in S.
    auto using issue_survives.
  - apply Forall_forall. intros x Hx. apply filter_In in Hx as [Hx S].
    apply negb_true_iff in S.
    eapply of_parent_survives;
      [exact (proj1 (Forall_forall _ _) Fpn x Hx) | exact S | ].
    apply page_survives.
  - apply Forall_forall. intros x Hx. apply filter_In in Hx as [Hx S].
    apply negb_true_iff in S.
    eapply of_parent_survives;
      [exact (proj1 (Forall_forall _ _) Fo x Hx) | exact S | ].
    apply page_survives.
Qed.

End CascadeFacts.

Section DeleteBatch.
Variables (n0 : nat) (name : string) (st0 st : Store).
Hypothesis X : owned_by n0 name st0 st.

Lemma delete_batch_only b : String.eqb name b = true -> b = name.
Proof. intros H. apply String.eqb_eq in H. congruence. Qed.

Lemma none_of_fresh (k : nat) : @none_of nat k = true -> n0 <= k.
Proof. discriminate. Qed.

Lemma opt_test_none_of o : opt_test none_of o = false.
Proof. now destruct o. Qed.

Lemma fresh_issue_dead kI k :
  In k (ids issue_id (issues st)) -> n0 <= k ->
  dead_issue (String.eqb name) kI st (Some k) = true.
Proof.
  intros Hin Hk. simpl. apply orb_true_iff. right. apply mem_In.
  apply in_ids in Hin as (i & Hi & E).
  unfold batch_issues. apply in_ids. exists i. split; [ | exact E ].
  apply filter_In. split; [exact Hi | ].
  destruct (proj1 (Forall_forall _ _) (ob_issues _ _ _ _ X) i Hi)
    as [[O _] | [_ B]].
  - rewrite E in O. simpl in O. apply Nat.ltb_lt in O. lia.
  - rewrite B. apply String.eqb_refl.
Qed.

Lemma fresh_page_orphaned kI p :
  In p (pages st) -> fresh n0 (page_id p) -> orphaned (String.eqb name) kI st p = true.
Proof.
  intros Hp F.
  destruct (proj1 (Forall_forall _ _) (ob_pages _ _ _ _ X) p Hp)
    as [(O & _) | [_ (k & E & Hk & Hin)]].
  - now apply old_not_fresh in O.
  - unfold orphaned. rewrite E, (fresh_issue_dead kI k Hin Hk). reflexivity.
Qed.

Lemma fresh_page_dead kI kP k :
  In k (ids page_id (pages st)) -> n0 <= k ->
  dead_page (String.eqb name) kI kP st (Some k) = true.
Proof.
  intros Hin Hk. simpl. apply orb_true_iff. right. apply mem_In.
  apply in_ids in Hin as (p & Hp & E).
  unfold orphans. apply in_ids. exists p. split; [ | exact E ].
  apply filter_In. split; [exact Hp | ].
  apply fresh_page_orphaned; [exact Hp | ]. exists k. auto.
Qed.

(** Deleting the batch [name] from a store that it owns, in the sense of
    [owned_by], leaves the records of the store it was loaded into. *)
Lemma delete_batch_restores :
  same_records (cascade (String.eqb name) none_of none_of st) st0.
Proof.
  pose proof delete_batch_only as KB.
  pose proof none_of_fresh as KN.
  destruct X as [Xn Xb Xa Xt Xr Xi Xin Xp Xpn Xo Fr Fi Fin Fp Fpn Fo].
  unfold same_records. simpl.
  split; [ | split; [exact Xa | split; [exact Xt | ] ] ].
  - rewrite <- Xb. apply filter_ext. intros b. unfold named.
    now rewrite String.eqb_sym.
  - split; [ | split; [ | split; [ | split; [ | split ] ] ] ].
    + rewrite <- Xr. apply filter_is_old. intros r Hr.
      destruct (proj1 (Forall_forall _ _) Fr r Hr) as [[O N] | [F B]].
      * rewrite O. apply negb_true_iff. apply String.eqb_neq.
        congruence.
      * rewrite (fresh_not_old _ _ F). apply negb_false_iff.
        rewrite B. apply String.eqb_refl.
    + rewrite <- Xi. apply filter_is_old. intros i Hi.
      rewrite opt_test_none_of. simpl.
      destruct (proj1 (Forall_forall _ _) Fi i Hi) as [[O N] | [F B]].
      * rewrite O. apply negb_true_iff. apply String.eqb_neq.
        congruence.
      * rewrite (fresh_not_old _ _ F). apply negb_false_iff.
        rewrite B. apply String.eqb_refl.
    + rewrite <- Xin. apply filter_is_old. intros x Hx.
      destruct (proj1 (Forall_forall _ _) Fin x Hx)
        as [[O R] | [F (k & E & Hk & Hin)]].
      * rewrite O. apply negb_true_iff.
        now apply (dead_issue_old n0 name st0 st X (String.eqb name) none_of KB KN).
      * rewrite (fresh_not_old _ _ F), E.
        now rewrite (fresh_issue_dead none_of k Hin Hk).
    + rewrite <- Xp. apply filter_is_old. intros p Hp.
      rewrite opt_test_none_of. simpl.
      destruct (proj1 (Forall_forall _ _) Fp p Hp) as [(O & I & R) | [F _]].
      * rewrite O. apply negb_true_iff. unfold orphaned.
        rewrite (dead_issue_old n0 name st0 st X (String.eqb name) none_of KB KN _ I).
        now rewrite (dead_reel_old n0 name st0 st X (String.eqb name) KB _ R).
      * rewrite (fresh_not_old _ _ F).
        now rewrite (fresh_page_orphaned none_of p Hp F).
    + rewrite <- Xpn. apply filter_is_old. intros x Hx.
      destruct (proj1 (Forall_forall _ _) Fpn x Hx)
        as [[O R] | [F (k & E & Hk & Hin)]].
      * rewrite O. apply negb_true_iff.
        now apply (dead_page_old n0 name st0 st X (String.eqb name) none_of none_of KB KN KN).
      * rewrite (fresh_not_old _ _ F), E.
        now rewrite (fresh_page_dead none_of none_of k Hin Hk).
    + rewrite <- Xo. apply filter_is_old. intros x Hx.
      destruct (proj1 (Forall_forall _ _) Fo x Hx)
        as [[O R] | [F (k & E & Hk & Hin)]].
      * rewrite O. apply negb_true_iff.
        now apply (dead_page_old n0 name st0 st X (String.eqb name) none_of none_of KB KN KN).
      * rewrite (fresh_not_old _ _ F), E.
        now rewrite (fresh_page_dead none_of none_of k Hin Hk).
Qed.

End DeleteBatch.

(** ** Purging a batch that owns its rows *)

Section Purge.
Variables (n0 : nat) (name : string) (st0 : Store).

Lemma owned_by_events st evs :
  owned_by n0 name st0 st -> owned_by n0 name st0 (set_events evs st).
Proof. intros []. constructor; assumption. Qed.

Lemma eqb_fresh j k : n0 <= j -> Nat.eqb j k = true -> n0 <= k.
Proof. intros H E. apply Nat.eqb_eq in E. lia. Qed.

Lemma none_of_name (b : string) : none_of b = true -> b = name.
Proof. discriminate. Qed.

Lemma Page_delete_owned p j w :
  page_id p = Some j -> n0 <= j -> owned_by n0 name st0 (db w) ->
  let w' := add_call (DeletePage j)
              (set_db (cascade none_of none_of (Nat.eqb j) (db w)) w) in
  Page_delete p w = (w', Ok tt) /\ owned_by n0 name st0 (db w').
Proof.
  intros E H X w'. split.
  - unfold Page_delete. rewrite E. reflexivity.
  - apply cascade_owned;
      [ exact X | apply none_of_name | apply none_of_fresh
      | intros k0; now apply eqb_fresh ].
Qed.

Lemma Issue_delete_owned i k w :
  issue_id i = Some k -> n0 <= k -> owned_by n0 name st0 (db w) ->
  let w' := add_call (DeleteIssue k)
              (set_db (cascade none_of (Nat.eqb k) none_of (db w)) w) in
  Issue_delete i w = (w', Ok tt) /\ owned_by n0 name st0 (db w').
Proof.
  intros E H X w'. split.
  - unfold Issue_delete. rewrite E. reflexivity.
  - apply cascade_owned;
      [ exact X | apply none_of_name | intros k0; now apply eqb_fresh
      | apply none_of_fresh ].
Qed.

Lemma cascade_pages_incl dB kI kP st :
  incl (pages (cascade dB kI kP st)) (pages st).
Proof. simpl. apply incl_filter. Qed.

(** The loop over the pages of an issue. *)
Lemma purge_pages ps : forall w,
  owned_by n0 name st0 (db w) ->
  Forall (fun p => fresh n0 (page_id p)) ps ->
  exists w',
    for_each ps Page_delete w = (w', Ok tt)
    /\ owned_by n0 name st0 (db w')
    /\ calls w' = calls w ++ map DeletePage (ids page_id ps)
    /\ incl (pages (db w')) (pages (db w))
    /\ PROCESS_OCR w' = PROCESS_OCR w.
Proof.
  induction ps as [ | p ps IH ]; intros w X F.
  - exists w. simpl. rewrite app_nil_r. auto using incl_refl.
  - inversion F as [ | ? ? (j & E & Hj) F' ]; subst.
    destruct (Page_delete_owned p j w E Hj X) as [D X'].
    destruct (IH _ X' F') as (w' & L & X'' & C & I & O).
    exists w'. simpl for_each. rewrite (bind_ok _ _ _ _ _ D).
    split; [exact L | ]. split; [exact X'' | ]. split; [ | split ].
    + rewrite C. simpl. rewrite E. simpl. now rewrite <- app_assoc.
    + eapply incl_tran; [exact I | ]. apply cascade_pages_incl.
    + exact O.
Qed.

Lemma pages_of_fresh k st :
  owned_by n0 name st0 st -> n0 <= k ->
  Forall (fun p => fresh n0 (page_id p)) (pages_of k st).
Proof.
  intros X Hk. apply Forall_forall. intros p Hp.
  apply filter_In in Hp as [Hp E].
  destruct (proj1 (Forall_forall _ _) (ob_pages _ _ _ _ X) p Hp)
    as [(_ & I & _) | [F _]]; [ | exact F ].
  destruct (page_issue p) as [k' | ]; [ | discriminate ]. simpl in *.
  apply Nat.eqb_eq in E. apply Nat.ltb_lt in I. lia.
Qed.

Lemma ids_incl {A : Type} (id_of : A -> option nat) (t u : list A) :
  incl t u -> incl (ids id_of t) (ids id_of u).
Proof.
  intros H k. rewrite !in_ids. intros (r & Hr & E). exists r. auto.
Qed.

Lemma pages_of_incl k st st' :
  incl (pages st') (pages st) ->
  incl (ids page_id (pages_of k st')) (ids page_id (pages_of k st)).
Proof.
  intros H. apply ids_incl. intros p Hp.
  apply filter_In in Hp as [Hp E]. apply filter_In. auto.
Qed.

Lemma purge_issues snapshot : forall w,
  owned_by n0 name st0 (db w) ->
  Forall (fun i => fresh n0 (issue_id i)) snapshot ->
  exists w' blocks,
    for_each snapshot purge_issue w = (w', Ok tt)
    /\ owned_by n0 name st0 (db w')
    /\ calls w' = calls w ++ flat_map block_calls blocks
    /\ map snd blocks = ids issue_id snapshot
    /\ Forall (fun block =>
                 incl (fst block)
                   (ids page_id (pages_of (snd block) (db w)))) blocks
    /\ incl (pages (db w')) (pages (db w))
    /\ PROCESS_OCR w' = PROCESS_OCR w.
Proof.
  induction snapshot as [ | i rest IH ]; intros w X F.
  - exists w, []. simpl. rewrite app_nil_r. auto 10 using incl_refl.
  - inversion F as [ | ? ? (k & E & Hk) F' ]; subst.
    destruct (purge_pages (pages_of k (db w)) w X (pages_of_fresh k _ X Hk))
      as (w1 & L1 & X1 & C1 & I1 & O1).
    destruct (Issue_delete_owned i k w1 E Hk X1) as [D X2].
    set (w2 := add_call (DeleteIssue k)
                 (set_db (cascade none_of (Nat.eqb k) none_of (db w1)) w1))
      in *.
    destruct (IH w2 X2 F') as (w' & blocks & L & X' & C & M & B & I & O).
    assert (I2 : incl (pages (db w2)) (pages (db w))).
    { eapply incl_tran; [apply cascade_pages_incl | exact I1]. }
    exists w', ((ids page_id (pages_of k (db w)), k) :: blocks).
    split; [ | split; [exact X' | split; [ | split; [ | split; [ | split ] ] ] ] ].
    + simpl for_each. unfold purge_issue at 1.
      unfold bind at 1. unfold bind at 1, Issue_pages_all, gets. rewrite E.
      fold (pages_of k (db w)).
      unfold bind at 1. rewrite L1. rewrite D. exact L.
    + rewrite C. change (calls w2) with (calls w1 ++ [DeleteIssue k]).
      rewrite C1. cbn [flat_map].
      change (block_calls (ids page_id (pages_of k (db w)), k))
        with (map DeletePage (ids page_id (pages_of k (db w)))
              ++ [DeleteIssue k]).
      now rewrite <- !app_assoc.
    + simpl. rewrite E, M. reflexivity.
    + constructor; [apply incl_refl | ].
      eapply Forall_impl; [ | exact B ]. intros block Hb.
      eapply incl_tran; [exact Hb | ]. now apply pages_of_incl.
    + eapply incl_tran; eassumption.
    + rewrite O. unfold w2. simpl. exact O1.
Qed.

Lemma batch_issues_fresh_snapshot st :
  owned_by n0 name st0 st ->
  Forall (fun i => fresh n0 (issue_id i))
    (filter (fun i => issue_batch i =? name) (issues st)).
Proof.
  intros X. apply Forall_forall. intros i Hi.
  apply filter_In in Hi as [Hi E]. apply String.eqb_eq in E.
  destruct (proj1 (Forall_forall _ _) (ob_issues _ _ _ _ X) i Hi)
    as [[_ N] | [F _]]; [contradiction | exact F].
Qed.

Lemma solr_ok c w : PROCESS_OCR w = true -> solr c w = (add_call c w, Ok tt).
Proof. intros H. unfold solr. now rewrite H. Qed.

(** [_purge_batch] on a world whose store the batch owns. *)
Lemma purge_batch_owned batch w :
  batch_name batch = name ->
  owned_by n0 name st0 (db w) ->
  PROCESS_OCR w = true ->
  exists w' blocks,
    _purge_batch batch w = (w', Ok tt)
    /\ same_records (db w') st0
    /\ events (db w') = events (db w)
    /\ issue_by_issue name blocks (skipn (List.length (calls w)) (calls w'))
    /\ calls w' = calls w ++ skipn (List.length (calls w)) (calls w')
    /\ map snd blocks
       = ids issue_id (filter (fun i => issue_batch i =? name) (issues (db w)))
    /\ Forall (fun block =>
                 incl (fst block)
                   (ids page_id (pages_of (snd block) (db w)))) blocks.
Proof.
  intros Hb X P.
  destruct (purge_issues _ w X (batch_issues_fresh_snapshot _ X))
    as (w1 & blocks & L & X1 & C & M & B & _ & O).
  set (w2 := add_call (DeleteBatch name)
               (set_db (cascade (String.eqb name) none_of none_of (db w1)) w1)).
  set (q := SolrDeleteQuery ("batch:" ++ dquote ++ name ++ dquote)).
  exists (add_call SolrCommit (add_call q w2)), blocks.
  assert (Cs : calls (add_call SolrCommit (add_call q w2))
               = calls w ++ flat_map block_calls blocks
                 ++ [DeleteBatch name; q; SolrCommit]).
  { simpl. rewrite C. now rewrite <- !app_assoc. }
  split; [ | split; [ | split; [ | split; [ | split; [ | split ] ] ] ] ].
  - assert (P2 : PROCESS_OCR w2 = true) by (unfold w2; simpl; congruence).
    unfold _purge_batch. unfold bind at 1, Batch_issues_all, gets.
    rewrite Hb. rewrite (bind_ok _ _ _ _ _ L).
    rewrite (bind_ok _ _ w1 w2 tt)
      by (unfold Batch_delete, modify; rewrite ?Hb; reflexivity).
    fold q.
    rewrite (bind_ok _ _ w2 (add_call q w2) tt) by (now apply solr_ok).
    now apply solr_ok.
  - simpl. now apply delete_batch_restores with (n0 := n0).
  - simpl.
    assert (E : events (db (fst (for_each
                  (filter (fun i => issue_batch i =? name) (issues (db w)))
                  purge_issue w))) = events (db w)).
    { apply (frames_for_each (fun w => events (db w))). intros i.
      unfold purge_issue, Issue_pages_all.
      apply frames_bind; [apply frames_gets | intros ps].
      apply frames_bind.
      - apply frames_for_each. intros p.
        apply (frames_Page_delete (fun w => events (db w))); auto.
      - intros _. apply (frames_Issue_delete (fun w => events (db w))); auto. }
    rewrite L in E. exact E.
  - rewrite Cs, skipn_app, Nat.sub_diag, skipn_all. reflexivity.
  - rewrite Cs at 1. rewrite Cs, skipn_app, Nat.sub_diag, skipn_all.
    reflexivity.
  - exact M.
  - exact B.
Qed.

End Purge.

(** ** Saving rows of the batch being loaded *)

Lemma tbl_save_row {A : Type} (id_of : A -> option nat) with_id r t next
  (r' : A) t' next' :
  tbl_save id_of with_id r t next = (r', t', next') ->
  r' = r \/ r' = with_id next r.
Proof.
  intros H. apply tbl_save_cases in H
    as [(_ & -> & _) | (k & _ & -> & _)]; auto.
Qed.

Lemma tbl_save_fresh {A : Type} (id_of : A -> option nat) with_id
  (id_with : forall k r, id_of (with_id k r) = Some k) n0 r t next
  (r' : A) t' next' :
  tbl_save id_of with_id r t next = (r', t', next') ->
  n0 <= next ->
  (forall k, id_of r = Some k -> n0 <= k) ->
  fresh n0 (id_of r').
Proof.
  intros H Hn Hk.
  destruct (tbl_save_result id_of with_id id_with _ _ _ _ _ _ H)
    as (k & E & _ & N & S).
  exists k. split; [exact E | ].
  destruct (id_of r) as [k0 | ] eqn:R.
  - rewrite <- (S k0 eq_refl) in *. auto.
  - rewrite N; auto.
Qed.

Lemma of_parent_incl n0 parents parents' id ref :
  incl parents parents' ->
  of_parent n0 parents id ref -> of_parent n0 parents' id ref.
Proof.
  intros H [O | [F (k & E & Hk & Hin)]]; [now left | right ].
  split; [exact F | ]. exists k. auto.
Qed.

Lemma page_of_parent_incl n0 parents parents' p :
  incl parents parents' ->
  page_of_parent n0 parents p -> page_of_parent n0 parents' p.
Proof.
  intros H [O | [F (k & E & Hk & Hin)]]; [now left | right ].
  split; [exact F | ]. exists k. auto.
Qed.

Section Saves.
Variables (n0 : nat) (name : string) (st0 : Store).

Lemma reel_id_with k r : reel_id (with_reel_id k r) = Some k.
Proof. reflexivity. Qed.

Lemma issue_id_with k r : issue_id (with_issue_id k r) = Some k.
Proof. reflexivity. Qed.

Lemma inote_id_with k r : inote_id (with_inote_id k r) = Some k.
Proof. reflexivity. Qed.

Lemma page_id_with k r : page_id (with_page_id k r) = Some k.
Proof. reflexivity. Qed.

Lemma pnote_id_with k r : pnote_id (with_pnote_id k r) = Some k.
Proof. reflexivity. Qed.

Lemma ocr_id_with k r : ocr_id (with_ocr_id k r) = Some k.
Proof. reflexivity. Qed.

Lemma owned_save_reel st r r' t n :
  owned_by n0 name st0 st ->
  tbl_save reel_id with_reel_id r (reels st) (next_id st) = (r', t, n) ->
  reel_batch r = name ->
  (forall k, reel_id r = Some k -> n0 <= k) ->
  owned_by n0 name st0 (set_next_id n (set_reels t st)).
Proof.
  intros [Xn Xb Xa Xt Xr Xi Xin Xp Xpn Xo Fr Fi Fin Fp Fpn Fo] S B K.
  constructor; simpl; auto.
  - apply tbl_save_next in S. lia.
  - rewrite <- Xr. eapply tbl_save_old; eauto using reel_id_with.
  - eapply tbl_save_Forall; [exact S | exact Fr | ]. right. split.
    + eapply tbl_save_fresh; eauto using reel_id_with.
    + apply tbl_save_row in S as [-> | ->]; assumption.
Qed.

Lemma owned_save_issue st i i' t n :
  owned_by n0 name st0 st ->
  tbl_save issue_id with_issue_id i (issues st) (next_id st) = (i', t, n) ->
  issue_batch i = name ->
  (forall k, issue_id i = Some k -> n0 <= k) ->
  owned_by n0 name st0 (set_next_id n (set_issues t st)).
Proof.
  intros [Xn Xb Xa Xt Xr Xi Xin Xp Xpn Xo Fr Fi Fin Fp Fpn Fo] S B K.
  assert (I : incl (ids issue_id (issues st)) (ids issue_id t))
    by (intros k; eapply tbl_save_ids; exact S).
  constructor; simpl; auto.
  - apply tbl_save_next in S. lia.
  - rewrite <- Xi. eapply tbl_save_old; eauto using issue_id_with.
  - eapply tbl_save_Forall; [exact S | exact Fi | ]. right. split.
    + eapply tbl_save_fresh; eauto using issue_id_with.
    + apply tbl_save_row in S as [-> | ->]; assumption.
  - eapply Forall_impl; [ | exact Fin ]. intros x. now apply of_parent_incl.
  - eapply Forall_impl; [ | exact Fp ]. intros x. now apply page_of_parent_incl.
Qed.

Lemma owned_save_inote st x x' t n :
  owned_by n0 name st0 st ->
  tbl_save inote_id with_inote_id x (issue_notes st) (next_id st) = (x', t, n) ->
  inote_id x = None ->
  new_ref n0 (ids issue_id (issues st)) (inote_issue x) ->
  owned_by n0 name st0 (set_next_id n (set_issue_notes t st)).
Proof.
  intros [Xn Xb Xa Xt Xr Xi Xin Xp Xpn Xo Fr Fi Fin Fp Fpn Fo] S N R.
  constructor; simpl; auto.
  - apply tbl_save_next in S. lia.
  - rewrite <- Xin. eapply tbl_save_old; eauto using inote_id_with.
    intros k E. congruence.
  - eapply tbl_save_Forall; [exact S | exact Fin | ]. right. split.
    + eapply tbl_save_fresh; eauto using inote_id_with. intros k E. congruence.
    + apply tbl_save_row in S as [-> | ->]; assumption.
Qed.

Lemma owned_save_page st p p' t n :
  owned_by n0 name st0 st ->
  tbl_save page_id with_page_id p (pages st) (next_id st) = (p', t, n) ->
  (forall k, page_id p = Some k -> n0 <= k) ->
  new_ref n0 (ids issue_id (issues st)) (page_issue p) ->
  owned_by n0 name st0 (set_next_id n (set_pages t st)).
Proof.
  intros [Xn Xb Xa Xt Xr Xi Xin Xp Xpn Xo Fr Fi Fin Fp Fpn Fo] S K R.
  assert (I : incl (ids page_id (pages st)) (ids page_id t))
    by (intros k; eapply tbl_save_ids; exact S).
  constructor; simpl; auto.
  - apply tbl_save_next in S. lia.
  - rewrite <- Xp. eapply tbl_save_old; eauto using page_id_with.
  - eapply tbl_save_Forall; [exact S | exact Fp | ]. right. split.
    + eapply tbl_save_fresh; eauto using page_id_with.
    + apply tbl_save_row in S as [-> | ->]; assumption.
  - eapply Forall_impl; [ | exact Fpn ]. intros x. now apply of_parent_incl.
  - eapply Forall_impl; [ | exact Fo ]. intros x. now apply of_parent_incl.
Qed.

Lemma owned_save_pnote st x x' t n :
  owned_by n0 name st0 st ->
  tbl_save pnote_id with_pnote_id x (page_notes st) (next_id st) = (x', t, n) ->
  pnote_id x = None ->
  new_ref n0 (ids page_id (pages st)) (pnote_page x) ->
  owned_by n0 name st0 (set_next_id n (set_page_notes t st)).
Proof.
  intros [Xn Xb Xa Xt Xr Xi Xin Xp Xpn Xo Fr Fi Fin Fp Fpn Fo] S N R.
  constructor; simpl; auto.
  - apply tbl_save_next in S. lia.
  - rewrite <- Xpn. eapply tbl_save_old; eauto using pnote_id_with.
    intros k E. congruence.
  - eapply tbl_save_Forall; [exact S | exact Fpn | ]. right. split.
    + eapply tbl_save_fresh; eauto using pnote_id_with. intros k E. congruence.
    + apply tbl_save_row in S as [-> | ->]; assumption.
Qed.

Lemma owned_save_ocr st x x' t n :
  owned_by n0 name st0 st ->
  tbl_save ocr_id with_ocr_id x (ocrs st) (next_id st) = (x', t, n) ->
  ocr_id x = None ->
  new_ref n0 (ids page_id (pages st)) (ocr_page x) ->
  owned_by n0 name st0 (set_next_id n (set_ocrs t st)).
Proof.
  intros [Xn Xb Xa Xt Xr Xi Xin Xp Xpn Xo Fr Fi Fin Fp Fpn Fo] S N R.
  constructor; simpl; auto.
  - apply tbl_save_next in S. lia.
  - rewrite <- Xo. eapply tbl_save_old; eauto using ocr_id_with.
    intros k E. congruence.
  - eapply tbl_save_Forall; [exact S | exact Fo | ]. right. split.
    + eapply tbl_save_fresh; eauto using ocr_id_with. intros k E. congruence.
    + apply tbl_save_row in S as [-> | ->]; assumption.
Qed.

Lemma filter_upsert_others b t :
  batch_name b = name ->
  filter (fun x => negb (named name x)) (upsert_batch b t)
  = filter (fun x => negb (named name x)) t.
Proof.
  intros B. unfold upsert_batch. rewrite B.
  assert (Nb : named name b = true) by (unfold named; rewrite B; apply String.eqb_refl).
  destruct (existsb (named name) t).
  - induction t as [ | x t IH ]; simpl; [reflexivity | ].
    destruct (named name x) eqn:E; simpl; [rewrite Nb; exact IH | ].
    rewrite E. simpl. now f_equal.
  - rewrite filter_app. simpl. rewrite Nb. apply app_nil_r.
Qed.

Lemma filter_upsert_named b t :
  batch_name b = name ->
  filter (named name) t = [] \/ (exists b0, filter (named name) t = [b0]) ->
  exists b', filter (named name) (upsert_batch b t) = [b'].
Proof.
  intros B H. unfold upsert_batch. rewrite B.
  assert (Nb : named name b = true) by (unfold named; rewrite B; apply String.eqb_refl).
  destruct (existsb (named name) t) eqn:X.
  - destruct H as [H | [b0 H]].
    + apply existsb_exists in X as (x & Hx & Ex).
      assert (In x (filter (named name) t)) by (apply filter_In; auto).
      rewrite H in *. contradiction.
    + simpl in H. exists b. clear X.
      revert b0 H. induction t as [ | x t IH ]; intros b0 H; simpl in *;
        [discriminate | ].
      destruct (named name x) eqn:E; simpl.
      * rewrite Nb. injection H as _ H. f_equal.
        clear IH. induction t as [ | y t IH ]; simpl in *; [reflexivity | ].
        destruct (named name y) eqn:Ey; [discriminate | ].
        simpl. rewrite Ey. auto.
      * rewrite E. eauto.
  - exists b. rewrite filter_app. simpl. rewrite Nb.
    assert (E : filter (named name) t = []).
    { destruct (filter (named name) t) as [ | x l ] eqn:F; [reflexivity | ].
      assert (Hx : In x (filter (named name) t)) by (rewrite F; now left).
      apply filter_In in Hx as [Hx Ex].
      assert (existsb (named name) t = true)
        by (apply existsb_exists; eauto).
      congruence. }
    now rewrite E.
Qed.

Lemma owned_save_batch st b :
  owned_by n0 name st0 st ->
  batch_name b = name ->
  owned_by n0 name st0 (set_batches (upsert_batch b (batches st)) st).
Proof.
  intros [Xn Xb Xa Xt Xr Xi Xin Xp Xpn Xo Fr Fi Fin Fp Fpn Fo] B.
  constructor; simpl; auto.
  now rewrite filter_upsert_others.
Qed.

End Saves.

(** ** Assertions on computations *)

Lemma hoare_ret {A : Type} (P : World -> Prop) (a : A) Q E :
  (forall w, P w -> Q a w) -> hoare P (ret a) Q E.
Proof. intros H w Hw. now apply H. Qed.

Lemma hoare_raise {A : Type} (P : World -> Prop) e (Q : A -> World -> Prop) E :
  (forall w, P w -> E w) -> hoare P (raise e) Q E.
Proof. intros H w Hw. now apply H. Qed.

Lemma hoare_lift {A : Type} (P : World -> Prop) (r : result A) Q E :
  (forall a w, r = Ok a -> P w -> Q a w) -> (forall w, P w -> E w) ->
  hoare P (lift r) Q E.
Proof. intros HQ HE w Hw. unfold lift. destruct r; auto. Qed.

Lemma hoare_gets {A : Type} (P : World -> Prop) (g : World -> A) Q E :
  (forall w, P w -> Q (g w) w) -> hoare P (gets g) Q E.
Proof. intros H w Hw. now apply H. Qed.

Lemma hoare_modify (P : World -> Prop) g Q E :
  (forall w, P w -> Q tt (g w)) -> hoare P (modify g) Q E.
Proof. intros H w Hw. now apply H. Qed.

Lemma hoare_bind {A B : Type} (P : World -> Prop) (m : M A) (k : A -> M B)
  R Q E :
  hoare P m R E -> (forall a, hoare (R a) (k a) Q E) -> hoare P (bind m k) Q E.
Proof.
  intros Hm Hk w Hw. unfold bind. specialize (Hm w Hw).
  destruct (m w) as [w' [a | e]]; [now apply Hk | exact Hm].
Qed.

Lemma hoare_try_except {A : Type} (P : World -> Prop) (m : M A) c h Q E1 E :
  hoare P m Q E1 -> (forall e, hoare E1 (h e) Q E) ->
  (forall w, E1 w -> E w) ->
  hoare P (try_except m c h) Q E.
Proof.
  intros Hm Hh HE w Hw. unfold try_except. specialize (Hm w Hw).
  destruct (m w) as [w' [a | e]]; [exact Hm | ].
  destruct (c e); [now apply Hh | now apply HE].
Qed.

Lemma hoare_try_finally {A : Type} (P : World -> Prop) (m : M A) fin Q1 E1 Q E :
  hoare P m Q1 E1 ->
  (forall a, hoare (Q1 a) fin (fun _ => Q a) E) ->
  hoare E1 fin (fun _ => E) E ->
  hoare P (try_finally m fin) Q E.
Proof.
  intros Hm HQ HE w Hw. unfold try_finally. specialize (Hm w Hw).
  destruct (m w) as [w' [a | e]].
  - specialize (HQ a w' Hm). destruct (fin w') as [w'' [u | e']]; exact HQ.
  - specialize (HE w' Hm). destruct (fin w') as [w'' [u | e']]; exact HE.
Qed.

Lemma hoare_for_each {A : Type} (I : World -> Prop) (xs : list A) body E :
  (forall x, hoare I (body x) (fun _ => I) E) ->
  hoare I (for_each xs body) (fun _ => I) E.
Proof.
  intros H. induction xs as [ | x xs IH ]; simpl.
  - now apply hoare_ret.
  - eapply hoare_bind; [apply H | intros u; exact IH].
Qed.

Lemma hoare_weaken {A : Type} (P P' : World -> Prop) (m : M A) Q Q' E E' :
  hoare P m Q E ->
  (forall w, P' w -> P w) -> (forall a w, Q a w -> Q' a w) ->
  (forall w, E w -> E' w) ->
  hoare P' m Q' E'.
Proof.
  intros H HP HQ HE w Hw. specialize (H w (HP w Hw)).
  destruct (m w) as [w' [a | e]]; auto.
Qed.

Lemma hoare_pure {A : Type} (F : Prop) (P : World -> Prop) (m : M A) Q E :
  (F -> hoare P m Q E) -> hoare (fun w => F /\ P w) m Q E.
Proof. intros H w [HF Hw]. now apply H. Qed.

Lemma hoare_ex {A X : Type} (P : X -> World -> Prop) (m : M A) Q E :
  (forall x, hoare (P x) m Q E) -> hoare (fun w => exists x, P x w) m Q E.
Proof. intros H w [x Hw]. now apply (H x). Qed.

(** A computation that leaves the store and the current batch alone keeps
    every assertion made of them. *)
Lemma hoare_stable {A : Type} (I : World -> Prop) (m : M A) :
  (forall w w', db w' = db w -> current_batch w' = current_batch w ->
                I w -> I w') ->
  frames (fun w => (db w, current_batch w)) m ->
  hoare I m (fun _ => I) I.
Proof.
  intros HI Hm w Hw. specialize (Hm w).
  destruct (m w) as [w' [a | e]]; simpl in Hm; injection Hm as Hd Hc;
    eapply HI; eauto.
Qed.

Section Loading.
Variables (n0 : nat) (name : string) (st0 : Store).

Local Abbreviation loading := (loading_into n0 name st0).

Ltac loading_split :=
  unfold loading_into; split; [ | split; [ | split; [ | split ] ] ].

Lemma loading_same ks js w w' :
  db w' = db w -> current_batch w' = current_batch w ->
  loading ks js w -> loading ks js w'.
Proof.
  unfold loading_into. intros Hd Hc H. rewrite Hd, Hc. exact H.
Qed.

Lemma loading_issue k ks js w :
  loading (k :: ks) js w -> loading ks js w.
Proof.
  intros (X & T & C & Ik & Ij). loading_split; auto.
  intros x Hx. apply Ik. now right.
Qed.

Lemma loading_page j ks js w :
  loading ks (j :: js) w -> loading ks js w.
Proof.
  intros (X & T & C & Ik & Ij). loading_split; auto.
  intros x Hx. apply Ij. now right.
Qed.

Lemma hoare_loading_stable {A : Type} ks js (m : M A) :
  frames (fun w => (db w, current_batch w)) m ->
  hoare (loading ks js) m (fun _ => loading ks js) (loading ks js).
Proof.
  intros F. apply hoare_stable; [ | exact F ]. intros w w'. apply loading_same.
Qed.

Lemma Reel_save_loading ks js r :
  reel_id r = None -> reel_batch r = name ->
  hoare (loading ks js) (Reel_save r) (fun _ => loading ks js) (loading ks js).
Proof.
  intros N B w (X & T & C & Ik & Ij). unfold Reel_save.
  destruct (tbl_save reel_id with_reel_id r (reels (db w)) (next_id (db w)))
    as [[r' t] n] eqn:S.
  loading_split; simpl; auto.
  eapply owned_save_reel; eauto. intros k E. congruence.
Qed.

Lemma Issue_save_loading ks js i :
  issue_batch i = name ->
  (forall k, issue_id i = Some k -> n0 <= k) ->
  hoare (loading ks js) (Issue_save i)
    (fun i' w => exists k, (issue_id i' = Some k /\ n0 <= k
                            /\ issue_batch i' = name)
                           /\ loading (k :: ks) js w)
    (loading ks js).
Proof.
  intros B K w (X & T & C & Ik & Ij). unfold Issue_save.
  destruct (tbl_save issue_id with_issue_id i (issues (db w)) (next_id (db w)))
    as [[i' t] n] eqn:S.
  destruct (tbl_save_result issue_id with_issue_id issue_id_with _ _ _ _ _ _ S)
    as (k & E & Hin & _).
  destruct (tbl_save_fresh issue_id with_issue_id issue_id_with n0 _ _ _ _ _ _
              S (ob_next _ _ _ _ X) K) as (k' & E' & Hk).
  exists k. split; [split; [exact E | split; [congruence | ] ] | ].
  - apply tbl_save_row in S as [-> | ->]; assumption.
  - loading_split; simpl; auto.
    + eapply owned_save_issue; eauto.
    + intros x [<- | Hx]; [exact Hin | ].
      eapply tbl_save_ids; [exact S | now apply Ik].
Qed.

Lemma IssueNote_save_loading ks js x k :
  inote_id x = None -> inote_issue x = Some k -> n0 <= k -> In k ks ->
  hoare (loading ks js) (IssueNote_save x) (fun _ => loading ks js)
    (loading ks js).
Proof.
  intros N R Hk Hin w (X & T & C & Ik & Ij). unfold IssueNote_save.
  destruct (tbl_save inote_id with_inote_id x (issue_notes (db w))
              (next_id (db w))) as [[x' t] n] eqn:S.
  loading_split; simpl; auto.
  eapply owned_save_inote; eauto. exists k. auto.
Qed.

Lemma Page_save_loading ks js p k :
  (forall j, page_id p = Some j -> n0 <= j) ->
  page_issue p = Some k -> n0 <= k -> In k ks ->
  hoare (loading ks js) (Page_save p)
    (fun p' w => exists j, (page_id p' = Some j /\ n0 <= j
                            /\ page_issue p' = Some k
                            /\ (forall j0, page_id p = Some j0 -> p' = p))
                           /\ loading ks (j :: js) w)
    (loading ks js).
Proof.
  intros K R Hk Hin w (X & T & C & Ik & Ij). unfold Page_save.
  destruct (tbl_save page_id with_page_id p (pages (db w)) (next_id (db w)))
    as [[p' t] n] eqn:S.
  destruct (tbl_save_result page_id with_page_id page_id_with _ _ _ _ _ _ S)
    as (j & E & Hj & _).
  destruct (tbl_save_fresh page_id with_page_id page_id_with n0 _ _ _ _ _ _
              S (ob_next _ _ _ _ X) K) as (j' & E' & Hj').
  exists j. split.
  - split; [exact E | split; [congruence | split ] ].
    + apply tbl_save_row in S as [-> | ->]; assumption.
    + intros j0 E0. apply tbl_save_cases in S
        as [(N & _) | (? & _ & -> & _)]; congruence.
  - loading_split; simpl; auto.
    + eapply owned_save_page; eauto. exists k. auto.
    + intros x [<- | Hx]; [exact Hj | ].
      eapply tbl_save_ids; [exact S | now apply Ij].
Qed.

Lemma PageNote_save_loading ks js x j :
  pnote_id x = None -> pnote_page x = Some j -> n0 <= j -> In j js ->
  hoare (loading ks js) (PageNote_save x) (fun _ => loading ks js)
    (loading ks js).
Proof.
  intros N R Hj Hin w (X & T & C & Ik & Ij). unfold PageNote_save.
  destruct (tbl_save pnote_id with_pnote_id x (page_notes (db w))
              (next_id (db w))) as [[x' t] n] eqn:S.
  loading_split; simpl; auto.
  eapply owned_save_pnote; eauto. exists j. auto.
Qed.

Lemma OCR_save_loading ks js x j :
  ocr_id x = None -> ocr_page x = Some j -> n0 <= j -> In j js ->
  hoare (loading ks js) (OCR_save x) (fun _ => loading ks js) (loading ks js).
Proof.
  intros N R Hj Hin w (X & T & C & Ik & Ij). unfold OCR_save.
  destruct (tbl_save ocr_id with_ocr_id x (ocrs (db w)) (next_id (db w)))
    as [[x' t] n] eqn:S.
  loading_split; simpl; auto.
  eapply owned_save_ocr; eauto. exists j. auto.
Qed.

Lemma Batch_save_loading ks js b :
  batch_name b = name ->
  hoare (loading ks js) (Batch_save b) (fun _ => loading ks js) (loading ks js).
Proof.
  intros B w (X & T & C & Ik & Ij). unfold Batch_save, modify.
  loading_split; simpl; auto.
  - now apply owned_save_batch.
  - apply (filter_upsert_named name b _ B). now right.
Qed.

Lemma LoadBatchEvent_save_loading ks js e :
  hoare (loading ks js) (LoadBatchEvent_save e) (fun _ => loading ks js)
    (loading ks js).
Proof.
  intros w (X & T & C & Ik & Ij). unfold LoadBatchEvent_save, modify.
  loading_split; simpl; auto. now apply owned_by_events.
Qed.

Ltac frames_simple :=
  repeat match goal with
         | |- frames _ (bind _ _) => apply frames_bind; [ | intros ? ]
         | |- frames _ (ret _) => apply frames_ret
         | |- frames _ (raise _) => apply frames_raise
         | |- frames _ (lift _) => apply frames_lift
         | |- frames _ (gets _) => apply frames_gets
         | |- frames _ (try_except _ _ _) =>
             apply frames_try_except; [ | intros ? ]
         | |- frames _ (logger _ _) =>
             apply frames_modify; intros ?; reflexivity
         | |- frames _ (logger_exception _) =>
             apply frames_modify; intros ?; reflexivity
         | |- frames _ (attrib ?o _) => destruct o; simpl
         | |- frames _ (item0 ?l) => destruct l; simpl
         | |- frames _ (dmd_mods _ _) => unfold dmd_mods
         | |- frames _ (match ?x with _ => _ end) => destruct x
         | |- frames _ (solr _) => apply frames_solr; intros; reflexivity
         | |- frames _ (Reel_objects_get _ _) => intros ?; reflexivity
         | |- frames _ (Title_objects_get _) => intros ?; reflexivity
         | |- frames _ (the_current_batch) => apply frames_the_current_batch
         | |- frames _ (storage_relative_path _ _) =>
             apply frames_storage_relative_path
         end.

(** A step whose effect on the store and the current batch is nil. *)
Ltac stable_step :=
  eapply hoare_bind;
  [ apply hoare_loading_stable; frames_simple | intros ? ].

Lemma the_current_batch_loading ks js :
  hoare (loading ks js) the_current_batch
    (fun cb w => batch_name cb = name /\ loading ks js w) (loading ks js).
Proof.
  intros w H. pose proof H as (_ & _ & (cb & C & B) & _).
  unfold the_current_batch, bind, gets. rewrite C. simpl. auto.
Qed.

Lemma load_reel_loading ks js batch e :
  batch_name batch = name ->
  hoare (loading ks js) (load_reel batch e) (fun _ => loading ks js)
    (loading ks js).
Proof.
  intros B. unfold load_reel. stable_step.
  eapply hoare_try_except with (E1 := loading ks js); [ | intros e' | auto ].
  - apply hoare_loading_stable. frames_simple.
  - eapply hoare_bind; [now apply Reel_save_loading | intros r ].
    now apply hoare_ret.
Qed.

Lemma set_jp2_dimensions_keys wd ln p : same_keys p (set_jp2_dimensions wd ln p).
Proof. split; reflexivity. Qed.

Lemma admid_loop_keys doc admids p : same_keys p (admid_loop doc admids p).
Proof.
  induction admids as [ | a rest IH ]; simpl; [split; reflexivity | ].
  destruct (get_dimensions doc a) as [l wd].
  destruct (text_truthy l && text_truthy wd); [split; reflexivity | exact IH].
Qed.

Lemma same_keys_trans p q r : same_keys p q -> same_keys q r -> same_keys p r.
Proof. unfold same_keys. intros [] []. split; congruence. Qed.

Lemma jp2_dimensions_loading ks js env doc file_el issue page :
  hoare (loading ks js) (jp2_dimensions env doc file_el issue page)
    (fun p' w => same_keys page p' /\ loading ks js w) (loading ks js).
Proof.
  unfold jp2_dimensions.
  eapply hoare_bind with
    (R := fun p' w => same_keys page p' /\ loading ks js w).
  - eapply hoare_try_except with (E1 := loading ks js); [ | intros e | auto ].
    + eapply hoare_bind;
        [apply hoare_loading_stable; frames_simple | intros admid].
      apply hoare_ret. intros w H. split; [apply admid_loop_keys | exact H].
    + stable_step. stable_step. destruct a0 as [wd ln].
      apply hoare_ret. intros w H. split; [split; reflexivity | exact H].
  - intros p'. apply hoare_pure. intros K.
    destruct (negb (truthy (page_jp2_width p'))); [now apply hoare_raise | ].
    destruct (negb (truthy (page_jp2_length p'))); [now apply hoare_raise | ].
    now apply hoare_ret.
Qed.

Lemma load_file_loading ks js env doc issue page fptr :
  hoare (loading ks js) (load_file env doc issue page fptr)
    (fun p' w => same_keys page p' /\ loading ks js w) (loading ks js).
Proof.
  unfold load_file. stable_step. stable_step. stable_step. stable_step.
  destruct (a1 =? "master");
    [apply hoare_ret; intros w H; split; [split; reflexivity | exact H] | ].
  destruct (a1 =? "service").
  { eapply hoare_weaken;
      [apply (jp2_dimensions_loading ks js) | auto | | auto ].
    intros p' w [K H]. split; [ | exact H ].
    destruct K as [K1 K2]. split; [exact K1 | exact K2]. }
  destruct (a1 =? "derivative");
    [apply hoare_ret; intros w H; split; [split; reflexivity | exact H] | ].
  destruct (a1 =? "ocr");
    apply hoare_ret; intros w H; split; try (split; reflexivity); exact H.
Qed.

Lemma load_files_loading ks js env doc issue fptrs : forall page,
  hoare (loading ks js) (load_files env doc issue page fptrs)
    (fun p' w => same_keys page p' /\ loading ks js w) (loading ks js).
Proof.
  induction fptrs as [ | fptr rest IH ]; intros page; simpl.
  - apply hoare_ret. intros w H. split; [split; reflexivity | exact H].
  - eapply hoare_bind; [apply load_file_loading | intros p1 ].
    apply hoare_pure. intros K.
    eapply hoare_weaken; [apply (IH p1) | auto | | auto ].
    intros p' w [K' H]. split; [ | exact H ].
    eapply same_keys_trans; eassumption.
Qed.

Lemma Page_save_again ks js p j k :
  page_id p = Some j -> n0 <= j -> page_issue p = Some k -> n0 <= k ->
  In k ks ->
  hoare (loading ks js) (Page_save p)
    (fun p' w => same_keys p p' /\ loading ks js w) (loading ks js).
Proof.
  intros Ej Hj Ek Hk Hin.
  eapply hoare_weaken;
    [ apply (Page_save_loading ks js p k); auto | auto | | auto ].
  - intros j0 E0. congruence.
  - intros p' w (j' & (E' & _ & _ & S) & H). split.
    + rewrite (S j Ej). split; reflexivity.
    + now apply loading_page in H.
Qed.

Lemma process_ocr_loading ks js env issue page index j k :
  page_id page = Some j -> n0 <= j -> In j js ->
  page_issue page = Some k -> n0 <= k -> In k ks ->
  hoare (loading ks js) (process_ocr env issue page index)
    (fun p' w => same_keys page p' /\ loading ks js w) (loading ks js).
Proof.
  intros Ej Hj Ij Ek Hk Ik. unfold process_ocr. stable_step.
  destruct a as [text coords].
  eapply hoare_bind;
    [ apply (OCR_save_loading ks js _ j); auto | intros o ].
  eapply hoare_bind with
    (R := fun p' w => same_keys page p' /\ loading ks js w).
  - destruct index.
    + stable_step. apply hoare_ret. intros w H.
      split; [split; reflexivity | exact H].
    + apply hoare_ret. intros w H. split; [split; reflexivity | exact H].
  - intros p1. apply hoare_pure. intros [K1 K2].
    eapply hoare_weaken;
      [ apply (Page_save_again ks js p1 j k); congruence | auto | | auto ].
    intros p' w [K H]. split; [ | exact H ].
    eapply same_keys_trans; [ | exact K ]. now split.
Qed.

Lemma page_notes_loading ks js (notes : list ModsNote) j :
  n0 <= j -> In j js ->
  hoare (loading ks js)
    (for_each notes
       (fun mods_note =>
          bind (PageNote_save
                  {| pnote_id := None; pnote_type := mn_type mods_note;
                     pnote_label := mn_displayLabel mods_note;
                     pnote_text := Py.strip (mn_text mods_note);
                     pnote_page := Some j |})
            (fun _ => ret tt)))
    (fun _ => loading ks js) (loading ks js).
Proof.
  intros Hj Ij. apply hoare_for_each. intros x.
  eapply hoare_bind;
    [ apply (PageNote_save_loading ks js _ j); auto | intros o ].
  now apply hoare_ret.
Qed.

Lemma load_page_loading ks js env doc div issue k :
  issue_id issue = Some k -> n0 <= k -> In k ks ->
  hoare (loading ks js) (_load_page env doc div issue)
    (fun _ => loading ks js) (loading ks js).
Proof.
  intros Ek Hk Ik. unfold _load_page.
  stable_step. stable_step. stable_step.
  eapply hoare_bind with (R := fun _ => loading ks js).
  { eapply hoare_try_except with (E1 := loading ks js); [ | intros e | auto ].
    - eapply hoare_bind; [apply the_current_batch_loading | intros cb ].
      apply hoare_pure. intros B. stable_step. now apply hoare_ret.
    - destruct (Py.nonempty (Py.strip (mods_reel_number a0))).
      + eapply hoare_bind; [apply the_current_batch_loading | intros cb ].
        apply hoare_pure. intros B.
        eapply hoare_bind; [now apply Reel_save_loading | intros r ].
        now apply hoare_ret.
      + stable_step. now apply hoare_ret. }
  intros reel. stable_step.
  eapply hoare_bind with (R := fun _ => loading ks js).
  { destruct (Py.nonempty (pdiv_section_DMDID div)).
    - stable_step. now apply hoare_ret.
    - now apply hoare_ret. }
  intros section_label.
  eapply hoare_bind;
    [ apply (Page_save_loading ks js _ k); simpl; auto; discriminate
    | intros page ].
  apply hoare_ex. intros j. apply hoare_pure. intros (Ej & Hj & Ei & _).
  eapply hoare_weaken with (E := loading ks (j :: js))
                           (Q := fun _ => loading ks (j :: js));
    [ | intros w H; exact H | intros ? ?; apply loading_page
    | intros ?; apply loading_page ].
  rewrite Ej.
  eapply hoare_bind;
    [ apply (page_notes_loading ks (j :: js) _ j); simpl; auto | intros u ].
  eapply hoare_bind; [apply load_files_loading | intros p1 ].
  apply hoare_pure. intros [K1 K2].
  eapply hoare_bind;
    [apply hoare_loading_stable; frames_simple | intros process ].
  eapply hoare_bind with
    (R := fun p' w => same_keys page p' /\ loading ks (j :: js) w).
  { destruct (text_truthy (page_ocr_filename p1)).
    - destruct process.
      + eapply hoare_weaken;
          [ apply (process_ocr_loading ks (j :: js) env issue p1 true j k);
            simpl; auto; congruence
          | auto | | auto ].
        intros p' w [K H]. split; [ | exact H ].
        eapply same_keys_trans; [ | exact K ]. now split.
      + apply hoare_ret. intros w H. split; [now split | exact H].
    - stable_step. apply hoare_ret. intros w H. split; [now split | exact H]. }
  intros p2. apply hoare_pure. intros [K3 K4].
  eapply hoare_weaken;
    [ apply (Page_save_again ks (j :: js) p2 j k); congruence | auto | | auto ].
  intros p' w [_ H]. exact H.
Qed.

Lemma load_pages_loading ks js env doc issue k divs :
  issue_id issue = Some k -> n0 <= k -> In k ks ->
  hoare (loading ks js) (load_pages env doc issue divs)
    (fun _ => loading ks js) (loading ks js).
Proof.
  intros Ek Hk Ik. induction divs as [ | div rest IH ]; simpl.
  - now apply hoare_ret.
  - eapply hoare_bind; [ | intros u; exact IH ].
    eapply hoare_try_finally with (Q1 := fun _ => loading ks js)
                                  (E1 := loading ks js).
    + eapply hoare_try_except with (E1 := loading ks js);
        [ | intros e | auto ].
      * eapply hoare_bind;
          [ now apply (load_page_loading ks js env doc div issue k)
          | intros p ].
        now apply hoare_ret.
      * apply hoare_loading_stable. frames_simple.
    + intros u. apply hoare_modify. intros w. now apply loading_same.
    + apply hoare_modify. intros w. now apply loading_same.
Qed.

Lemma issue_notes_loading ks js (notes : list ModsNote) k :
  n0 <= k -> In k ks ->
  hoare (loading ks js)
    (for_each notes
       (fun mods_note =>
          bind (IssueNote_save
                  {| inote_id := None; inote_type := mn_type mods_note;
                     inote_label := mn_displayLabel mods_note;
                     inote_text := mn_text mods_note;
                     inote_issue := Some k |})
            (fun _ => ret tt)))
    (fun _ => loading ks js) (loading ks js).
Proof.
  intros Hk Ik. apply hoare_for_each. intros x.
  eapply hoare_bind;
    [ apply (IssueNote_save_loading ks js _ k); auto | intros o ].
  now apply hoare_ret.
Qed.

Lemma load_issue_record_loading ks js doc div :
  hoare (loading ks js) (load_issue_record doc div)
    (fun issue w => exists k, (issue_id issue = Some k /\ n0 <= k)
                              /\ loading (k :: ks) js w)
    (loading ks js).
Proof.
  unfold load_issue_record.
  stable_step. stable_step. stable_step. stable_step. stable_step.
  eapply hoare_bind; [apply the_current_batch_loading | intros cb ].
  apply hoare_pure. intros B.
  eapply hoare_bind;
    [ apply (Issue_save_loading ks js); simpl; auto; discriminate
    | intros issue ].
  apply hoare_ex. intros k. apply hoare_pure. intros (Ek & Hk & Bi).
  eapply hoare_weaken with (E := loading (k :: ks) js);
    [ | intros w H; exact H | intros ? w H; exact H
    | intros ?; apply loading_issue ].
  rewrite Ek.
  eapply hoare_bind;
    [ apply (issue_notes_loading (k :: ks) js _ k); simpl; auto | intros u ].
  eapply hoare_weaken;
    [ apply (Issue_save_loading (k :: ks) js issue); auto | auto | | auto ].
  - intros k0 E0. congruence.
  - intros issue' w (k' & (E' & Hk' & _) & H).
    exists k'. split; [auto | ].
    destruct H as (X & T & C & Ik & Ij). loading_split; auto.
    intros x [<- | Hx]; apply Ik; [now left | now right; right].
Qed.

Lemma load_issue_loading ks js env mets_file :
  hoare (loading ks js) (_load_issue env mets_file)
    (fun _ => loading ks js) (loading ks js).
Proof.
  unfold _load_issue. stable_step. stable_step.
  eapply hoare_bind; [apply load_issue_record_loading | intros issue ].
  apply hoare_ex. intros k. apply hoare_pure. intros (Ek & Hk).
  eapply hoare_weaken with (E := loading (k :: ks) js)
                           (Q := fun _ => loading (k :: ks) js);
    [ | intros w H; exact H | intros ? ?; apply loading_issue
    | intros ?; apply loading_issue ].
  eapply hoare_bind;
    [ apply (load_pages_loading (k :: ks) js env _ _ k); simpl; auto
    | intros u ].
  now apply hoare_ret.
Qed.

Lemma load_issues_loading ks js env batch es : forall times,
  hoare (loading ks js) (load_issues env batch es times)
    (fun _ => loading ks js) (loading ks js).
Proof.
  induction es as [ | e rest IH ]; intros times; simpl.
  - now apply hoare_ret.
  - stable_step.
    eapply hoare_bind with (R := fun _ => loading ks js).
    + eapply hoare_try_except with (E1 := loading ks js);
        [ | intros e' | auto ].
      * eapply hoare_bind; [apply load_issue_loading | intros i ].
        now apply hoare_ret.
      * stable_step. now apply hoare_ret.
    + intros [i | ]; [ | apply IH ].
      eapply hoare_bind with (R := fun _ => loading ks js).
      * apply hoare_modify. intros w. now apply loading_same.
      * intros u. stable_step. apply IH.
Qed.

End Loading.

(** ** A load into a well-formed store *)

Lemma basename_no_slash s : Py.has_slash (Py.basename s) = false.
Proof.
  induction s as [ | c r IH ]; simpl; [reflexivity | ].
  destruct (Py.has_slash r) eqn:R; [exact IH | ].
  destruct (Py.is_slash c) eqn:C; [exact R | ].
  simpl. now rewrite C, R.
Qed.

Lemma basename_without_slash s : Py.has_slash s = false -> Py.basename s = s.
Proof.
  destruct s as [ | c r ]; simpl; [reflexivity | ].
  intros H. apply orb_false_iff in H as [C R]. now rewrite R, C.
Qed.

Lemma normalized_basename raw name :
  normalizes_to raw name -> Py.basename name = name.
Proof.
  intros [-> _]. apply basename_without_slash, basename_no_slash.
Qed.

Lemma filter_all {A : Type} (f : A -> bool) l :
  forallb f l = true -> filter f l = l.
Proof.
  induction l as [ | x l IH ]; simpl; [reflexivity | ].
  intros H. apply andb_true_iff in H as [-> H]. now rewrite IH.
Qed.

Lemma filter_none {A : Type} (f : A -> bool) l :
  filter f l = [] -> filter (fun x => negb (f x)) l = l.
Proof.
  induction l as [ | x l IH ]; simpl; [reflexivity | ].
  destruct (f x); [discriminate | ]. intros H. simpl. now rewrite IH.
Qed.

Lemma forallb_weaken {A : Type} (f g : A -> bool) l :
  (forall x, f x = true -> g x = true) ->
  forallb f l = true -> forallb g l = true.
Proof.
  intros H. rewrite !forallb_forall. auto.
Qed.

Lemma unnamed_batch name st b :
  filter (named name) (batches st) = [] ->
  existsb (named b) (batches st) = true -> b <> name.
Proof.
  intros F X ->. apply existsb_exists in X as (x & Hx & E).
  assert (In x (filter (named name) (batches st))) by (apply filter_In; auto).
  rewrite F in *. contradiction.
Qed.

(** A well-formed store that holds no batch [name] is owned, trivially, by
    that batch from the store's next id on. *)
Lemma owned_by_init st name :
  wf_store st = true ->
  filter (named name) (batches st) = [] ->
  owned_by (next_id st) name st st.
Proof.
  unfold wf_store. intros W F.
  apply andb_true_iff in W as [W Wo]. apply andb_true_iff in W as [W Wpn].
  apply andb_true_iff in W as [W Wp]. apply andb_true_iff in W as [W Win].
  apply andb_true_iff in W as [Wr Wi].
  constructor.
  - apply le_n.
  - now apply filter_none.
  - reflexivity.
  - reflexivity.
  - apply filter_all. eapply forallb_weaken; [ | exact Wr ].
    intros r H. now apply andb_true_iff in H as [H _].
  - apply filter_all. eapply forallb_weaken; [ | exact Wi ].
    intros r H. now apply andb_true_iff in H as [H _].
  - apply filter_all. eapply forallb_weaken; [ | exact Win ].
    intros r H. now apply andb_true_iff in H as [H _].
  - apply filter_all. eapply forallb_weaken; [ | exact Wp ].
    intros r H. apply andb_true_iff in H as [H _].
    now apply andb_true_iff in H as [H _].
  - apply filter_all. eapply forallb_weaken; [ | exact Wpn ].
    intros r H. now apply andb_true_iff in H as [H _].
  - apply filter_all. eapply forallb_weaken; [ | exact Wo ].
    intros r H. now apply andb_true_iff in H as [H _].
  - apply Forall_forall. intros r Hr.
    apply (proj1 (forallb_forall _ _) Wr) in Hr.
    apply andb_true_iff in Hr as [O B]. left. split; [exact O | ].
    eapply unnamed_batch; eassumption.
  - apply Forall_forall. intros r Hr.
    apply (proj1 (forallb_forall _ _) Wi) in Hr.
    apply andb_true_iff in Hr as [O B]. left. split; [exact O | ].
    eapply unnamed_batch; eassumption.
  - apply Forall_forall. intros r Hr.
    apply (proj1 (forallb_forall _ _) Win) in Hr.
    apply andb_true_iff in Hr as [O B]. left. auto.
  - apply Forall_forall. intros r Hr.
    apply (proj1 (forallb_forall _ _) Wp) in Hr.
    apply andb_true_iff in Hr as [Hr R]. apply andb_true_iff in Hr as [O B].
    left. auto.
  - apply Forall_forall. intros r Hr.
    apply (proj1 (forallb_forall _ _) Wpn) in Hr.
    apply andb_true_iff in Hr as [O B]. left. auto.
  - apply Forall_forall. intros r Hr.
    apply (proj1 (forallb_forall _ _) Wo) in Hr.
    apply andb_true_iff in Hr as [O B]. left. auto.
Qed.

Ltac frames_simple :=
  repeat match goal with
         | |- frames _ (bind _ _) => apply frames_bind; [ | intros ? ]
         | |- frames _ (ret _) => apply frames_ret
         | |- frames _ (raise _) => apply frames_raise
         | |- frames _ (lift _) => apply frames_lift
         | |- frames _ (gets _) => apply frames_gets
         | |- frames _ (try_except _ _ _) =>
             apply frames_try_except; [ | intros ? ]
         | |- frames _ (logger _ _) =>
             apply frames_modify; intros ?; reflexivity
         | |- frames _ (logger_exception _) =>
             apply frames_modify; intros ?; reflexivity
         | |- frames _ (attrib ?o _) => destruct o; simpl
         | |- frames _ (item0 ?l) => destruct l; simpl
         | |- frames _ (dmd_mods _ _) => unfold dmd_mods
         | |- frames _ (match ?x with _ => _ end) => destruct x
         | |- frames _ (solr _) => apply frames_solr; intros; reflexivity
         | |- frames _ (Reel_objects_get _ _) => intros ?; reflexivity
         | |- frames _ (Title_objects_get _) => intros ?; reflexivity
         | |- frames _ (the_current_batch) => apply frames_the_current_batch
         | |- frames _ (storage_relative_path _ _) =>
             apply frames_storage_relative_path
         end.

(** A step whose effect on the store and the current batch is nil. *)
Ltac stable_step :=
  eapply hoare_bind;
  [ apply hoare_loading_stable; frames_simple | intros ? ].

Section Load.
Variables (n0 : nat) (name : string) (st0 : Store).
Hypothesis name_is_basename : Py.basename name = name.

Local Abbreviation unloaded := (not_yet_loaded n0 name st0).

Lemma get_batch_creates :
  hoare unloaded (_get_batch name true)
    (fun b w => batch_name b = name /\ owned_by n0 name st0 (db w)
                /\ the_batch name (db w))
    (fun _ => True).
Proof.
  intros w [X F]. unfold _get_batch, _create_batch.
  unfold bind at 1, Batch_objects_count, gets. rewrite F. simpl.
  destruct (Py.split_at "_" 3 name) as [ | p0 [ | p1 [ | p2 [ | p3 [ | ] ] ] ] ];
    try exact I.
  unfold bind at 1, try_except, Awardee_objects_get.
  destruct (objects_get MAwardee _ (awardees (db w))) as [a | e].
  - unfold bind, Batch_save, modify, ret. simpl.
    rewrite name_is_basename. split; [reflexivity | split ].
    + apply owned_save_batch; [exact X | reflexivity].
    + apply (filter_upsert_named name); [reflexivity | now left].
  - destruct (is_DoesNotExist MAwardee e); exact I.
Qed.

Lemma sanity_check_keeps_name env batch w :
  match _sanity_check_batch env batch w with
  | (w', Ok b) => w' = w /\ batch_name b = batch_name batch
  | (w', Raise _) => w' = w
  end.
Proof.
  unfold _sanity_check_batch.
  destruct (negb (os_path_exists env _)); [reflexivity | ].
  unfold bind, _find_batch_file.
  destruct (_find_batch_file_loop env _ batch_file_aliases None)
    as [[ | ] [f | ]]; simpl; auto.
Qed.

Lemma load_manifest_loading env bn batch :
  batch_name batch = name ->
  hoare (loading_into n0 name st0 [] []) (load_manifest env bn batch)
    (fun b w => b = batch /\ loading_into n0 name st0 [] [] w)
    (fun _ => True).
Proof.
  intros B. unfold load_manifest.
  eapply hoare_weaken with (E := loading_into n0 name st0 [] []);
    [ | intros w H; exact H | intros ? w H; exact H | auto ].
  eapply hoare_bind.
  { apply hoare_loading_stable. unfold Batch_validated_batch_file_path.
    frames_simple. }
  intros path. stable_step.
  eapply hoare_bind.
  { apply hoare_for_each. intros e. now apply load_reel_loading. }
  intros u.
  eapply hoare_bind; [apply load_issues_loading | intros times ].
  stable_step.
  eapply hoare_bind with (R := fun _ => loading_into n0 name st0 [] []).
  { apply hoare_loading_stable. frames_simple. }
  intros u'.
  eapply hoare_bind; [now apply Batch_save_loading | intros u'' ].
  stable_step. stable_step.
  eapply hoare_bind; [apply LoadBatchEvent_save_loading | intros u3 ].
  apply hoare_ret. auto.
Qed.

Lemma load_batch_try_loading env :
  hoare unloaded (load_batch_try env name)
    (fun b w => batch_name b = name /\ loading_into n0 name st0 [] [] w)
    (fun _ => True).
Proof.
  unfold load_batch_try.
  eapply hoare_bind; [apply get_batch_creates | intros b0 ].
  apply hoare_pure. intros B0.
  eapply hoare_bind with
    (R := fun b w => batch_name b = name
                     /\ owned_by n0 name st0 (db w) /\ the_batch name (db w)).
  { intros w H. pose proof (sanity_check_keeps_name env b0 w) as S.
    destruct (_sanity_check_batch env b0 w) as [w' [b | e]]; [ | exact I ].
    destruct S as [-> S]. split; [congruence | exact H]. }
  intros batch. apply hoare_pure. intros B.
  eapply hoare_bind with (R := fun _ => loading_into n0 name st0 [] []).
  { apply hoare_modify. intros w [X T]. unfold loading_into. simpl.
    split; [exact X | split; [exact T | split ] ].
    - exists batch. auto.
    - split; apply incl_nil_l. }
  intros u.
  eapply hoare_weaken;
    [ now apply (load_manifest_loading env name batch) | auto | | auto ].
  intros b w [-> H]. auto.
Qed.

End Load.

Lemma load_batch_not_loaded env raw name strict w :
  normalizes_to raw name ->
  filter (named name) (batches (db w)) = [] ->
  load_batch env raw strict w = load_batch_fresh env name w.
Proof.
  intros Hn F. rewrite (load_batch_normalized env raw name strict w Hn).
  destruct strict; simpl negb; cbv iota; [reflexivity | ].
  unfold bind at 1, try_except. unfold bind at 1, Batch_objects_get, objects_get.
  rewrite F. reflexivity.
Qed.

Lemma the_batch_get name st :
  the_batch name st ->
  exists b, objects_get MBatch (named name) (batches st) = Ok b
            /\ batch_name b = name.
Proof.
  intros [b F]. exists b. unfold objects_get. rewrite F. split; [reflexivity | ].
  assert (H : In b (filter (named name) (batches st))) by (rewrite F; now left).
  apply filter_In in H as [_ H]. now apply String.eqb_eq in H.
Qed.

(** C1, as amended: let a load of a batch into a well-formed store that
    does not hold it succeed, with a loader that has an index connection.
    Purging the batch by its normalized name then succeeds and leaves the
    records of the store before the load: no batch, reel, issue, page, note
    or OCR record of the batch remains.  The deletions go issue by issue:
    the pages of an issue, then that issue, then the pages of the next
    issue, and so on; after the last issue the batch record, then the
    retraction from the index by the batch query, then the index commit. *)
Theorem load_then_purge_restores_store (env : Env) (raw name : string)
  (strict : bool) (w0 w1 : World) (b : Batch) :
  wf_store (db w0) = true ->
  PROCESS_OCR w0 = true ->
  normalizes_to raw name ->
  filter (named name) (batches (db w0)) = [] ->
  load_batch env raw strict w0 = (w1, Ok b) ->
  batch_name b = name
  /\ snd (purge_batch name w1) = Ok tt
  /\ same_records (db (fst (purge_batch name w1))) (db w0)
  /\ exists blocks rest,
       calls (fst (purge_batch name w1)) = calls w1 ++ rest
       /\ issue_by_issue name blocks rest
       /\ map snd blocks
          = ids issue_id
              (filter (fun i => issue_batch i =? name) (issues (db w1)))
       /\ Forall (fun block =>
                    incl (fst block)
                      (ids page_id (pages_of (snd block) (db w1)))) blocks.
Proof.
  intros W P Hn F L.
  rewrite (load_batch_not_loaded env raw name strict w0 Hn F) in L.
  assert (P1 : PROCESS_OCR w1 = true).
  { rewrite <- P.
    change w1 with (fst (w1, @Ok Batch b)). rewrite <- L.
    apply (frames_load_batch_fresh PROCESS_OCR); auto. }
  rewrite load_batch_fresh_outcome in L.
  pose proof (load_batch_try_loading (next_id (db w0)) name (db w0)
                (normalized_basename raw name Hn) env
                (load_started name w0)) as T.
  destruct (load_batch_try env name (load_started name w0)) as [w2 [b2 | e]];
    [ | discriminate ].
  injection L as -> ->.
  destruct T as (B & X & T & _).
  { split; simpl.
    - apply owned_by_events. now apply owned_by_init.
    - exact F. }
  split; [exact B | ].
  destruct (the_batch_get name (db w1) T) as (batch & G & Bn).
  rewrite purge_batch_outcome. rewrite G.
  destruct (purge_batch_owned (next_id (db w0)) name (db w0) batch
              (add_event name "starting purge" w1) Bn)
    as (w' & blocks & R & S & _ & O & C & M & Bl).
  { simpl. now apply owned_by_events. }
  { exact P1. }
  rewrite R. simpl.
  split; [reflexivity | ]. split; [exact S | ].
  exists blocks, (skipn (List.length (calls w1)) (calls w')).
  split; [exact C | ]. split; [exact O | ]. split; [exact M | exact Bl].
Qed.

Lemma load_then_purge_restores_store_witness :
  batch_name Ex.batch = Ex.name
  /\ snd (purge_batch Ex.name Ex.loaded) = Ok tt
  /\ same_records (db (fst (purge_batch Ex.name Ex.loaded))) (db Ex.world)
  /\ exists blocks rest,
       calls (fst (purge_batch Ex.name Ex.loaded)) = calls Ex.loaded ++ rest
       /\ issue_by_issue Ex.name blocks rest
       /\ map snd blocks
          = ids issue_id
              (filter (fun i => issue_batch i =? Ex.name)
                 (issues (db Ex.loaded)))
       /\ Forall (fun block =>
                    incl (fst block)
                      (ids page_id (pages_of (snd block) (db Ex.loaded))))
            blocks.
Proof.
  apply (load_then_purge_restores_store Ex.env "/st/batch_dlc_test_ver01/"
           Ex.name true Ex.world Ex.loaded Ex.batch).
  - reflexivity.
  - reflexivity.
  - exact normalizes_to_example.
  - reflexivity.
  - vm_compute. reflexivity.
Defined.

(** C1, as stated, fails in the order of deletion: the batch has two issues
    of two pages each, and the first issue is deleted before the pages of
    the second, so that the calls are not "every page, then every issue". *)
Lemma purge_deletes_issue_before_later_pages :
  snd (load_batch Ex.env Ex.name true Ex.world) = Ok Ex.batch
  /\ calls (fst (purge_batch Ex.name Ex.loaded))
     = calls Ex.loaded
       ++ [DeletePage 4; DeletePage 8; DeleteIssue 2;
           DeletePage 12; DeletePage 15; DeleteIssue 10;
           DeleteBatch Ex.name;
           SolrDeleteQuery ("batch:" ++ dquote ++ Ex.name ++ dquote);
           SolrCommit]
  /\ ~ pages_then_issues Ex.name
         [DeletePage 4; DeletePage 8; DeleteIssue 2;
          DeletePage 12; DeletePage 15; DeleteIssue 10;
          DeleteBatch Ex.name;
          SolrDeleteQuery ("batch:" ++ dquote ++ Ex.name ++ dquote);
          SolrCommit].
Proof.
  split; [vm_compute; reflexivity | ]. split; [vm_compute; reflexivity | ].
  intros (ps & ks & E).
  destruct ps as [ | p1 [ | p2 [ | p3 ps ] ] ]; simpl in E; try discriminate;
    destruct ks as [ | k1 [ | k2 ks ] ]; simpl in E; discriminate.
Qed.

(** ** Invariants of the loader *)

Lemma preserves_ret {A : Type} (I : World -> Prop) (a : A) : preserves I (ret a).
Proof. intros w Hw. exact Hw. Qed.

Lemma preserves_raise {A : Type} (I : World -> Prop) e : preserves I (@raise A e).
Proof. intros w Hw. exact Hw. Qed.

Lemma preserves_lift {A : Type} (I : World -> Prop) (r : result A) :
  preserves I (lift r).
Proof. intros w Hw. unfold lift. destruct r; exact Hw. Qed.

Lemma preserves_gets {A : Type} (I : World -> Prop) (g : World -> A) :
  preserves I (gets g).
Proof. intros w Hw. exact Hw. Qed.

Lemma preserves_modify (I : World -> Prop) g :
  (forall w, I w -> I (g w)) -> preserves I (modify g).
Proof. intros H w Hw. now apply H. Qed.

Lemma preserves_bind {A B : Type} (I : World -> Prop) (m : M A) (k : A -> M B) :
  preserves I m -> (forall a, preserves I (k a)) -> preserves I (bind m k).
Proof. intros Hm Hk. eapply hoare_bind; [exact Hm | exact Hk]. Qed.

Lemma preserves_try_except {A : Type} (I : World -> Prop) (m : M A) c h :
  preserves I m -> (forall e, preserves I (h e)) ->
  preserves I (try_except m c h).
Proof.
  intros Hm Hh. eapply hoare_try_except; [exact Hm | exact Hh | auto].
Qed.

Lemma preserves_try_finally {A : Type} (I : World -> Prop) (m : M A) fin :
  preserves I m -> preserves I fin -> preserves I (try_finally m fin).
Proof.
  intros Hm Hf. eapply hoare_try_finally; [exact Hm | intros a; exact Hf | exact Hf].
Qed.

Lemma preserves_for_each {A : Type} (I : World -> Prop) (xs : list A) body :
  (forall x, preserves I (body x)) -> preserves I (for_each xs body).
Proof. intros H. now apply hoare_for_each. Qed.

(** A computation that only reads the world. *)
Lemma preserves_read {A : Type} (I : World -> Prop) (m : M A) :
  (forall w, fst (m w) = w) -> preserves I m.
Proof.
  intros H w Hw. specialize (H w). destruct (m w) as [w' [a | e]];
    simpl in H; now subst.
Qed.

Section Invariant.
Variable I : World -> Prop.

Ltac keep :=
  repeat match goal with
         | |- preserves _ (bind _ _) => apply preserves_bind; [ | intros ? ]
         | |- preserves _ (ret _) => apply preserves_ret
         | |- preserves _ (raise _) => apply preserves_raise
         | |- preserves _ (lift _) => apply preserves_lift
         | |- preserves _ (gets _) => apply preserves_gets
         | |- preserves _ (try_except _ _ _) =>
             apply preserves_try_except; [ | intros ? ]
         | |- preserves _ (try_finally _ _) => apply preserves_try_finally
         | |- preserves _ (for_each _ _) => apply preserves_for_each; intros ?
         | |- preserves _ (attrib ?o _) => destruct o; simpl
         | |- preserves _ (item0 ?l) => destruct l; simpl
         | |- preserves _ (dmd_mods _ _) => unfold dmd_mods
         | |- preserves _ (Reel_objects_get _ _) =>
             apply preserves_read; intros ?; reflexivity
         | |- preserves _ (Title_objects_get _) =>
             apply preserves_read; intros ?; reflexivity
         | |- preserves _ (Awardee_objects_get _) =>
             apply preserves_read; intros ?; reflexivity
         | |- preserves _ (Batch_objects_get _) =>
             apply preserves_read; intros ?; reflexivity
         | |- preserves _ (match ?x with _ => _ end) => destruct x
         | |- preserves _ (let '(_, _) := ?x in _) => destruct x
         end.

Hypothesis I_log : forall l msg w, I w -> I (add_log l msg w).

Lemma preserves_logger l msg : preserves I (logger l msg).
Proof. apply preserves_modify. intros w. apply I_log. Qed.

Lemma preserves_logger_exception e : preserves I (logger_exception e).
Proof. apply preserves_logger. Qed.

Lemma preserves_the_current_batch : preserves I the_current_batch.
Proof. unfold the_current_batch. keep. Qed.

Lemma preserves_storage_relative_path env path :
  preserves I (storage_relative_path env path).
Proof. unfold storage_relative_path. keep. Qed.

Lemma preserves_jp2_dimensions env doc file_el issue page :
  preserves I (jp2_dimensions env doc file_el issue page).
Proof. unfold jp2_dimensions. keep; apply preserves_logger. Qed.

Lemma preserves_load_file env doc issue page fptr :
  preserves I (load_file env doc issue page fptr).
Proof.
  unfold load_file. keep;
    auto using preserves_storage_relative_path, preserves_jp2_dimensions.
Qed.

Lemma preserves_load_files env doc issue fptrs : forall page,
  preserves I (load_files env doc issue page fptrs).
Proof.
  induction fptrs as [ | fptr rest IH ]; intros page; simpl; keep.
  - apply preserves_load_file.
  - apply IH.
Qed.

(** The writes of the page loader. *)
Hypothesis I_Reel_save : forall r, preserves I (Reel_save r).
Hypothesis I_Page_save : forall p, preserves I (Page_save p).
Hypothesis I_PageNote_save : forall x, preserves I (PageNote_save x).
Hypothesis I_OCR_save : forall o, preserves I (OCR_save o).
Hypothesis I_solr_add : forall p, preserves I (solr (SolrAdd p)).

Lemma preserves_process_ocr env issue page index :
  preserves I (process_ocr env issue page index).
Proof. unfold process_ocr. keep; auto. Qed.

Lemma preserves_load_page env doc div issue :
  preserves I (_load_page env doc div issue).
Proof.
  unfold _load_page.
  keep; auto using preserves_the_current_batch, preserves_logger,
    preserves_load_files, preserves_process_ocr.
Qed.

Hypothesis I_pages : forall n w, I w -> I (set_pages_processed n w).

Lemma preserves_load_pages env doc issue divs :
  preserves I (load_pages env doc issue divs).
Proof.
  induction divs as [ | d rest IH ]; simpl; keep;
    auto using preserves_load_page, preserves_logger_exception.
  apply preserves_modify. intros w. apply I_pages.
Qed.

(** The writes of the issue loader. *)
Hypothesis I_Issue_save : forall i, preserves I (Issue_save i).
Hypothesis I_IssueNote_save : forall x, preserves I (IssueNote_save x).

Lemma preserves_load_issue_record doc div :
  preserves I (load_issue_record doc div).
Proof.
  unfold load_issue_record. keep; auto using preserves_the_current_batch.
Qed.

Lemma preserves_load_issue env mets_file :
  preserves I (_load_issue env mets_file).
Proof.
  unfold _load_issue.
  keep; auto using preserves_load_issue_record, preserves_load_pages.
Qed.

Hypothesis I_issues : forall n w, I w -> I (set_issues_processed n w).

Lemma preserves_load_issues env batch es : forall times,
  preserves I (load_issues env batch es times).
Proof.
  induction es as [ | e rest IH ]; intros times; simpl; keep;
    auto using preserves_load_issue, preserves_logger_exception.
  apply preserves_modify. intros w. apply I_issues.
Qed.

Lemma preserves_load_reel batch e : preserves I (load_reel batch e).
Proof. unfold load_reel. keep; auto. Qed.

(** The writes of [load_batch] itself. *)
Hypothesis I_Batch_save : forall b, preserves I (Batch_save b).
Hypothesis I_event : forall e, preserves I (LoadBatchEvent_save e).
Hypothesis I_solr_commit : preserves I (solr SolrCommit).
Hypothesis I_batch : forall b w, I w -> I (set_current_batch b w).

Lemma preserves_load_manifest env name batch :
  preserves I (load_manifest env name batch).
Proof.
  unfold load_manifest, Batch_validated_batch_file_path.
  keep; auto using preserves_load_reel, preserves_load_issues,
    preserves_logger.
Qed.

Lemma preserves_create_batch name : preserves I (_create_batch name).
Proof.
  unfold _create_batch, Batch_objects_count.
  keep; auto using preserves_logger.
Qed.

Lemma preserves_sanity_check_batch env batch :
  preserves I (_sanity_check_batch env batch).
Proof.
  unfold _sanity_check_batch, _find_batch_file. keep.
Qed.

Lemma preserves_load_batch_try env name :
  preserves I (load_batch_try env name).
Proof.
  unfold load_batch_try, _get_batch.
  keep; auto using preserves_create_batch, preserves_sanity_check_batch,
    preserves_load_manifest.
  apply preserves_modify. intros w. apply I_batch.
Qed.

Lemma preserves_normalize_batch_name raw :
  preserves I (_normalize_batch_name raw).
Proof. unfold _normalize_batch_name. keep. apply preserves_logger. Qed.

Lemma preserves_load_batch env raw strict :
  preserves I (load_batch env raw strict).
Proof.
  unfold load_batch, load_batch_fresh, load_batch_except.
  keep; auto using preserves_normalize_batch_name, preserves_logger,
    preserves_logger_exception, preserves_load_batch_try.
Qed.

(** The deletions of [purge_batch]. *)
Hypothesis I_Page_delete : forall p, preserves I (Page_delete p).
Hypothesis I_Issue_delete : forall i, preserves I (Issue_delete i).
Hypothesis I_Batch_delete : forall b, preserves I (Batch_delete b).
Hypothesis I_solr_delete : forall q, preserves I (solr (SolrDeleteQuery q)).

Lemma preserves_purge_batch name : preserves I (purge_batch name).
Proof.
  unfold purge_batch, _get_batch, _purge_batch, purge_issue,
    Batch_issues_all, Issue_pages_all.
  keep; auto using preserves_logger, preserves_logger_exception.
Qed.

End Invariant.

(** Invariants that do not look at the store are kept by every write to
    it. *)
Section StoreBlind.
Variable I : World -> Prop.
Hypothesis I_db : forall st w, I w -> I (set_db st w).

Ltac blind_save :=
  let w := fresh "w" in
  let Hw := fresh "Hw" in
  intros w Hw; cbv beta delta [Reel_save Issue_save IssueNote_save Page_save
                               PageNote_save OCR_save] zeta;
  match goal with
  | |- context [tbl_save ?i ?s ?r ?t ?n] =>
      destruct (tbl_save i s r t n) as [[? ?] ?]
  end;
  now apply I_db.

Lemma blind_Reel_save r : preserves I (Reel_save r).
Proof. blind_save. Qed.

Lemma blind_Issue_save i : preserves I (Issue_save i).
Proof. blind_save. Qed.

Lemma blind_IssueNote_save x : preserves I (IssueNote_save x).
Proof. blind_save. Qed.

Lemma blind_Page_save p : preserves I (Page_save p).
Proof. blind_save. Qed.

Lemma blind_PageNote_save x : preserves I (PageNote_save x).
Proof. blind_save. Qed.

Lemma blind_OCR_save o : preserves I (OCR_save o).
Proof. blind_save. Qed.

Lemma blind_Batch_save b : preserves I (Batch_save b).
Proof. apply preserves_modify. intros w. apply I_db. Qed.

Lemma blind_LoadBatchEvent_save e : preserves I (LoadBatchEvent_save e).
Proof. apply preserves_modify. intros w. apply I_db. Qed.

End StoreBlind.

Lemma offline_solr c0 c : preserves (offline c0) (solr c).
Proof.
  intros w [P C]. unfold solr. rewrite P. split; assumption.
Qed.

Lemma offline_load_batch c0 env raw strict :
  preserves (offline c0) (load_batch env raw strict).
Proof.
  assert (D : forall st w, offline c0 w -> offline c0 (set_db st w))
    by (intros st w H; exact H).
  apply preserves_load_batch;
    auto using blind_Reel_save, blind_Issue_save, blind_IssueNote_save,
      blind_Page_save, blind_PageNote_save, blind_OCR_save, blind_Batch_save,
      blind_LoadBatchEvent_save, offline_solr.
Qed.

(** X1: a loader built without OCR processing has no index connection, and
    its loads ask nothing of the index (no document is added, nothing is
    committed) nor of the store's delete, whatever the batch holds and
    however the load ends. *)
Theorem load_batch_without_ocr_makes_no_call (env : Env) (raw : string)
  (strict : bool) (w : World) :
  PROCESS_OCR w = false ->
  calls (fst (load_batch env raw strict w)) = calls w
  /\ PROCESS_OCR (fst (load_batch env raw strict w)) = false.
Proof.
  intros P.
  pose proof (offline_load_batch (calls w) env raw strict w) as H.
  destruct (load_batch env raw strict w) as [w' [b | e]]; simpl;
    destruct H as [P' C']; try (split; [exact P | reflexivity]); auto.
Qed.

Lemma load_batch_without_ocr_makes_no_call_witness :
  calls (fst (load_batch Ex.env Ex.name true (BatchLoader false Ex.store)))
  = calls (BatchLoader false Ex.store)
  /\ PROCESS_OCR
       (fst (load_batch Ex.env Ex.name true (BatchLoader false Ex.store)))
     = false.
Proof.
  apply (load_batch_without_ocr_makes_no_call Ex.env Ex.name true
           (BatchLoader false Ex.store)).
  reflexivity.
Defined.

Lemma only_index_writes_db c0 st w :
  only_index_writes c0 w -> only_index_writes c0 (set_db st w).
Proof. intros H. exact H. Qed.

Lemma only_index_writes_solr c0 c :
  is_index_write c = true -> preserves (only_index_writes c0) (solr c).
Proof.
  intros Hc w (cs & C & F). unfold solr.
  destruct (PROCESS_OCR w); [ | now exists cs ].
  exists (cs ++ [c]). simpl. rewrite C, <- app_assoc. split; [reflexivity | ].
  rewrite forallb_app, F. simpl. now rewrite Hc.
Qed.

Lemma only_index_writes_load_batch c0 env raw strict :
  preserves (only_index_writes c0) (load_batch env raw strict).
Proof.
  apply preserves_load_batch;
    auto using blind_Reel_save, blind_Issue_save, blind_IssueNote_save,
      blind_Page_save, blind_PageNote_save, blind_OCR_save, blind_Batch_save,
      blind_LoadBatchEvent_save, only_index_writes_db,
      only_index_writes_solr.
Qed.

(** X2: a load never deletes.  Whatever it is given and however it ends,
    the requests that [load_batch] adds to those already made are additions
    to the index and commits of it: no page, issue or batch is deleted from
    the store and nothing is retracted from the index, not even what a
    failed load has written. *)
Theorem load_batch_never_deletes (env : Env) (raw : string) (strict : bool)
  (w : World) :
  exists cs,
    calls (fst (load_batch env raw strict w)) = calls w ++ cs
    /\ forallb is_index_write cs = true.
Proof.
  pose proof (only_index_writes_load_batch (calls w) env raw strict w) as H.
  assert (H0 : only_index_writes (calls w) w).
  { exists []. now rewrite app_nil_r. }
  specialize (H H0).
  destruct (load_batch env raw strict w) as [w' [b | e]]; exact H.
Qed.

Section ReferenceData.
Variables (ts : list Title) (aws : list Awardee).

Ltac kept_by_save :=
  let w := fresh "w" in
  let Hw := fresh "Hw" in
  intros w Hw; cbv beta delta [Reel_save Issue_save IssueNote_save Page_save
                               PageNote_save OCR_save] zeta;
  match goal with
  | |- context [tbl_save ?i ?s ?r ?t ?n] =>
      destruct (tbl_save i s r t n) as [[? ?] ?]
  end;
  exact Hw.

Lemma reference_data_Reel_save r : preserves (reference_data ts aws) (Reel_save r).
Proof. kept_by_save. Qed.

Lemma reference_data_Issue_save i :
  preserves (reference_data ts aws) (Issue_save i).
Proof. kept_by_save. Qed.

Lemma reference_data_IssueNote_save x :
  preserves (reference_data ts aws) (IssueNote_save x).
Proof. kept_by_save. Qed.

Lemma reference_data_Page_save p :
  preserves (reference_data ts aws) (Page_save p).
Proof. kept_by_save. Qed.

Lemma reference_data_PageNote_save x :
  preserves (reference_data ts aws) (PageNote_save x).
Proof. kept_by_save. Qed.

Lemma reference_data_OCR_save o :
  preserves (reference_data ts aws) (OCR_save o).
Proof. kept_by_save. Qed.

Lemma reference_data_solr c : preserves (reference_data ts aws) (solr c).
Proof. intros w Hw. unfold solr. destruct (PROCESS_OCR w); exact Hw. Qed.

Lemma reference_data_load_batch env raw strict :
  preserves (reference_data ts aws) (load_batch env raw strict).
Proof.
  apply preserves_load_batch;
    auto using reference_data_Reel_save, reference_data_Issue_save,
      reference_data_IssueNote_save, reference_data_Page_save,
      reference_data_PageNote_save, reference_data_OCR_save,
      reference_data_solr;
    intros; try (apply preserves_modify; intros ?); auto.
Qed.

End ReferenceData.

(** X3: a load reads titles and awardees and never writes them.  Whether
    it succeeds or fails, [load_batch] leaves the store's titles and awardees
    exactly as they were: an issue whose title is unknown and a batch whose
    awardee is unknown are errors, never the occasion to create one. *)
Theorem load_batch_never_writes_titles_or_awardees (env : Env) (raw : string)
  (strict : bool) (w : World) :
  titles (db (fst (load_batch env raw strict w))) = titles (db w)
  /\ awardees (db (fst (load_batch env raw strict w))) = awardees (db w).
Proof.
  assert (H0 : reference_data (titles (db w)) (awardees (db w)) w)
    by (split; reflexivity).
  pose proof (reference_data_load_batch _ _ env raw strict w H0) as H.
  destruct (load_batch env raw strict w) as [w' [b | e]]; exact H.
Qed.

(** ** Names, once accepted *)

Lemma rstrip_without_slash s :
  Py.has_slash s = false -> Py.rstrip Py.is_slash s = s.
Proof.
  induction s as [ | c r IH ]; simpl; [reflexivity | ].
  intros H. apply orb_false_iff in H as [C R]. rewrite (IH R).
  destruct r; [now rewrite C | reflexivity].
Qed.

(** X4: what the normalizer returns is a fixed point of it.  An accepted
    name is returned without any effect on the world, holds no slash, and is
    accepted unchanged when normalized again, so that the name under which
    [load_batch] stores a batch can be handed back to the loader as it is. *)
Theorem normalize_batch_name_is_idempotent (raw name : string) (w w' : World) :
  _normalize_batch_name raw w = (w', Ok name) ->
  w' = w
  /\ Py.has_slash name = false
  /\ forall w2, _normalize_batch_name name w2 = (w2, Ok name).
Proof.
  intros H.
  destruct (normalize_batch_name_outcome raw w) as [[B E] | [_ E]];
    rewrite E in H; [ | discriminate ].
  injection H as <- <-.
  pose proof (basename_no_slash (Py.rstrip Py.is_slash raw)) as S.
  split; [reflexivity | ]. split; [exact S | ].
  intros w2. unfold _normalize_batch_name.
  rewrite (rstrip_without_slash _ S), (basename_without_slash _ S).
  apply re_match_batch_name in B. now rewrite B.
Qed.

Lemma normalize_batch_name_is_idempotent_witness :
  Ex.world = Ex.world
  /\ Py.has_slash Ex.name = false
  /\ forall w2, _normalize_batch_name Ex.name w2 = (w2, Ok Ex.name).
Proof.
  apply (normalize_batch_name_is_idempotent "/st/batch_dlc_test_ver01/"
           Ex.name Ex.world Ex.world).
  reflexivity.
Defined.

(** X5: the flag [strict] matters only for a batch that the store already
    holds.  When the store holds no batch of the normalized name, the load
    that is not strict does exactly what the strict one does: same records
    written, same events, same result or exception. *)
Theorem strict_matters_only_for_loaded_batches (env : Env) (raw : string)
  (w : World) :
  filter (named (Py.basename (Py.rstrip Py.is_slash raw))) (batches (db w))
  = [] ->
  load_batch env raw false w = load_batch env raw true w.
Proof.
  intros F.
  destruct (normalize_batch_name_outcome raw w) as [[B _] | [N _]].
  - assert (Hn : normalizes_to raw (Py.basename (Py.rstrip Py.is_slash raw)))
      by (split; [reflexivity | exact B]).
    now rewrite !(load_batch_not_loaded env raw _ _ w Hn F).
  - now rewrite !load_batch_rejected.
Qed.

Lemma strict_matters_only_for_loaded_batches_witness :
  load_batch Ex.env "/st/batch_dlc_test_ver01/" false Ex.world
  = load_batch Ex.env "/st/batch_dlc_test_ver01/" true Ex.world.
Proof.
  apply (strict_matters_only_for_loaded_batches Ex.env
           "/st/batch_dlc_test_ver01/" Ex.world).
  reflexivity.
Defined.

Lemma objects_get_raise_class {A : Type} m (p : A -> bool) t e :
  objects_get m p t = Raise e ->
  exn_cls e = DoesNotExist m \/ exn_cls e = MultipleObjectsReturned m.
Proof.
  unfold objects_get. destruct (filter p t) as [ | x [ | y l ] ]; intros H;
    try discriminate; injection H as <-; auto.
Qed.

(** X6: every failure of a load comes out as a [BatchLoaderException].  The
    handler of [load_batch] catches [BaseException], so that whatever is
    raised once the load has started (a parse error, a missing file, a store
    error, even a [KeyboardInterrupt]) is replaced by a
    [BatchLoaderException]; the rejection of the name is one already.  The
    one exception that gets out as it is comes from the lookup of a load that
    is not strict, which sits before the [try]: the store's
    [MultipleObjectsReturned]. *)
Theorem load_batch_raises_BatchLoaderException (env : Env) (raw : string)
  (strict : bool) (w w' : World) (e : exn) :
  load_batch env raw strict w = (w', Raise e) ->
  is_BatchLoaderException e = true
  \/ (strict = false /\ exn_cls e = MultipleObjectsReturned MBatch).
Proof.
  intros H.
  destruct (normalize_batch_name_outcome raw w) as [[B _] | [N _]].
  - assert (Hn : normalizes_to raw (Py.basename (Py.rstrip Py.is_slash raw)))
      by (split; [reflexivity | exact B]).
    rewrite (load_batch_normalized env raw _ strict w Hn) in H.
    set (name := Py.basename (Py.rstrip Py.is_slash raw)) in *.
    assert (Fr : forall w0, load_batch_fresh env name w0 = (w', Raise e) ->
                            is_BatchLoaderException e = true).
    { intros w0. rewrite load_batch_fresh_outcome.
      destruct (load_batch_try env name (load_started name w0)) as [w2 [b | e2]];
        intros E; [discriminate | ]. now injection E as _ <-. }
    destruct strict; simpl negb in H; cbv iota in H.
    + left. apply (Fr w). exact H.
    + unfold bind at 1, try_except in H.
      unfold bind at 1, Batch_objects_get in H.
      destruct (objects_get MBatch (named name) (batches (db w))) as [b | e0] eqn:G.
      * discriminate H.
      * destruct (objects_get_raise_class _ _ _ _ G) as [D | D].
        -- unfold is_DoesNotExist in H. rewrite D in H. simpl in H.
           left. apply (Fr w). exact H.
        -- unfold is_DoesNotExist in H. rewrite D in H.
           injection H as _ <-. right. auto.
  - rewrite load_batch_rejected in H by exact N.
    injection H as _ <-. now left.
Qed.

Lemma load_batch_raises_BatchLoaderException_witness :
  is_BatchLoaderException (BLE (unable_to_load (no_manifest Ex.root))) = true
  \/ (true = false
      /\ exn_cls (BLE (unable_to_load (no_manifest Ex.root)))
         = MultipleObjectsReturned MBatch).
Proof.
  apply (load_batch_raises_BatchLoaderException Ex.env_no_manifest Ex.name
           true Ex.world
           (fst (load_batch Ex.env_no_manifest Ex.name true Ex.world))).
  vm_compute. reflexivity.
Defined.

(** ** The batch record *)

Lemma split_at_length sep s : forall n,
  List.length (Py.split_at sep n s)
  = S (Nat.min n (count_occ ascii_dec (list_ascii_of_string s) sep)).
Proof.
  induction s as [ | c r IH ]; intros n; simpl.
  - now rewrite Nat.min_0_r.
  - destruct n as [ | m ]; [reflexivity | ].
    destruct (Ascii.eqb_spec c sep) as [-> | N].
    + destruct (ascii_dec sep sep) as [_ | C]; [ | contradiction ].
      simpl. now rewrite IH.
    + destruct (ascii_dec c sep) as [C | _]; [contradiction | ].
      specialize (IH (S m)).
      destruct (Py.split_at sep (S m) r) as [ | x xs ]; [discriminate IH | ].
      exact IH.
Qed.

Lemma names_batch_underscores p :
  names_batch p -> 3 <= count_occ ascii_dec p "_"%char.
Proof.
  intros (t1 & t2 & d1 & d2 & _ & _ & _ & _ & ->).
  rewrite !count_occ_app. simpl. lia.
Qed.

(** An accepted name splits in four at its first three underscores, so
    that the unpacking of [_create_batch] cannot fail. *)
Lemma split_accepted raw name :
  normalizes_to raw name ->
  exists p0 p2 p3, Py.split_at "_" 3 name = [p0; org_code_of name; p2; p3].
Proof.
  intros [_ (p & q & E & N)].
  pose proof (split_at_length "_" name 3) as L.
  rewrite E, count_occ_app in L.
  apply names_batch_underscores in N.
  replace (Nat.min 3 _) with 3 in L by lia.
  unfold org_code_of.
  destruct (Py.split_at "_" 3 name) as [ | p0 [ | p1 [ | p2 [ | p3 [ | ] ] ] ] ];
    try discriminate L.
  now exists p0, p2, p3.
Qed.

Lemma filter_nil_existsb {A : Type} (f : A -> bool) l :
  filter f l = [] -> existsb f l = false.
Proof.
  induction l as [ | x l IH ]; simpl; [reflexivity | ].
  destruct (f x); [discriminate | exact IH].
Qed.

(** What [_create_batch] comes to for an accepted name. *)
Lemma create_batch_outcome raw name w :
  normalizes_to raw name ->
  _create_batch name w
  = match filter (named name) (batches (db w)) with
    | _ :: _ => (w, Raise (already_loaded name))
    | [] =>
        match awardee_of name (db w) with
        | Ok a =>
            (set_db (set_batches (batches (db w) ++ [new_batch name a]) (db w))
               w,
             Ok (new_batch name a))
        | Raise e =>
            if is_DoesNotExist MAwardee e
            then (add_log ERROR (no_awardee name) w,
                  Raise (BLE (no_awardee name)))
            else (w, Raise e)
        end
    end.
Proof.
  intros Hn. destruct (split_accepted raw name Hn) as (p0 & p2 & p3 & S).
  unfold _create_batch. unfold bind at 1, Batch_objects_count, gets.
  destruct (filter (named name) (batches (db w))) as [ | x l ] eqn:F;
    [ | reflexivity ].
  simpl. rewrite S.
  unfold bind at 1, try_except, Awardee_objects_get, awardee_of.
  destruct (objects_get MAwardee _ (awardees (db w))) as [a | e].
  - unfold bind, Batch_save, modify, ret, upsert_batch. simpl.
    rewrite (normalized_basename raw name Hn).
    rewrite (filter_nil_existsb _ _ F). reflexivity.
  - destruct (is_DoesNotExist MAwardee e); reflexivity.
Qed.

(** X7: [_create_batch] on an accepted name.  The name splits in four at
    its underscores, so the unpacking never raises a [ValueError].  A record
    is created only when the store holds no batch of that name and exactly
    one awardee of the code between the first two underscores: the new
    record, named as given and referring to that awardee, is then the one
    record added to the batches.  In every other case (a batch of that name
    is there, the awardee is unknown) an exception is raised and the store is
    as it was. *)
Theorem create_batch_of_accepted_name (raw name : string) (w : World) :
  normalizes_to raw name ->
  match _create_batch name w with
  | (w', Ok b) =>
      filter (named name) (batches (db w)) = []
      /\ (exists a, awardee_of name (db w) = Ok a /\ b = new_batch name a)
      /\ batch_awardee b = org_code_of name
      /\ db w' = set_batches (batches (db w) ++ [b]) (db w)
  | (w', Raise e) => db w' = db w /\ is_ValueError e = false
  end.
Proof.
  intros Hn. rewrite (create_batch_outcome raw name w Hn).
  destruct (filter (named name) (batches (db w))) as [ | x l ];
    [ | split; reflexivity ].
  unfold awardee_of.
  destruct (objects_get MAwardee _ (awardees (db w))) as [a | e] eqn:G.
  - split; [reflexivity | ]. split; [now exists a | ]. split; [ | reflexivity ].
    unfold objects_get in G.
    destruct (filter _ (awardees (db w))) as [ | y [ | z l ] ] eqn:Fa;
      try discriminate G.
    injection G as ->.
    assert (In a (filter (fun a => awardee_org_code a =? org_code_of name)
                    (awardees (db w)))) as Ha by (rewrite Fa; now left).
    apply filter_In in Ha as [_ Ha]. now apply String.eqb_eq in Ha.
  - destruct (objects_get_raise_class _ _ _ _ G) as [D | D];
      unfold is_DoesNotExist; rewrite D; simpl;
      (split; [reflexivity | ]); unfold is_ValueError; simpl;
      rewrite ?D; reflexivity.
Qed.

Lemma create_batch_of_accepted_name_witness :
  match _create_batch Ex.name Ex.world with
  | (w', Ok b) =>
      filter (named Ex.name) (batches (db Ex.world)) = []
      /\ (exists a, awardee_of Ex.name (db Ex.world) = Ok a
                    /\ b = new_batch Ex.name a)
      /\ batch_awardee b = org_code_of Ex.name
      /\ db w' = set_batches (batches (db Ex.world) ++ [b]) (db Ex.world)
  | (w', Raise e) => db w' = db Ex.world /\ is_ValueError e = false
  end.
Proof.
  apply (create_batch_of_accepted_name "/st/batch_dlc_test_ver01/" Ex.name
           Ex.world).
  exact normalizes_to_example.
Defined.

Lemma find_none_forallb {A : Type} (f : A -> bool) l :
  forallb (fun a => negb (f a)) l = true -> find f l = None.
Proof.
  induction l as [ | x l IH ]; simpl; [reflexivity | ].
  destruct (f x); simpl; [discriminate | exact IH].
Qed.

Lemma sanity_check_unvalidated env batch w :
  unvalidated env (batch_name batch) = true ->
  exists e, _sanity_check_batch env batch w = (w, Raise e).
Proof.
  unfold unvalidated, _sanity_check_batch. intros U.
  destruct (os_path_exists env (Batch_path env (batch_name batch)));
    cbn [negb orb] in *.
  - unfold bind, _find_batch_file. rewrite find_batch_file_loop_spec.
    rewrite (find_none_forallb _ _ U). eexists. reflexivity.
  - eexists. reflexivity.
Qed.

(** X8: the batch record is saved before the batch directory is checked.
    A strict load of an accepted name whose directory is missing, or holds
    no manifest, therefore fails and leaves the new batch record in the
    store; and as long as that record is there a further strict load fails
    with "batch ... already loaded", whatever has become of the directory. *)
Theorem failed_sanity_check_leaves_the_batch_record (env : Env)
  (raw name : string) (w : World) (a : Awardee) :
  normalizes_to raw name ->
  filter (named name) (batches (db w)) = [] ->
  awardee_of name (db w) = Ok a ->
  unvalidated env name = true ->
  exists w1 e,
    load_batch env raw true w = (w1, Raise (BLE (unable_to_load e)))
    /\ batches (db w1) = batches (db w) ++ [new_batch name a]
    /\ forall env',
         snd (load_batch env' raw true w1)
         = Raise (BLE (unable_to_load (already_loaded name))).
Proof.
  intros Hn F A U.
  rewrite (load_batch_strict env raw name w Hn), load_batch_fresh_outcome.
  unfold load_batch_try, _get_batch. unfold bind at 1.
  rewrite (create_batch_outcome raw name _ Hn).
  change (batches (db (load_started name w))) with (batches (db w)).
  rewrite F.
  change (awardee_of name (db (load_started name w)))
    with (awardee_of name (db w)).
  rewrite A.
  set (wb := set_db _ (load_started name w)).
  destruct (sanity_check_unvalidated env (new_batch name a) wb U) as [e S].
  unfold bind at 1. rewrite S.
  exists (load_failed name e wb), e.
  split; [reflexivity | ]. split; [reflexivity | ].
  intros env'.
  rewrite (load_batch_strict env' raw name _ Hn), load_batch_fresh_outcome.
  unfold load_batch_try, _get_batch. unfold bind at 1.
  rewrite (create_batch_outcome raw name _ Hn).
  change (batches (db (load_started name (load_failed name e wb))))
    with (batches (db w) ++ [new_batch name a]).
  rewrite filter_app, F. simpl. unfold named at 1. simpl.
  rewrite String.eqb_refl. reflexivity.
Qed.

Lemma failed_sanity_check_leaves_the_batch_record_witness :
  exists w1 e,
    load_batch Ex.env_no_manifest "/st/batch_dlc_test_ver01/" true Ex.world
    = (w1, Raise (BLE (unable_to_load e)))
    /\ batches (db w1)
       = batches (db Ex.world)
         ++ [new_batch Ex.name {| awardee_org_code := "dlc" |}]
    /\ forall env',
         snd (load_batch env' "/st/batch_dlc_test_ver01/" true w1)
         = Raise (BLE (unable_to_load (already_loaded Ex.name))).
Proof.
  apply (failed_sanity_check_leaves_the_batch_record Ex.env_no_manifest
           "/st/batch_dlc_test_ver01/" Ex.name Ex.world
           {| awardee_org_code := "dlc" |}).
  - exact normalizes_to_example.
  - reflexivity.
  - reflexivity.
  - reflexivity.
Defined.

Lemma hoare_any {A : Type} (P : World -> Prop) (m : M A) :
  hoare P m (fun _ _ => True) (fun _ => True).
Proof. intros w _. destruct (m w) as [w' [a | e]]; exact I. Qed.

Lemma existsb_upsert b t :
  existsb (named (batch_name b)) (upsert_batch b t) = true.
Proof.
  unfold upsert_batch.
  destruct (existsb (named (batch_name b)) t) eqn:E.
  - apply existsb_exists in E as (x & Hx & N).
    apply existsb_exists. exists b. split.
    + apply in_map_iff. exists x. now rewrite N.
    + apply String.eqb_refl.
  - rewrite existsb_app. simpl. unfold named at 2.
    rewrite String.eqb_refl. apply orb_true_r.
Qed.

(** A load of the manifest that returns, returns the batch it was given,
    saved. *)
Lemma load_manifest_returns env bn batch :
  hoare (fun _ => True) (load_manifest env bn batch)
    (fun b w => b = batch
                /\ existsb (named (batch_name batch)) (batches (db w)) = true)
    (fun _ => True).
Proof.
  unfold load_manifest.
  eapply hoare_bind; [apply hoare_any | intros path; cbv beta ].
  eapply hoare_bind; [apply hoare_any | intros doc; cbv beta ].
  eapply hoare_bind; [apply hoare_any | intros u1; cbv beta ].
  eapply hoare_bind; [apply hoare_any | intros times; cbv beta ].
  eapply hoare_bind; [apply hoare_any | intros process; cbv beta ].
  eapply hoare_bind; [apply hoare_any | intros u2; cbv beta ].
  pose (K := fun w : World =>
               existsb (named (batch_name batch)) (batches (db w)) = true).
  eapply hoare_bind with (R := fun _ => K).
  { apply hoare_modify. intros w _. unfold K. simpl. apply existsb_upsert. }
  intros u3.
  eapply hoare_bind with (R := fun _ => K);
    [apply hoare_gets; intros w H; exact H | intros n ].
  eapply hoare_bind with (R := fun _ => K);
    [apply hoare_modify; intros w H; exact H | intros u4 ].
  eapply hoare_bind with (R := fun _ => K);
    [apply hoare_modify; intros w H; exact H | intros u5 ].
  apply hoare_ret. auto.
Qed.

(** X9: what a load returns.  The batch that [load_batch] returns bears the
    normalized name, and the store then holds a batch of that name.  When
    the batch was not in the store before, the batch returned also names its
    manifest: one of the known aliases, found to exist under the batch root,
    which exists too. *)
Theorem load_batch_returns_the_named_batch (env : Env) (raw : string)
  (strict : bool) (w w' : World) (b : Batch) :
  load_batch env raw strict w = (w', Ok b) ->
  normalizes_to raw (batch_name b)
  /\ existsb (named (batch_name b)) (batches (db w')) = true
  /\ (filter (named (batch_name b)) (batches (db w)) = [] ->
      exists alias,
        batch_validated_batch_file b = Some alias
        /\ In alias batch_file_aliases
        /\ os_path_exists env (Batch_path env (batch_name b)) = true
        /\ os_path_exists env (Py.join (Batch_path env (batch_name b)) alias)
           = true).
Proof.
  intros H.
  destruct (normalize_batch_name_outcome raw w) as [[B _] | [N _]];
    [ | rewrite load_batch_rejected in H by exact N; discriminate H ].
  set (name := Py.basename (Py.rstrip Py.is_slash raw)) in *.
  assert (Hn : normalizes_to raw name) by (split; [reflexivity | exact B]).
  rewrite (load_batch_normalized env raw name strict w Hn) in H.
  (* a fresh load *)
  assert (Fr : load_batch_fresh env name w = (w', Ok b) ->
               batch_name b = name
               /\ existsb (named name) (batches (db w')) = true
               /\ exists alias,
                    batch_validated_batch_file b = Some alias
                    /\ In alias batch_file_aliases
                    /\ os_path_exists env (Batch_path env name) = true
                    /\ os_path_exists env (Py.join (Batch_path env name) alias)
                       = true).
  { rewrite load_batch_fresh_outcome. unfold load_batch_try, _get_batch.
    unfold bind at 1. rewrite (create_batch_outcome raw name _ Hn).
    destruct (filter (named name) (batches (db (load_started name w))));
      [ | discriminate ].
    destruct (awardee_of name (db (load_started name w))) as [a | e];
      [ | destruct (is_DoesNotExist MAwardee e); discriminate ].
    unfold bind at 1, _sanity_check_batch.
    change (batch_name (new_batch name a)) with name.
    destruct (os_path_exists env (Batch_path env name)) eqn:D;
      [ | discriminate ].
    cbn [negb]. unfold bind at 1, _find_batch_file.
    rewrite find_batch_file_loop_spec.
    change (batch_name (new_batch name a)) with name.
    destruct (find _ batch_file_aliases) as [alias | ] eqn:Fa;
      [ | discriminate ].
    apply find_some in Fa as [Ia Xa].
    unfold ret at 1. unfold bind at 1, modify.
    set (batch := set_validated_batch_file alias (new_batch name a)).
    unfold ret at 1. cbv beta iota.
    match goal with
    | |- context [load_manifest env name batch ?x] => set (w2 := x)
    end.
    pose proof (load_manifest_returns env name batch w2 I) as L.
    destruct (load_manifest env name batch w2) as [w3 [b3 | e]];
      [ | discriminate ].
    intros E. injection E as <- <-. destruct L as [-> L].
    split; [reflexivity | ]. split; [exact L | ].
    exists alias. auto. }
  destruct strict; simpl negb in H; cbv iota in H.
  - apply Fr in H as (Bn & X & V). rewrite Bn.
    split; [exact Hn | ]. split; [exact X | intros _; exact V].
  - unfold bind at 1, try_except in H.
    unfold bind at 1, Batch_objects_get in H.
    destruct (objects_get MBatch (named name) (batches (db w))) as [b0 | e0] eqn:G.
    + simpl in H. injection H as <- <-.
      pose proof (objects_get_count name (db w) b0 G) as C.
      unfold objects_get in G.
      destruct (filter (named name) (batches (db w))) as [ | x [ | y l ] ] eqn:F;
        try discriminate G.
      injection G as ->.
      assert (Ib : In b0 (filter (named name) (batches (db w))))
        by (rewrite F; now left).
      apply filter_In in Ib as [Ib Nb].
      assert (Bn : batch_name b0 = name) by now apply String.eqb_eq.
      rewrite Bn. split; [exact Hn | ]. split.
      * simpl. apply existsb_exists. now exists b0.
      * rewrite F. discriminate.
    + destruct (is_DoesNotExist MBatch e0); [ | discriminate H ].
      apply Fr in H as (Bn & X & V). rewrite Bn.
      split; [exact Hn | ]. split; [exact X | intros _; exact V].
Qed.

Lemma load_batch_returns_the_named_batch_witness :
  normalizes_to Ex.name (batch_name Ex.batch)
  /\ existsb (named (batch_name Ex.batch)) (batches (db Ex.loaded)) = true
  /\ (filter (named (batch_name Ex.batch)) (batches (db Ex.world)) = [] ->
      exists alias,
        batch_validated_batch_file Ex.batch = Some alias
        /\ In alias batch_file_aliases
        /\ os_path_exists Ex.env (Batch_path Ex.env (batch_name Ex.batch))
           = true
        /\ os_path_exists Ex.env
             (Py.join (Batch_path Ex.env (batch_name Ex.batch)) alias)
           = true).
Proof.
  apply (load_batch_returns_the_named_batch Ex.env Ex.name true Ex.world
           Ex.loaded Ex.batch).
  vm_compute. reflexivity.
Defined.

(** ** Purging after a load, whatever its outcome *)

Section Attempt.
Variables (n0 : nat) (raw name : string) (st0 : Store).
Hypothesis accepted : normalizes_to raw name.

Lemma get_batch_attempt :
  hoare (fun w => not_yet_loaded n0 name st0 w /\ same_records (db w) st0)
    (_get_batch name true)
    (fun b w => batch_name b = name /\ owned_by n0 name st0 (db w)
                /\ the_batch name (db w))
    (attempted n0 name st0).
Proof.
  intros w [[X F] S].
  pose proof (get_batch_creates n0 name st0
                (normalized_basename raw name accepted) w (conj X F)) as G.
  unfold _get_batch in *.
  rewrite (create_batch_outcome raw name w accepted) in *. rewrite F in *.
  destruct (awardee_of name (db w)) as [a | e]; [exact G | ].
  destruct (is_DoesNotExist MAwardee e); simpl; right; auto.
Qed.

Lemma load_manifest_attempt env bn batch :
  batch_name batch = name ->
  hoare (loading_into n0 name st0 [] []) (load_manifest env bn batch)
    (fun _ => loading_into n0 name st0 [] [])
    (loading_into n0 name st0 [] []).
Proof.
  intros B. unfold load_manifest.
  eapply hoare_bind.
  { apply hoare_loading_stable. unfold Batch_validated_batch_file_path.
    frames_simple. }
  intros path. stable_step.
  eapply hoare_bind.
  { apply hoare_for_each. intros e. now apply load_reel_loading. }
  intros u.
  eapply hoare_bind; [apply load_issues_loading | intros times ].
  stable_step.
  eapply hoare_bind with (R := fun _ => loading_into n0 name st0 [] []).
  { apply hoare_loading_stable. frames_simple. }
  intros u'.
  eapply hoare_bind; [now apply Batch_save_loading | intros u'' ].
  stable_step. stable_step.
  eapply hoare_bind; [apply LoadBatchEvent_save_loading | intros u3 ].
  apply hoare_ret. auto.
Qed.

Lemma loading_attempted w : loading_into n0 name st0 [] [] w -> attempted n0 name st0 w.
Proof. intros (X & T & _). left. auto. Qed.

Lemma load_batch_try_attempt env :
  hoare (fun w => not_yet_loaded n0 name st0 w /\ same_records (db w) st0)
    (load_batch_try env name)
    (fun _ => attempted n0 name st0)
    (attempted n0 name st0).
Proof.
  unfold load_batch_try.
  eapply hoare_bind; [apply get_batch_attempt | intros b0 ].
  apply hoare_pure. intros B0.
  eapply hoare_bind with
    (R := fun b w => batch_name b = name
                     /\ owned_by n0 name st0 (db w) /\ the_batch name (db w)).
  { intros w H. pose proof (sanity_check_keeps_name env b0 w) as S.
    destruct (_sanity_check_batch env b0 w) as [w' [b | e]].
    - destruct S as [-> S]. split; [congruence | exact H].
    - subst w'. left. exact H. }
  intros batch. apply hoare_pure. intros B.
  eapply hoare_bind with (R := fun _ => loading_into n0 name st0 [] []).
  { apply hoare_modify. intros w [X T]. unfold loading_into. simpl.
    split; [exact X | split; [exact T | split ] ].
    - exists batch. auto.
    - split; apply incl_nil_l. }
  intros u.
  eapply hoare_weaken;
    [ now apply (load_manifest_attempt env name batch) | auto
    | intros b w; apply loading_attempted | apply loading_attempted ].
Qed.

End Attempt.

Lemma attempted_events n0 name st0 w evs :
  attempted n0 name st0 w ->
  attempted n0 name st0 (set_db (set_events evs (db w)) w).
Proof.
  intros [[X T] | [S F]]; [left | right]; simpl; split; auto.
  now apply owned_by_events.
Qed.

Lemma the_batch_existsb name st :
  the_batch name st -> existsb (named name) (batches st) = true.
Proof.
  intros [b F]. apply existsb_exists. exists b.
  assert (H : In b (filter (named name) (batches st))) by (rewrite F; now left).
  now apply filter_In in H.
Qed.

(** [_purge_batch] by a loader without index connection, on a world whose
    store the batch owns: the deletions go through, the request to the
    index does not. *)
Lemma purge_batch_owned_offline n0 name st0 batch w :
  batch_name batch = name ->
  owned_by n0 name st0 (db w) ->
  PROCESS_OCR w = false ->
  exists w',
    _purge_batch batch w = (w', Raise no_index)
    /\ same_records (db w') st0.
Proof.
  intros Hb X P.
  destruct (purge_issues n0 name st0 _ w X (batch_issues_fresh_snapshot _ _ _ _ X))
    as (w1 & blocks & L & X1 & C & M & B & _ & O).
  set (w2 := add_call (DeleteBatch name)
               (set_db (cascade (String.eqb name) none_of none_of (db w1)) w1)).
  exists w2. split.
  - unfold _purge_batch. unfold bind at 1, Batch_issues_all, gets.
    rewrite Hb. rewrite (bind_ok _ _ _ _ _ L).
    rewrite (bind_ok _ _ w1 w2 tt)
      by (unfold Batch_delete, modify; rewrite ?Hb; reflexivity).
    unfold bind, solr. simpl. rewrite O, P. reflexivity.
  - simpl. now apply delete_batch_restores with (n0 := n0).
Qed.

(** X10: a purge undoes a load however the load ended.  Let a batch be
    loaded into a well-formed store that does not hold it, and let the load
    succeed or fail at any point (a missing manifest, an unknown title, an
    unreadable file).  A purge of the normalized name then leaves the records
    that the store held before the load: nothing that the attempt wrote
    remains, and nothing else is touched.  The purge itself succeeds when
    the batch record had been created and the loader has an index
    connection; without the connection it deletes all the same and then
    fails on its request to the index, and without the batch record it fails
    on its lookup, the attempt having written nothing. *)
Theorem purge_after_any_load_attempt (env : Env) (raw name : string)
  (strict : bool) (w0 w1 : World) (r : result Batch) :
  wf_store (db w0) = true ->
  normalizes_to raw name ->
  filter (named name) (batches (db w0)) = [] ->
  load_batch env raw strict w0 = (w1, r) ->
  same_records (db (fst (purge_batch name w1))) (db w0)
  /\ snd (purge_batch name w1)
     = if existsb (named name) (batches (db w1))
       then if PROCESS_OCR w0 then Ok tt
            else Raise (BLE (purge_failed_msg no_index))
       else Raise (BLE (purge_failed_msg no_such_batch)).
Proof.
  intros W Hn F L.
  rewrite (load_batch_not_loaded env raw name strict w0 Hn F) in L.
  assert (P1 : PROCESS_OCR w1 = PROCESS_OCR w0).
  { change w1 with (fst (w1, r)). rewrite <- L.
    apply (frames_load_batch_fresh PROCESS_OCR); auto. }
  rewrite load_batch_fresh_outcome in L.
  pose proof (load_batch_try_attempt (next_id (db w0)) raw name (db w0) Hn env
                (load_started name w0)) as T.
  assert (A : attempted (next_id (db w0)) name (db w0) w1).
  { destruct (load_batch_try env name (load_started name w0)) as [w2 [b2 | e]];
      injection L as <- <-.
    - apply T. split; [split | ]; simpl.
      + apply owned_by_events. now apply owned_by_init.
      + exact F.
      + repeat split.
    - apply attempted_events. apply T. split; [split | ]; simpl.
      + apply owned_by_events. now apply owned_by_init.
      + exact F.
      + repeat split. }
  rewrite purge_batch_outcome.
  destruct A as [[X T1] | [S F1]].
  - rewrite (the_batch_existsb name (db w1) T1).
    destruct (the_batch_get name (db w1) T1) as (batch & G & Bn).
    rewrite G. rewrite <- P1.
    destruct (PROCESS_OCR w1) eqn:P.
    + destruct (purge_batch_owned (next_id (db w0)) name (db w0) batch
                  (add_event name "starting purge" w1) Bn)
        as (w' & blocks & R & S & _); [ | exact P | ].
      { simpl. now apply owned_by_events. }
      rewrite R. simpl. split; [exact S | reflexivity].
    + destruct (purge_batch_owned_offline (next_id (db w0)) name (db w0) batch
                  (add_event name "starting purge" w1) Bn)
        as (w' & R & S); [ | exact P | ].
      { simpl. now apply owned_by_events. }
      rewrite R. simpl. split; [exact S | reflexivity].
  - rewrite (filter_nil_existsb _ _ F1).
    unfold objects_get. rewrite F1. simpl. split; [exact S | reflexivity].
Qed.

Lemma purge_after_any_load_attempt_witness :
  same_records
    (db (fst (purge_batch Ex.name
                (fst (load_batch Ex.env_page_without_mods
                        "/st/batch_dlc_test_ver01/" true Ex.world)))))
    (db Ex.world)
  /\ snd (purge_batch Ex.name
            (fst (load_batch Ex.env_page_without_mods
                    "/st/batch_dlc_test_ver01/" true Ex.world)))
     = if existsb (named Ex.name)
            (batches
               (db (fst (load_batch Ex.env_page_without_mods
                           "/st/batch_dlc_test_ver01/" true Ex.world))))
       then if PROCESS_OCR Ex.world then Ok tt
            else Raise (BLE (purge_failed_msg no_index))
       else Raise (BLE (purge_failed_msg no_such_batch)).
Proof.
  apply (purge_after_any_load_attempt Ex.env_page_without_mods
           "/st/batch_dlc_test_ver01/" Ex.name true Ex.world
           (fst (load_batch Ex.env_page_without_mods
                   "/st/batch_dlc_test_ver01/" true Ex.world))
           (snd (load_batch Ex.env_page_without_mods
                   "/st/batch_dlc_test_ver01/" true Ex.world))).
  - reflexivity.
  - exact normalizes_to_example.
  - reflexivity.
  - vm_compute. reflexivity.
Defined.

Lemma purge_batch_offline batch w :
  PROCESS_OCR w = false -> exists w' e, _purge_batch batch w = (w', Raise e).
Proof.
  intros P. unfold _purge_batch. unfold bind at 1, Batch_issues_all, gets.
  set (snapshot := filter _ (issues (db w))).
  assert (Fr : PROCESS_OCR (fst (for_each snapshot purge_issue w))
               = PROCESS_OCR w).
  { apply (frames_for_each PROCESS_OCR). intros i.
    unfold purge_issue, Issue_pages_all.
    apply frames_bind; [apply frames_gets | intros ps].
    apply frames_bind.
    - apply frames_for_each. intros p.
      apply (frames_Page_delete PROCESS_OCR); auto.
    - intros _. apply (frames_Issue_delete PROCESS_OCR); auto. }
  destruct (for_each snapshot purge_issue w) as [w1 [[] | e]] eqn:L.
  - rewrite (bind_ok _ _ _ _ _ L).
    unfold bind at 1, Batch_delete, modify.
    unfold bind, solr. simpl in *. rewrite Fr, P. eauto.
  - rewrite (bind_raise _ _ _ _ _ L). eauto.
Qed.

(** X11: a loader without index connection cannot purge.  [__init__]
    creates the connection only when OCR processing is on, and
    [_purge_batch] asks the index to retract the batch whether or not the
    connection exists.  So every purge by a loader built with
    [process_ocr=False] ends in a [BatchLoaderException] "purge failed: ...":
    on an unknown batch because of the lookup, and on a known one after its
    deletions. *)
Theorem purge_without_index_always_fails (name : string) (w : World) :
  PROCESS_OCR w = false ->
  exists e, snd (purge_batch name w) = Raise (BLE (purge_failed_msg e)).
Proof.
  intros P. rewrite purge_batch_outcome.
  destruct (objects_get MBatch (named name) (batches (db w))) as [batch | e].
  - destruct (purge_batch_offline batch (add_event name "starting purge" w) P)
      as (w' & e & R).
    rewrite R. now exists e.
  - now exists e.
Qed.

Lemma purge_without_index_always_fails_witness :
  exists e,
    snd (purge_batch Ex.name
           (fst (load_batch Ex.env Ex.name true (BatchLoader false Ex.store))))
    = Raise (BLE (purge_failed_msg e)).
Proof.
  apply (purge_without_index_always_fails Ex.name
           (fst (load_batch Ex.env Ex.name true (BatchLoader false Ex.store)))).
  vm_compute. reflexivity.
Defined.

(** ** Reels and pages *)

(** The step of the reel loop, by what the lookup finds. *)
Lemma load_reel_outcome batch number w :
  load_reel batch (Some number) w
  = match filter (reel_of batch (Py.strip number)) (reels (db w)) with
    | [] =>
        let r' := {| reel_id := Some (next_id (db w));
                     reel_number := Py.strip number;
                     reel_batch := batch_name batch;
                     reel_implicit := false |} in
        (set_db (set_next_id (S (next_id (db w)))
                   (set_reels (reels (db w) ++ [r']) (db w))) w,
         Ok tt)
    | [x] => (w, Ok tt)
    | _ :: _ :: _ =>
        (w, Raise (Exn (MultipleObjectsReturned MReel)
                     ("get() returned more than one " ++ model_name MReel)))
    end.
Proof.
  unfold load_reel, attrib. unfold bind at 1, ret at 1.
  unfold try_except, bind at 1, Reel_objects_get, objects_get.
  change (fun r => (reel_number r =? Py.strip number)
                   && (reel_batch r =? batch_name batch))
    with (reel_of batch (Py.strip number)).
  destruct (filter (reel_of batch (Py.strip number)) (reels (db w)))
    as [ | x [ | y l ] ]; reflexivity.
Qed.

(** X12: the reel loop of [load_batch] gets or creates.  When the step for
    a reel element of the manifest succeeds, the store holds exactly one reel
    of that (stripped) number for the batch; and running the step again on
    the same element finds that reel and changes nothing, so that a manifest
    that lists a reel twice yields one reel record. *)
Theorem load_reel_twice_creates_one_reel (batch : Batch) (e : option string)
  (w w1 : World) :
  load_reel batch e w = (w1, Ok tt) ->
  exists number r,
    e = Some number
    /\ filter (reel_of batch (Py.strip number)) (reels (db w1)) = [r]
    /\ (w1 = w \/ reels (db w1) = reels (db w) ++ [r])
    /\ load_reel batch e w1 = (w1, Ok tt).
Proof.
  destruct e as [number | ]; [ | discriminate ].
  rewrite load_reel_outcome. intros H. exists number.
  destruct (filter (reel_of batch (Py.strip number)) (reels (db w)))
    as [ | x [ | y l ] ] eqn:F; [ | | discriminate H ].
  - injection H as <-. eexists.
    assert (Fp : filter (reel_of batch (Py.strip number))
                   (reels (db w)
                    ++ [ {| reel_id := Some (next_id (db w));
                            reel_number := Py.strip number;
                            reel_batch := batch_name batch;
                            reel_implicit := false |} ])
                 = [ {| reel_id := Some (next_id (db w));
                        reel_number := Py.strip number;
                        reel_batch := batch_name batch;
                        reel_implicit := false |} ]).
    { rewrite filter_app, F. simpl. unfold reel_of at 1. simpl.
      now rewrite !String.eqb_refl. }
    split; [reflexivity | ]. split; [exact Fp | ].
    split; [right; reflexivity | ].
    rewrite load_reel_outcome.
    change (reels (db (set_db _ w))) with
      (reels (db w)
       ++ [ {| reel_id := Some (next_id (db w));
               reel_number := Py.strip number;
               reel_batch := batch_name batch;
               reel_implicit := false |} ]).
    rewrite Fp. reflexivity.
  - injection H as <-. exists x.
    split; [reflexivity | ]. split; [exact F | ]. split; [now left | ].
    rewrite load_reel_outcome. now rewrite F.
Qed.

Lemma load_reel_twice_creates_one_reel_witness :
  exists number r,
    Some " 1 " = Some number
    /\ filter (reel_of Ex.batch (Py.strip number))
         (reels (db (fst (load_reel Ex.batch (Some " 1 ") Ex.loading)))) = [r]
    /\ (fst (load_reel Ex.batch (Some " 1 ") Ex.loading) = Ex.loading
        \/ reels (db (fst (load_reel Ex.batch (Some " 1 ") Ex.loading)))
           = reels (db Ex.loading) ++ [r])
    /\ load_reel Ex.batch (Some " 1 ")
         (fst (load_reel Ex.batch (Some " 1 ") Ex.loading))
       = (fst (load_reel Ex.batch (Some " 1 ") Ex.loading), Ok tt).
Proof.
  apply (load_reel_twice_creates_one_reel Ex.batch (Some " 1 ") Ex.loading
           (fst (load_reel Ex.batch (Some " 1 ") Ex.loading))).
  vm_compute. reflexivity.
Defined.

Lemma hoare_exn_bind {A B : Type} (P : World -> Prop) (m : M A) (k : A -> M B)
  R Q E :
  hoare_exn P m R E -> (forall a, hoare_exn (R a) (k a) Q E) ->
  hoare_exn P (bind m k) Q E.
Proof.
  intros Hm Hk w Hw. unfold bind. specialize (Hm w Hw).
  destruct (m w) as [w' [a | e]]; [now apply Hk | exact Hm].
Qed.

Lemma hoare_exn_ret {A : Type} (P : World -> Prop) (a : A)
  (Q : A -> World -> Prop) E :
  (forall w, P w -> Q a w) -> hoare_exn P (ret a) Q E.
Proof. intros H w Hw. now apply H. Qed.

Lemma hoare_exn_raise {A : Type} (P : World -> Prop) e
  (Q : A -> World -> Prop) (E : exn -> World -> Prop) :
  (forall w, P w -> E e w) -> hoare_exn P (raise e) Q E.
Proof. intros H w Hw. now apply H. Qed.

Lemma hoare_exn_blind {A : Type} (P : World -> Prop) (m : M A) Q E'
  (E : exn -> World -> Prop) :
  hoare P m Q E' -> (forall e w, E' w -> E e w) -> hoare_exn P m Q E.
Proof.
  intros H HE w Hw. specialize (H w Hw).
  destruct (m w) as [w' [a | e]]; auto.
Qed.

Lemma hoare_exn_try_except {A : Type} (P : World -> Prop) (m : M A) c h Q
  (E1 E : exn -> World -> Prop) :
  hoare_exn P m Q E1 ->
  (forall e, c e = true -> hoare_exn (E1 e) (h e) Q E) ->
  (forall e w, c e = false -> E1 e w -> E e w) ->
  hoare_exn P (try_except m c h) Q E.
Proof.
  intros Hm Hh HE w Hw. unfold try_except. specialize (Hm w Hw).
  destruct (m w) as [w' [a | e]]; [exact Hm | ].
  destruct (c e) eqn:C; [now apply Hh | now apply HE].
Qed.

Section FailedPage.
Variables (env : Env) (doc : MetsDoc) (issue : Issue) (w : World).

Local Abbreviation same_pages := (same_pages_as w).
Local Abbreviation written := (one_bare_page_more issue w).
Local Abbreviation left_behind := (left_by_failed_page issue w).

Lemma other_exception_before e w0 :
  is_BatchLoaderException e = false -> same_pages w0 -> left_behind e w0.
Proof.
  intros Hb Hs. split; [ | now left ]. rewrite Hb. discriminate.
Qed.

Lemma any_exception_after e w0 : written w0 -> left_behind e w0.
Proof. intros H. split; [intros _ | ]; now right. Qed.

Lemma Reel_save_same_pages r E :
  hoare_exn same_pages (Reel_save r) (fun _ => same_pages) E.
Proof.
  intros w0 H. unfold Reel_save. cbv zeta.
  destruct (tbl_save reel_id with_reel_id r (reels (db w0)) (next_id (db w0)))
    as [[r' t] n]. exact H.
Qed.

Lemma reel_step number :
  hoare_exn same_pages
    (try_except
       (cb <- the_current_batch ;;
        r <- Reel_objects_get number cb ;;
        ret (reel_id r))
       (is_DoesNotExist MReel)
       (fun _ =>
          if Py.nonempty number then
            cb <- the_current_batch ;;
            r <- Reel_save {| reel_id := None; reel_number := number;
                              reel_batch := batch_name cb;
                              reel_implicit := true |} ;;
            ret (reel_id r)
          else
            logger WARNING "unable to find reel number in page metadata" ;;;
            ret None))
    (fun _ => same_pages) left_behind.
Proof.
  assert (C : hoare_exn same_pages the_current_batch (fun _ => same_pages)
                (fun e w0 => is_BatchLoaderException e = false
                             /\ same_pages w0)).
  { intros w0 H. unfold the_current_batch, bind, gets.
    destruct (current_batch w0); simpl; auto. }
  eapply hoare_exn_try_except with
    (E1 := fun e w0 => is_BatchLoaderException e = false /\ same_pages w0).
  - eapply hoare_exn_bind; [exact C | intros cb ].
    eapply hoare_exn_bind with (R := fun _ => same_pages).
    + intros w0 H. unfold Reel_objects_get.
      destruct (objects_get MReel _ (reels (db w0))) as [r | e] eqn:G;
        [exact H | ].
      split; [ | exact H ].
      unfold is_BatchLoaderException.
      destruct (objects_get_raise_class _ _ _ _ G) as [-> | ->]; reflexivity.
    + intros r. now apply hoare_exn_ret.
  - intros e _. destruct (Py.nonempty number).
    + eapply hoare_exn_bind with (R := fun _ => same_pages).
      * intros w0 [_ H]. specialize (C w0 H).
        destruct (the_current_batch w0) as [w1 [cb | e1]]; [exact C | ].
        destruct C. now apply other_exception_before.
      * intros cb. eapply hoare_exn_bind with (R := fun _ => same_pages).
        -- apply Reel_save_same_pages.
        -- intros r. now apply hoare_exn_ret.
    + eapply hoare_exn_bind with (R := fun _ => same_pages).
      * intros w0 [_ H]. exact H.
      * intros u. now apply hoare_exn_ret.
  - intros e w0 _ [Hb Hs]. now apply other_exception_before.
Qed.

Lemma written_log l msg w0 : written w0 -> written (add_log l msg w0).
Proof. intros H. exact H. Qed.

Lemma PageNote_save_written x : preserves written (PageNote_save x).
Proof.
  intros w0 H. unfold PageNote_save. cbv zeta.
  destruct (tbl_save pnote_id with_pnote_id x (page_notes (db w0))
              (next_id (db w0))) as [[x' t] n]. exact H.
Qed.

Lemma OCR_save_written o : preserves written (OCR_save o).
Proof.
  intros w0 H. unfold OCR_save. cbv zeta.
  destruct (tbl_save ocr_id with_ocr_id o (ocrs (db w0)) (next_id (db w0)))
    as [[o' t] n]. exact H.
Qed.

Lemma solr_written c : preserves written (solr c).
Proof. intros w0 H. unfold solr. destruct (PROCESS_OCR w0); exact H. Qed.

(** [Page_save] does not raise. *)
Lemma Page_save_returns (P : World -> Prop) p E :
  hoare P (Page_save p) (fun _ _ => True) E.
Proof.
  intros w0 _. unfold Page_save. cbv zeta.
  destruct (tbl_save page_id with_page_id p (pages (db w0)) (next_id (db w0)))
    as [[p' t] n]. exact I.
Qed.

Lemma process_ocr_written page index :
  hoare written (process_ocr env issue page index) (fun _ _ => True) written.
Proof.
  unfold process_ocr.
  eapply hoare_bind with (R := fun _ => written).
  { apply hoare_lift; auto. }
  intros [text coords].
  eapply hoare_bind; [apply OCR_save_written | intros o; cbv beta ].
  eapply hoare_bind with (R := fun _ => written).
  { destruct index.
    - eapply hoare_bind; [apply solr_written | intros u; cbv beta ].
      now apply hoare_ret.
    - now apply hoare_ret. }
  intros page'. apply Page_save_returns.
Qed.

(** [_load_page] from the world [w]: what an exception finds. *)
Lemma load_page_left_behind div :
  hoare_exn (fun w0 => w0 = w) (_load_page env doc div issue)
    (fun _ _ => True) left_behind.
Proof.
  unfold _load_page.
  eapply hoare_exn_bind with (R := fun _ w0 => w0 = w).
  { destruct (pdiv_DMDID div); simpl.
    - now apply hoare_exn_ret.
    - apply hoare_exn_raise. intros w0 ->.
      now apply other_exception_before. }
  intros dmdid.
  eapply hoare_exn_bind with (R := fun _ w0 => w0 = w).
  { unfold dmd_mods. destruct (doc_dmdSec_mods doc dmdid); simpl.
    - apply hoare_exn_raise. intros w0 ->.
      now apply other_exception_before.
    - now apply hoare_exn_ret. }
  intros mods.
  eapply hoare_exn_bind with (R := fun _ => same_pages).
  { destruct (Py.int (mods_extent_start mods)).
    - apply hoare_exn_ret. now intros w0 ->.
    - apply hoare_exn_raise. intros w0 ->.
      split; [intros _ | ]; now left. }
  intros sequence.
  eapply hoare_exn_bind with (R := fun _ => same_pages);
    [apply reel_step | intros reel ].
  eapply hoare_exn_bind with (R := fun _ => same_pages).
  { intros w0 H. exact H. }
  intros u.
  eapply hoare_exn_bind with (R := fun _ => same_pages).
  { destruct (Py.nonempty (pdiv_section_DMDID div)).
    - eapply hoare_exn_bind with (R := fun _ => same_pages).
      + unfold dmd_mods.
        destruct (doc_dmdSec_mods doc (pdiv_section_DMDID div)); simpl.
        * apply hoare_exn_raise. intros w0 H.
          now apply other_exception_before.
        * now apply hoare_exn_ret.
      + intros section_mods. now apply hoare_exn_ret.
    - now apply hoare_exn_ret. }
  intros section_label.
  eapply hoare_exn_bind with (R := fun _ => written).
  { intros w0 H. unfold Page_save, tbl_save. simpl.
    eexists. split; [rewrite H; reflexivity | ].
    repeat split. }
  intros page.
  eapply hoare_exn_blind with (E' := written);
    [ | intros e w0; apply any_exception_after ].
  eapply hoare_bind with (R := fun _ => written).
  { apply preserves_for_each. intros mods_note.
    apply preserves_bind; [apply PageNote_save_written | intros x ].
    apply preserves_ret. }
  intros u'.
  eapply hoare_bind with (R := fun _ => written).
  { apply preserves_load_files. exact written_log. }
  intros page1.
  eapply hoare_bind with (R := fun _ => written).
  { now apply hoare_gets. }
  intros process.
  eapply hoare_bind with (R := fun _ _ => True).
  { destruct (text_truthy (page_ocr_filename page1)).
    - destruct process; [apply process_ocr_written | now apply hoare_ret ].
    - eapply hoare_bind with (R := fun _ => written).
      + apply hoare_modify. intros w0 H. exact H.
      + intros u2. now apply hoare_ret. }
  intros page2. apply Page_save_returns.
Qed.

End FailedPage.

(** X13: what a failed page leaves in the store.  [_load_page] saves the
    page row before it looks at the page's files, and nothing removes or
    completes that row when a later step fails.  So when [_load_page] raises,
    the pages of the store are either as they were or one row more: the bare
    row of the page, with no file name, no dimensions and not indexed.  When
    it raises a [BatchLoaderException], which the page loop logs and skips,
    either the sequence number was no integer and the world is untouched, or
    the bare row is in the store (a service image without dimensions). *)
Theorem failed_page_leaves_at_most_a_bare_row (env : Env) (doc : MetsDoc)
  (div : PageDiv) (issue : Issue) (w w' : World) (e : exn) :
  _load_page env doc div issue w = (w', Raise e) ->
  (pages (db w') = pages (db w) \/ one_bare_page_more issue w w')
  /\ (is_BatchLoaderException e = true ->
      w' = w \/ one_bare_page_more issue w w').
Proof.
  intros H.
  pose proof (load_page_left_behind env doc issue w div w eq_refl) as L.
  rewrite H in L. destruct L as [B S]. split; [exact S | exact B].
Qed.

Lemma failed_page_leaves_at_most_a_bare_row_witness :
  (pages (db (fst (_load_page Ex.env Ex.doc Ex.page2 Ex.issue Ex.loading)))
   = pages (db Ex.loading)
   \/ one_bare_page_more Ex.issue Ex.loading
        (fst (_load_page Ex.env Ex.doc Ex.page2 Ex.issue Ex.loading)))
  /\ (is_BatchLoaderException
        (BLE "No jp2 width for issue: an issue page: a page") = true ->
      fst (_load_page Ex.env Ex.doc Ex.page2 Ex.issue Ex.loading) = Ex.loading
      \/ one_bare_page_more Ex.issue Ex.loading
           (fst (_load_page Ex.env Ex.doc Ex.page2 Ex.issue Ex.loading))).
Proof.
  apply (failed_page_leaves_at_most_a_bare_row Ex.env Ex.doc Ex.page2 Ex.issue
           Ex.loading
           (fst (_load_page Ex.env Ex.doc Ex.page2 Ex.issue Ex.loading))
           (BLE "No jp2 width for issue: an issue page: a page")).
  vm_compute. reflexivity.
Defined.

(** ** Paths within a batch *)

Lemma prefix_app a s : String.prefix a (a ++ s)%string = true.
Proof.
  induction a as [ | c a IH ]; simpl; [now destruct s | ].
  destruct (ascii_dec c c) as [_ | N]; [exact IH | contradiction].
Qed.

Lemma remove_from_skip old a s : forall k,
  String.length a = k ->
  Py.remove_from old k (a ++ s)%string = Py.remove_from old 0 s.
Proof.
  induction a as [ | c a IH ]; intros k L; simpl in L; subst k;
    [reflexivity | ].
  simpl. now apply IH.
Qed.

Lemma remove_all_prefix old s :
  old <> "" -> Py.remove_all old (old ++ s)%string = Py.remove_all old s.
Proof.
  destruct old as [ | c o ]; [contradiction | ]. intros _.
  unfold Py.remove_all.
  change (String c o ++ s)%string with (String c (o ++ s)%string).
  cbn [Py.remove_from].
  change (String c (o ++ s)%string) with (String c o ++ s)%string.
  rewrite prefix_app.
  apply remove_from_skip. simpl. now rewrite Nat.sub_0_r.
Qed.

Lemma remove_all_absent old s :
  occurs old s = false -> Py.remove_all old s = s.
Proof.
  destruct old as [ | c o ]; [reflexivity | ]. unfold Py.remove_all.
  induction s as [ | d r IH ]; [reflexivity | ].
  intros H. cbn [occurs] in H. apply orb_false_iff in H as [P O].
  cbn [Py.remove_from]. rewrite P. now rewrite (IH O).
Qed.

Lemma lstrip_head p s c r :
  Py.lstrip p s = String c r -> p c = false.
Proof.
  induction s as [ | d s IH ]; simpl; [discriminate | ].
  destruct (p d) eqn:D; [exact IH | ].
  intros H. injection H as <- _. exact D.
Qed.

(** X14: files are stored by their path within the batch.  For a file
    whose absolute path is the root of the current batch followed by [rest],
    in which the root does not occur again, [storage_relative_path] returns
    [rest] without its leading slashes and dots; the world is untouched.  The
    path returned begins with neither a slash nor a dot, so that it can be
    joined to a batch root again wherever the storage it is moved to. *)
Theorem storage_relative_path_within_batch (env : Env) (w : World) (b : Batch)
  (path rest : string) :
  current_batch w = Some b ->
  Batch_path env (batch_name b) <> "" ->
  os_path_abspath env path = (Batch_path env (batch_name b) ++ rest)%string ->
  occurs (Batch_path env (batch_name b)) rest = false ->
  storage_relative_path env path w = (w, Ok (Py.lstrip dot_or_slash rest))
  /\ forall c r, Py.lstrip dot_or_slash rest = String c r ->
                 dot_or_slash c = false.
Proof.
  intros C N A O. split.
  - unfold storage_relative_path, bind, gets. rewrite C. unfold ret.
    rewrite A, (remove_all_prefix _ _ N), (remove_all_absent _ _ O).
    reflexivity.
  - intros c r. apply lstrip_head.
Qed.

Lemma storage_relative_path_within_batch_witness :
  storage_relative_path Ex.env "/st/batch_dlc_test_ver01/a/./0001.tif"
    Ex.loading
  = (Ex.loading, Ok (Py.lstrip dot_or_slash "/a/./0001.tif"))
  /\ forall c r, Py.lstrip dot_or_slash "/a/./0001.tif" = String c r ->
                 dot_or_slash c = false.
Proof.
  apply (storage_relative_path_within_batch Ex.env Ex.loading Ex.batch
           "/st/batch_dlc_test_ver01/a/./0001.tif" "/a/./0001.tif").
  - reflexivity.
  - discriminate.
  - reflexivity.
  - reflexivity.
Defined.

(** ** The chart *)

Lemma range_from_below num step : forall fuel i,
  Forall (fun x => x < num) (range_from fuel i num step).
Proof.
  induction fuel as [ | fuel IH ]; intros i; simpl; [constructor | ].
  destruct (Nat.ltb_spec i num); constructor; auto.
Qed.

(** The last member of a range lies below its bound. *)
Lemma range_from_length num step : forall fuel i,
  range_from fuel i num step = []
  \/ i + (List.length (range_from fuel i num step) - 1) * step < num.
Proof.
  induction fuel as [ | fuel IH ]; intros i; simpl; [now left | ].
  destruct (Nat.ltb_spec i num) as [L | L]; [right | now left].
  simpl. rewrite Nat.sub_0_r.
  destruct (IH (i + step)) as [-> | H]; simpl; [lia | ].
  destruct (range_from fuel (i + step) num step) as [ | x l ];
    simpl in *; [lia | ].
  rewrite Nat.sub_0_r in H. lia.
Qed.

(** [_chart] plots about a hundred points, and fewer than two hundred. *)
Lemma chart_range_length num :
  List.length (py_range num (Nat.max (num / 100) 1)) <= 199.
Proof.
  unfold py_range.
  pose proof (Nat.mul_succ_div_gt num 100 ltac:(lia)) as D.
  assert (S : Nat.max (num / 100) 1 = 1 /\ num / 100 = 0
              \/ Nat.max (num / 100) 1 = num / 100 /\ 1 <= num / 100) by lia.
  set (q := num / 100) in *.
  set (step := Nat.max q 1) in *.
  destruct (range_from_length num step num 0) as [-> | H]; [simpl; lia | ].
  set (L := List.length _) in *. rewrite Nat.add_0_l in H.
  destruct S as [[S Hq] | [S Hq]]; rewrite S in H.
  - lia.
  - destruct (Nat.le_gt_cases L 199) as [ | G ]; [assumption | exfalso ].
    assert (199 * q <= (L - 1) * q) by (apply Nat.mul_le_mono_r; lia).
    lia.
Qed.

Lemma comprehension_getitem {A B : Type} (times : list A) (g : A -> B) idx w :
  Forall (fun i => i < List.length times) idx ->
  comprehension idx (fun i => t <- getitem times i ;; ret (g t)) w
  = (w, Ok (map g (sample times idx))).
Proof.
  induction idx as [ | i idx IH ]; intros F; [reflexivity | ].
  inversion F as [ | ? ? Hi F' ]; subst.
  destruct (nth_error times i) as [t | ] eqn:N;
    [ | apply nth_error_None in N; lia ].
  specialize (IH F'). cbn [comprehension].
  cbv beta iota delta [bind getitem ret] in *. rewrite N, IH.
  unfold sample. simpl. rewrite N. reflexivity.
Qed.

Lemma item_last_last (l : list string) x :
  l <> [] -> last l x = last l "" /\ forall w, item_last l w = (w, Ok (last l "")).
Proof.
  intros N. destruct (exists_last N) as (l' & y & ->).
  rewrite !last_last. split; [reflexivity | ].
  intros w. unfold item_last. rewrite rev_unit. reflexivity.
Qed.

(** X15: [_chart] cannot fail a load.  It is called inside the [try] of
    [load_batch], after every record has been saved; it never raises,
    whatever the list of times: its indices stay within the list, and the
    first and last points exist whenever the list is not empty.  For an empty
    list it does nothing; otherwise it logs one message, the chart address
    of the points it samples (the first time, then one in [step]), of which
    there are at least one and at most 199. *)
Theorem chart_never_raises {Seconds : Type} (format_2f : Seconds -> string)
  (times : list (Seconds * nat)) (w : World) :
  _chart format_2f times w
  = (match times with
     | [] => w
     | _ => add_log INFO (chart_message format_2f (chart_points times)) w
     end, Ok tt)
  /\ List.length (chart_points times) <= 199
  /\ (exists rest,
        chart_points times
        = match times with [] => [] | t :: _ => t :: rest end).
Proof.
  assert (Len : List.length (chart_points times) <= 199).
  { unfold chart_points.
    eapply Nat.le_trans; [ | apply (chart_range_length (List.length times)) ].
    generalize (py_range (List.length times)
                  (Nat.max (List.length times / 100) 1)).
    intros idx. unfold sample.
    induction idx as [ | i idx IH ]; simpl; [lia | ].
    rewrite length_app. destruct (nth_error times i); simpl; lia. }
  destruct times as [ | t times' ].
  { split; [reflexivity | ]. split; [exact Len | ]. now exists []. }
  unfold chart_points in *.
  set (times := t :: times') in *.
  set (num := List.length times) in *.
  set (step := Nat.max (num / 100) 1) in *.
  assert (B : Forall (fun i => i < num) (py_range num step))
    by apply range_from_below.
  assert (P : exists rest, sample times (py_range num step) = t :: rest).
  { unfold py_range, num, times. simpl List.length. cbn [range_from].
    change (Nat.ltb 0 (S (List.length times'))) with true. cbv iota.
    unfold sample. cbn [flat_map nth_error]. eexists. reflexivity. }
  destruct P as [rest P].
  split; [ | split; [exact Len | now exists rest] ].
  unfold _chart. fold num. fold step.
  change (Nat.eqb num 0) with false. cbv iota.
  unfold bind at 1.
  rewrite (comprehension_getitem times (fun t => format_2f (fst t)) _ w B).
  unfold bind at 1.
  rewrite (comprehension_getitem times (fun t => str_nat (snd t)) _ w B).
  unfold chart_message. rewrite P.
  set (f_times := map (fun t => format_2f (fst t)) (t :: rest)).
  set (counts := map (fun t => str_nat (snd t)) (t :: rest)).
  assert (Nf : f_times <> []) by discriminate.
  assert (Nc : counts <> []) by discriminate.
  destruct (item_last_last f_times "" Nf) as [_ Lf].
  destruct (item_last_last counts "" Nc) as [_ Lc].
  unfold bind at 1. change (item0 f_times w) with (w, Ok (hd "" f_times)).
  cbv iota. unfold bind at 1. rewrite Lf.
  unfold bind at 1. change (item0 counts w) with (w, Ok (hd "" counts)).
  cbv iota. unfold bind at 1. rewrite Lc.
  reflexivity.
Qed.

(** ** What a load that returns has stored *)

Lemma tbl_save_In {A : Type} (id_of : A -> option nat) with_id (r : A) t next :
  In (fst (fst (tbl_save id_of with_id r t next)))
    (snd (fst (tbl_save id_of with_id r t next))).
Proof.
  unfold tbl_save. destruct (id_of r) as [k | ]; simpl.
  - destruct (existsb (has_id id_of k) t) eqn:X; simpl.
    + apply existsb_exists in X as (x & Hx & Ek).
      apply in_map_iff. exists x. now rewrite Ek.
    + apply in_or_app. right. now left.
  - apply in_or_app. right. now left.
Qed.

Section LoadedIssue.
Variables (env : Env) (w : World).

Ltac other_table :=
  let w0 := fresh "w" in
  let H := fresh "H" in
  intros w0 H; cbv beta delta [Reel_save Issue_save IssueNote_save Page_save
                               PageNote_save OCR_save] zeta;
  match goal with
  | |- context [tbl_save ?i ?s ?r ?t ?n] =>
      destruct (tbl_save i s r t n) as [[? ?] ?]
  end;
  exact H.

Lemma stored_issue_load_pages issue doc issue' divs :
  preserves (stored_issue w issue) (load_pages env doc issue' divs).
Proof.
  apply preserves_load_pages; try (intros; other_table).
  - intros l msg w0 H. exact H.
  - intros p w0 H. unfold solr. destruct (PROCESS_OCR w0); exact H.
  - intros n w0 H. exact H.
Qed.

Lemma load_issue_record_stored doc div :
  hoare (fun w0 => w0 = w) (load_issue_record doc div)
    (stored_issue w) (fun _ => True).
Proof.
  unfold load_issue_record.
  eapply hoare_bind with (R := fun _ w0 => w0 = w).
  { destruct (idiv_DMDID div); simpl;
      [now apply hoare_ret | now apply hoare_raise]. }
  intros dmdid.
  eapply hoare_bind with (R := fun _ w0 => w0 = w).
  { unfold dmd_mods. destruct (doc_dmdSec_mods doc dmdid); simpl;
      [now apply hoare_raise | now apply hoare_ret]. }
  intros mods.
  eapply hoare_bind with (R := fun _ w0 => w0 = w).
  { destruct (Py.int (mods_edition mods));
      [now apply hoare_ret | now apply hoare_raise]. }
  intros edition.
  eapply hoare_bind with (R := fun _ w0 => w0 = w).
  { destruct (strptime_Ymd (mods_dateIssued mods));
      [now apply hoare_ret | now apply hoare_raise]. }
  intros date_issued.
  eapply hoare_bind with
    (R := fun title w0 => In title (titles (db w)) /\ w0 = w).
  { intros w0 ->. unfold Title_objects_get.
    destruct (objects_get MTitle _ (titles (db w))) as [title | e] eqn:G;
      [ | exact I ].
    split; [ | reflexivity ].
    unfold objects_get in G.
    destruct (filter _ (titles (db w))) as [ | x [ | y l ] ] eqn:F;
      try discriminate G.
    injection G as ->.
    assert (H : In title (filter (fun t => title_lccn t =? Py.strip (mods_lccn mods))
                            (titles (db w)))) by (rewrite F; now left).
    now apply filter_In in H. }
  intros title. apply hoare_pure. intros Ht.
  eapply hoare_bind with
    (R := fun cb w0 => current_batch w = Some cb /\ w0 = w).
  { intros w0 ->. unfold the_current_batch, bind, gets.
    destruct (current_batch w); simpl; auto. }
  intros cb. apply hoare_pure. intros Hc.
  pose (kept := fun w0 : World => titles (db w0) = titles (db w)).
  eapply hoare_bind with
    (R := fun issue w0 =>
            ((exists k, issue_id issue = Some k)
             /\ issue_batch issue = batch_name cb
             /\ issue_title issue = title_lccn title)
            /\ kept w0).
  { intros w0 ->. unfold Issue_save, tbl_save. simpl.
    split; [ | reflexivity ]. split; [now eexists | ]. auto. }
  intros issue. apply hoare_pure. intros (Hk & Hb & Hl).
  eapply hoare_bind with (R := fun _ => kept).
  { apply hoare_for_each. intros mods_note.
    eapply hoare_bind with (R := fun _ => kept); [ | intros x; now apply hoare_ret ].
    intros w0 H. unfold IssueNote_save. cbv zeta.
    destruct (tbl_save inote_id with_inote_id _ (issue_notes (db w0))
                (next_id (db w0))) as [[x' t] n]. exact H. }
  intros u. intros w0 H.
  assert (S : In (fst (fst (tbl_save issue_id with_issue_id issue
                              (issues (db w0)) (next_id (db w0)))))
                (snd (fst (tbl_save issue_id with_issue_id issue
                             (issues (db w0)) (next_id (db w0))))))
    by apply tbl_save_In.
  destruct Hk as [k Hk]. unfold Issue_save. unfold tbl_save in *.
  rewrite Hk in *.
  destruct (existsb (has_id issue_id k) (issues (db w0))); simpl in *;
    (split; [exact S | ]); (split; [now exists k | ]);
    (split; [now exists cb | ]).
  all: unfold kept in H; simpl; rewrite H; apply existsb_exists; exists title;
    (split; [exact Ht | ]); rewrite Hl; apply String.eqb_refl.
Qed.

End LoadedIssue.

(** X16: the issues that a load counts are in the store.  When
    [_load_issue] returns an issue, the store holds that issue as returned;
    it has an id, it belongs to the batch that the loader is loading, and it
    refers to a title that the store holds.  Whatever happened to its pages,
    loaded or skipped, has not undone any of this. *)
Theorem loaded_issue_is_stored (env : Env) (mets_file : string)
  (w w' : World) (issue : Issue) :
  _load_issue env mets_file w = (w', Ok issue) ->
  stored_issue w issue w'.
Proof.
  intros H.
  assert (L : hoare (fun w0 => w0 = w) (_load_issue env mets_file)
                (stored_issue w) (fun _ => True)).
  { unfold _load_issue.
    eapply hoare_bind with (R := fun _ w0 => w0 = w).
    { apply hoare_lift; auto. }
    intros doc.
    eapply hoare_bind with (R := fun _ w0 => w0 = w).
    { destruct (doc_issue_divs doc); simpl;
        [now apply hoare_raise | now apply hoare_ret]. }
    intros div.
    eapply hoare_bind; [apply load_issue_record_stored | intros i ].
    eapply hoare_bind with (R := fun _ => stored_issue w i).
    { eapply hoare_weaken;
        [apply (stored_issue_load_pages env w i) | auto | auto | auto ]. }
    intros u. now apply hoare_ret. }
  specialize (L w eq_refl). rewrite H in L. exact L.
Qed.

Lemma loaded_issue_is_stored_witness :
  stored_issue Ex.at_issues Ex.issue
    (fst (_load_issue Ex.env Ex.issue1 Ex.at_issues)).
Proof.
  apply (loaded_issue_is_stored Ex.env Ex.issue1 Ex.at_issues
           (fst (_load_issue Ex.env Ex.issue1 Ex.at_issues)) Ex.issue).
  vm_compute. reflexivity.
Defined.

Lemma hoare_conj {A : Type} (P1 P2 : World -> Prop) (m : M A) Q1 Q2 E1 E2 :
  hoare P1 m Q1 E1 -> hoare P2 m Q2 E2 ->
  hoare (fun w => P1 w /\ P2 w) m (fun a w => Q1 a w /\ Q2 a w)
    (fun w => E1 w /\ E2 w).
Proof.
  intros H1 H2 w [W1 W2]. specialize (H1 w W1). specialize (H2 w W2).
  destruct (m w) as [w' [a | e]]; auto.
Qed.

Lemma hoare_fact {A : Type} (F : Prop) (m : M A) Q E :
  (F -> hoare (fun _ => True) m Q E) -> hoare (fun _ => F) m Q E.
Proof. intros H w0 HF. now apply H. Qed.

Lemma admid_loop_fields doc admids : forall page,
  page_issue (admid_loop doc admids page) = page_issue page
  /\ page_indexed (admid_loop doc admids page) = page_indexed page
  /\ page_jp2_filename (admid_loop doc admids page) = page_jp2_filename page.
Proof.
  induction admids as [ | a rest IH ]; intros page; simpl; [auto | ].
  destruct (get_dimensions doc a) as [l wd].
  destruct (text_truthy l && text_truthy wd); [simpl; auto | apply IH].
Qed.

Section LoadedPage.
Variables (env : Env) (doc : MetsDoc) (issue : Issue) (w : World).

Local Abbreviation anywhere := (fun _ : World => True).

(** The service branch returns a page only with both dimensions. *)
Lemma jp2_dimensions_value file_el page0 :
  hoare anywhere (jp2_dimensions env doc file_el issue page0)
    (fun p _ => page_issue p = page_issue page0
                /\ page_indexed p = page_indexed page0
                /\ page_jp2_filename p = page_jp2_filename page0
                /\ truthy (page_jp2_width p) && truthy (page_jp2_length p)
                   = true)
    anywhere.
Proof.
  unfold jp2_dimensions.
  eapply hoare_bind with
    (R := fun p _ => page_issue p = page_issue page0
                     /\ page_indexed p = page_indexed page0
                     /\ page_jp2_filename p = page_jp2_filename page0).
  { eapply hoare_try_except with (E1 := anywhere); [ | intros e | auto ].
    - destruct (file_ADMID file_el); simpl; [ | now apply hoare_raise ].
      unfold bind at 1, ret at 1. apply hoare_ret. intros w0 _.
      apply admid_loop_fields.
    - eapply hoare_bind; [apply hoare_any | intros u; cbv beta ].
      eapply hoare_bind; [apply hoare_any | intros [width length]; cbv beta ].
      apply hoare_ret. intros w0 _. simpl. auto. }
  intros p. apply hoare_fact. intros (Hi & Hx & Hf).
  destruct (truthy (page_jp2_width p)) eqn:Tw; simpl;
    [ | now apply hoare_raise ].
  destruct (truthy (page_jp2_length p)) eqn:Tl; simpl;
    [ | now apply hoare_raise ].
  apply hoare_ret. intros w0 _. rewrite Tw, Tl. auto.
Qed.

Lemma load_file_value page fptr :
  page_in_hand issue page ->
  hoare anywhere (load_file env doc issue page fptr)
    (fun p _ => page_in_hand issue p) anywhere.
Proof.
  intros (Hi & Hx & Hd). unfold load_file.
  eapply hoare_bind; [apply hoare_any | intros file_id; cbv beta ].
  eapply hoare_bind; [apply hoare_any | intros file_el; cbv beta ].
  eapply hoare_bind; [apply hoare_any | intros file_type; cbv beta ].
  eapply hoare_bind; [apply hoare_any | intros file_name; cbv beta ].
  destruct (file_type =? "master").
  { apply hoare_ret. intros w0 _. repeat split; assumption. }
  destruct (file_type =? "service").
  { eapply hoare_weaken;
      [ apply jp2_dimensions_value | auto | | auto ].
    intros p w0 (Pi & Px & Pf & Pd). simpl in *.
    unfold page_in_hand, has_dimensions. rewrite Pi, Px, Pf. auto. }
  destruct (file_type =? "derivative").
  { apply hoare_ret. intros w0 _. repeat split; assumption. }
  destruct (file_type =? "ocr").
  { apply hoare_ret. intros w0 _. repeat split; assumption. }
  apply hoare_ret. intros w0 _. repeat split; assumption.
Qed.

Lemma load_files_value fptrs : forall page,
  page_in_hand issue page ->
  hoare anywhere (load_files env doc issue page fptrs)
    (fun p _ => page_in_hand issue p) anywhere.
Proof.
  induction fptrs as [ | fptr rest IH ]; intros page H; simpl.
  - now apply hoare_ret.
  - eapply hoare_bind with (R := fun p _ => page_in_hand issue p).
    + now apply load_file_value.
    + intros p. intros w0 Hp. now apply (IH p Hp).
Qed.

Lemma same_loader_log l msg w0 :
  same_loader w w0 -> same_loader w (add_log l msg w0).
Proof. intros H. exact H. Qed.

Lemma same_loader_db st w0 : same_loader w w0 -> same_loader w (set_db st w0).
Proof. intros H. exact H. Qed.

Lemma same_loader_solr c : preserves (same_loader w) (solr c).
Proof. intros w0 H. unfold solr. destruct (PROCESS_OCR w0); exact H. Qed.

(** Saving a page returns it, up to its id, and has it in the store. *)
Lemma Page_save_stored (P : World -> Prop) p E :
  hoare P (Page_save p)
    (fun p' w0 => In p' (pages (db w0))
                  /\ page_issue p' = page_issue p
                  /\ page_indexed p' = page_indexed p
                  /\ page_ocr_filename p' = page_ocr_filename p
                  /\ has_dimensions p' = has_dimensions p)
    E.
Proof.
  intros w0 _. unfold Page_save. cbv zeta.
  pose proof (tbl_save_In page_id with_page_id p (pages (db w0))
                (next_id (db w0))) as S.
  pose proof (tbl_save_row page_id with_page_id p (pages (db w0))
                (next_id (db w0))) as Rw.
  destruct (tbl_save page_id with_page_id p (pages (db w0)) (next_id (db w0)))
    as [[p' t] n].
  simpl in S. split; [exact S | ].
  destruct (Rw p' t n eq_refl) as [-> | ->]; repeat split.
Qed.

(** The page and its OCR. *)
Lemma process_ocr_value page :
  hoare (same_loader w) (process_ocr env issue page true)
    (fun p w0 => PROCESS_OCR w = true
                 /\ page_issue p = page_issue page
                 /\ page_indexed p = true
                 /\ page_ocr_filename p = page_ocr_filename page
                 /\ has_dimensions p = has_dimensions page)
    anywhere.
Proof.
  unfold process_ocr.
  eapply hoare_bind with (R := fun _ => same_loader w).
  { apply hoare_lift; auto. }
  intros [text coords].
  eapply hoare_bind with (R := fun _ => same_loader w).
  { eapply hoare_weaken;
      [ apply (blind_OCR_save (same_loader w) same_loader_db) | auto | auto
      | auto ]. }
  intros o.
  eapply hoare_bind with
    (R := fun p w0 => PROCESS_OCR w = true /\ p = set_indexed page).
  { eapply hoare_bind with (R := fun _ w0 => PROCESS_OCR w = true).
    - intros w0 H. unfold solr. destruct (PROCESS_OCR w0) eqn:P; [ | exact I ].
      unfold same_loader in H. congruence.
    - intros u. apply hoare_ret. auto. }
  intros p. apply hoare_fact. intros [Hp ->].
  eapply hoare_weaken;
    [ apply (Page_save_stored anywhere (set_indexed page) anywhere) | auto
    | | auto ].
  intros p' w0 (_ & Hi & Hx & Ho & Hd). rewrite Hi, Hx, Ho, Hd. auto.
Qed.

Lemma load_page_stored div :
  hoare (fun w0 => w0 = w) (_load_page env doc div issue)
    (stored_page issue w) anywhere.
Proof.
  assert (Start : forall w0, w0 = w -> same_loader w w0)
    by (intros w0 ->; reflexivity).
  eapply hoare_weaken with (P := same_loader w) (E := anywhere);
    [ | exact Start | intros p w0 H; exact H | auto ].
  assert (Keep : forall (A : Type) (m : M A),
            preserves (same_loader w) m ->
            hoare (same_loader w) m (fun _ => same_loader w) anywhere).
  { intros A m H. eapply hoare_weaken; [exact H | auto | auto | auto ]. }
  unfold _load_page.
  eapply hoare_bind with (R := fun _ => same_loader w).
  { apply Keep. destruct (pdiv_DMDID div); simpl;
      [apply preserves_ret | apply preserves_raise]. }
  intros dmdid.
  eapply hoare_bind with (R := fun _ => same_loader w).
  { apply Keep. unfold dmd_mods. destruct (doc_dmdSec_mods doc dmdid); simpl;
      [apply preserves_raise | apply preserves_ret]. }
  intros mods.
  eapply hoare_bind with (R := fun _ => same_loader w).
  { apply Keep. destruct (Py.int (mods_extent_start mods));
      [apply preserves_ret | apply preserves_raise]. }
  intros sequence.
  eapply hoare_bind with (R := fun _ => same_loader w).
  { apply Keep. apply preserves_try_except; [ | intros e ].
    - apply preserves_bind; [apply preserves_the_current_batch | intros cb ].
      apply preserves_bind; [ | intros r; apply preserves_ret ].
      apply preserves_read. intros w0. reflexivity.
    - destruct (Py.nonempty (Py.strip (mods_reel_number mods))).
      + apply preserves_bind; [apply preserves_the_current_batch | intros cb ].
        apply preserves_bind; [ | intros r; apply preserves_ret ].
        apply (blind_Reel_save (same_loader w) same_loader_db).
      + apply preserves_bind; [ | intros u; apply preserves_ret ].
        apply preserves_logger. exact same_loader_log. }
  intros reel.
  eapply hoare_bind with (R := fun _ => same_loader w).
  { apply Keep. apply preserves_logger. exact same_loader_log. }
  intros u.
  eapply hoare_bind with (R := fun _ => same_loader w).
  { apply Keep. destruct (Py.nonempty (pdiv_section_DMDID div)).
    - apply preserves_bind; [ | intros sm; apply preserves_ret ].
      unfold dmd_mods.
      destruct (doc_dmdSec_mods doc (pdiv_section_DMDID div)); simpl;
        [apply preserves_raise | apply preserves_ret].
    - apply preserves_ret. }
  intros section_label.
  eapply hoare_bind with
    (R := fun p w0 => page_in_hand issue p /\ same_loader w w0).
  { intros w0 H. unfold Page_save, tbl_save. simpl.
    split; [repeat split | exact H]. }
  intros page. apply hoare_pure. intros Hp.
  eapply hoare_bind with (R := fun _ => same_loader w).
  { apply Keep. apply preserves_for_each. intros mods_note.
    apply preserves_bind; [ | intros x; apply preserves_ret ].
    apply (blind_PageNote_save (same_loader w) same_loader_db). }
  intros u'.
  eapply hoare_bind with
    (R := fun p w0 => page_in_hand issue p /\ same_loader w w0).
  { eapply hoare_weaken with (P := fun w0 => True /\ same_loader w w0);
      [ apply hoare_conj;
        [ now apply load_files_value
        | apply (preserves_load_files (same_loader w) same_loader_log) ]
      | auto | intros p w0 H; exact H | auto ]. }
  intros page1. apply hoare_pure. intros (Hi & Hx & Hd).
  eapply hoare_bind with
    (R := fun process w0 => process = PROCESS_OCR w /\ same_loader w w0).
  { apply hoare_gets. intros w0 H. split; [exact H | exact H]. }
  intros process. apply hoare_pure. intros ->.
  eapply hoare_bind with
    (R := fun p _ =>
            page_issue p = issue_id issue
            /\ has_dimensions p = true
            /\ page_indexed p
               = PROCESS_OCR w && text_truthy (page_ocr_filename p)).
  { destruct (text_truthy (page_ocr_filename page1)) eqn:T.
    - destruct (PROCESS_OCR w) eqn:P.
      + eapply hoare_weaken; [apply process_ocr_value | auto | | auto ].
        intros p w0 (_ & Pi & Px & Po & Pd).
        rewrite Pi, Px, Po, Pd, T. auto.
      + apply hoare_ret. intros w0 _. rewrite Hx. auto.
    - eapply hoare_bind; [apply hoare_any | intros u2; cbv beta ].
      apply hoare_ret. intros w0 _. rewrite Hx, T, andb_false_r. auto. }
  intros page2. apply hoare_fact. intros (Hi2 & Hd2 & Hx2).
  eapply hoare_weaken;
    [ apply (Page_save_stored anywhere page2 anywhere) | auto | | auto ].
  intros p w0 (S & Pi & Px & Po & Pd).
  unfold stored_page. rewrite Pi, Px, Po, Pd. auto.
Qed.

End LoadedPage.

(** X17: what a page that loads has in the store.  When [_load_page]
    returns a page, the store holds that page as returned; it is a page of
    the issue; if it has a service image it has a width and a length, both
    non-empty; and, a new page being not indexed, it is marked as indexed
    exactly when the loader processes OCR and the page has an OCR file. *)
Theorem loaded_page_is_stored (env : Env) (doc : MetsDoc) (div : PageDiv)
  (issue : Issue) (w w' : World) (p : Page) :
  _load_page env doc div issue w = (w', Ok p) ->
  stored_page issue w p w'.
Proof.
  intros H. pose proof (load_page_stored env doc issue w div w eq_refl) as L.
  rewrite H in L. exact L.
Qed.

Lemma loaded_page_is_stored_witness :
  stored_page Ex.issue Ex.loading Cases.page1_loaded
    (fst (_load_page Ex.env Ex.doc Ex.page1 Ex.issue Ex.loading)).
Proof.
  apply (loaded_page_is_stored Ex.env Ex.doc Ex.page1 Ex.issue Ex.loading
           (fst (_load_page Ex.env Ex.doc Ex.page1 Ex.issue Ex.loading))
           Cases.page1_loaded).
  vm_compute. reflexivity.
Defined.

(** ** The count that a load reports *)

Lemma events_and_count_frames :
  (forall l msg w, events_and_count (add_log l msg w) = events_and_count w)
  /\ (forall c w, events_and_count (add_call c w) = events_and_count w)
  /\ (forall b w, events_and_count (set_current_batch b w) = events_and_count w)
  /\ (forall st w, events st = events (db w) ->
                   events_and_count (set_db st w) = events_and_count w).
Proof.
  repeat split; try reflexivity.
  intros st w H. unfold events_and_count. simpl. now rewrite H.
Qed.

(** A load of the manifest that returns has recorded the count of the
    loader: what it was, and the issues loaded since. *)
Lemma load_manifest_reports env name batch w w1 b :
  load_manifest env name batch w = (w1, Ok b) ->
  exists k,
    issues_processed w1 = issues_processed w + k
    /\ events (db w1)
       = events (db w) ++ [event name (processed (issues_processed w + k))].
Proof.
  destruct events_and_count_frames as (Fl & Fc & Fb & Fd).
  unfold load_manifest.
  unfold bind at 1, Batch_validated_batch_file_path.
  destruct (batch_validated_batch_file batch) as [file | ]; [ | discriminate ].
  unfold ret at 1. unfold bind at 1, lift.
  destruct (etree_parse_batch env _) as [doc | e]; [ | discriminate ].
  unfold bind at 1.
  assert (R : events_and_count
                (fst (for_each (bdoc_reels doc) (load_reel batch) w))
              = events_and_count w).
  { apply (frames_for_each events_and_count). intros x.
    apply (frames_load_reel events_and_count); auto. }
  destruct (for_each (bdoc_reels doc) (load_reel batch) w) as [w2 [[] | e]];
    simpl in R; [ | discriminate ].
  injection R as Re Ri.
  unfold bind at 1.
  pose proof (events_load_issues env batch (bdoc_issues doc) [] w2) as Ie.
  pose proof (load_issues_counts env batch (bdoc_issues doc) [] w2) as Ic.
  destruct (load_issues env batch (bdoc_issues doc) [] w2) as [w3 [t | e]];
    simpl in Ie; [ | discriminate ].
  specialize (Ic w3 t eq_refl). simpl in Ic. rewrite Nat.add_0_r in Ic.
  unfold bind at 1, gets. unfold bind at 1.
  assert (S : events_and_count (fst (solr SolrCommit w3)) = events_and_count w3)
    by (apply (frames_solr events_and_count); auto).
  destruct (PROCESS_OCR w3).
  - destruct (solr SolrCommit w3) as [w4 [[] | e]]; simpl in S;
      [ | discriminate ].
    injection S as Se Si.
    simpl. intros H. injection H as <- _. exists (List.length t). simpl.
    rewrite Si, Se, Ie, Re, Ic, Ri. auto.
  - simpl. intros H. injection H as <- _. exists (List.length t). simpl.
    rewrite Ie, Re, Ic, Ri. auto.
Qed.

(** X18: the count in "processed N issues" is the loader's, not the
    batch's.  [issues_processed] is set to zero when the loader is created
    and never after, and [load_batch] reports its value as it stands.  So a
    load that succeeds, of a batch that the store did not hold, records as
    its outcome "processed N issues" where N is the count that the loader
    had before the load plus the issues loaded by it: a loader that has
    loaded three issues of a first batch reports three more than the second
    batch has. *)
Theorem load_batch_reports_the_count_of_the_loader (env : Env) (raw : string)
  (strict : bool) (w w' : World) (b : Batch) :
  let name := Py.basename (Py.rstrip Py.is_slash raw) in
  filter (named name) (batches (db w)) = [] ->
  load_batch env raw strict w = (w', Ok b) ->
  exists k,
    issues_processed w' = issues_processed w + k
    /\ events (db w')
       = events (db w)
         ++ [event name "starting load";
             event name (processed (issues_processed w + k))].
Proof.
  intros name F H.
  destruct events_and_count_frames as (Fl & Fc & Fb & Fd).
  destruct (normalize_batch_name_outcome raw w) as [[B _] | [N _]];
    [ | rewrite load_batch_rejected in H by exact N; discriminate H ].
  fold name in B.
  assert (Hn : normalizes_to raw name) by (split; [reflexivity | exact B]).
  rewrite (load_batch_not_loaded env raw name strict w Hn F) in H.
  rewrite load_batch_fresh_outcome in H.
  unfold load_batch_try in H. unfold bind at 1 in H.
  assert (G : events_and_count (fst (_get_batch name true (load_started name w)))
              = events_and_count (load_started name w))
    by (apply (frames_get_batch events_and_count); auto).
  destruct (_get_batch name true (load_started name w)) as [w1 [b0 | e]];
    simpl in G; [ | discriminate H ].
  unfold bind at 1 in H.
  assert (S : events_and_count (fst (_sanity_check_batch env b0 w1))
              = events_and_count w1)
    by (apply (frames_sanity_check_batch events_and_count); auto).
  destruct (_sanity_check_batch env b0 w1) as [w2 [batch | e]]; simpl in S;
    [ | discriminate H ].
  unfold bind at 1, modify in H.
  destruct (load_manifest env name batch (set_current_batch batch w2))
    as [w3 [b3 | e]] eqn:L; [ | discriminate H ].
  injection H as <- <-.
  apply load_manifest_reports in L as (k & Hi & He).
  injection G as Ge Gi. injection S as Se Si.
  exists k. simpl in Hi, He. split.
  - rewrite Hi, Si, Gi. reflexivity.
  - rewrite He, Se, Ge, Si, Gi. simpl. now rewrite <- app_assoc.
Qed.

Lemma load_batch_reports_the_count_of_the_loader_witness :
  exists k,
    issues_processed (fst (load_batch Ex.env Ex.name true Cases.seasoned))
    = issues_processed Cases.seasoned + k
    /\ events (db (fst (load_batch Ex.env Ex.name true Cases.seasoned)))
       = events (db Cases.seasoned)
         ++ [event Ex.name "starting load";
             event Ex.name
               (processed (issues_processed Cases.seasoned + k))].
Proof.
  apply (load_batch_reports_the_count_of_the_loader Ex.env Ex.name true
           Cases.seasoned
           (fst (load_batch Ex.env Ex.name true Cases.seasoned)) Ex.batch).
  - reflexivity.
  - vm_compute. reflexivity.
Defined.

(** ** The commit of the index *)

Section Uncommitted.
Variable c0 : list call.

Ltac no_call_save :=
  let w0 := fresh "w" in
  let H := fresh "H" in
  intros w0 H; cbv beta delta [Reel_save Issue_save IssueNote_save Page_save
                               PageNote_save OCR_save] zeta;
  match goal with
  | |- context [tbl_save ?i ?s ?r ?t ?n] =>
      destruct (tbl_save i s r t n) as [[? ?] ?]
  end;
  exact H.

Lemma uncommitted_db st w : uncommitted c0 w -> uncommitted c0 (set_db st w).
Proof. intros H. exact H. Qed.

Lemma uncommitted_log l msg w :
  uncommitted c0 w -> uncommitted c0 (add_log l msg w).
Proof. intros H. exact H. Qed.

Lemma uncommitted_solr_add p : preserves (uncommitted c0) (solr (SolrAdd p)).
Proof.
  intros w (adds & C & F). unfold solr.
  destruct (PROCESS_OCR w); [ | now exists adds ].
  exists (adds ++ [SolrAdd p]). simpl. rewrite C, <- app_assoc.
  split; [reflexivity | ]. rewrite forallb_app, F. reflexivity.
Qed.

Lemma uncommitted_load_issues env batch es times :
  preserves (uncommitted c0) (load_issues env batch es times).
Proof.
  apply preserves_load_issues;
    try (intros; no_call_save);
    auto using uncommitted_log, uncommitted_solr_add.
Qed.

Lemma uncommitted_load_reel batch e :
  preserves (uncommitted c0) (load_reel batch e).
Proof. apply preserves_load_reel. intros r. no_call_save. Qed.

Lemma committed_db st w : committed c0 w -> committed c0 (set_db st w).
Proof. intros H. exact H. Qed.

(** The load of the manifest commits when it has got through its issues,
    and not before. *)
Lemma load_manifest_commits env name batch :
  hoare (uncommitted c0) (load_manifest env name batch)
    (fun _ => committed c0) (uncommitted c0).
Proof.
  unfold load_manifest.
  eapply hoare_bind with (R := fun _ => uncommitted c0).
  { unfold Batch_validated_batch_file_path.
    destruct (batch_validated_batch_file batch);
      [now apply hoare_ret | now apply hoare_raise]. }
  intros path.
  eapply hoare_bind with (R := fun _ => uncommitted c0).
  { apply hoare_lift; auto. }
  intros doc.
  eapply hoare_bind with (R := fun _ => uncommitted c0).
  { apply preserves_for_each. intros e. apply uncommitted_load_reel. }
  intros u.
  eapply hoare_bind with (R := fun _ => uncommitted c0).
  { apply uncommitted_load_issues. }
  intros times.
  eapply hoare_bind with
    (R := fun process w => process = PROCESS_OCR w /\ uncommitted c0 w).
  { apply hoare_gets. auto. }
  intros process.
  eapply hoare_bind with (R := fun _ => committed c0).
  { intros w [Hp (adds & C & F)]. destruct process.
    - unfold solr. rewrite <- Hp. exists adds. simpl. rewrite <- Hp, C.
      split; [now rewrite <- app_assoc | exact F].
    - exists adds. simpl. rewrite <- Hp, app_nil_r. auto. }
  intros u'.
  unfold Batch_save, LoadBatchEvent_save, logger.
  eapply hoare_bind with (R := fun _ => committed c0);
    [apply hoare_modify; intros w H; exact H | intros u2 ].
  eapply hoare_bind with (R := fun _ => committed c0);
    [apply hoare_gets; intros w H; exact H | intros n ].
  eapply hoare_bind with (R := fun _ => committed c0);
    [apply hoare_modify; intros w H; exact H | intros u3 ].
  eapply hoare_bind with (R := fun _ => committed c0);
    [apply hoare_modify; intros w H; exact H | intros u4 ].
  now apply hoare_ret.
Qed.

Lemma load_batch_try_commits env name :
  hoare (uncommitted c0) (load_batch_try env name)
    (fun _ => committed c0) (uncommitted c0).
Proof.
  unfold load_batch_try, _get_batch.
  eapply hoare_bind with (R := fun _ => uncommitted c0).
  { apply preserves_create_batch.
    - exact uncommitted_log.
    - intros b. apply preserves_modify. intros w H. exact H. }
  intros b0.
  eapply hoare_bind with (R := fun _ => uncommitted c0).
  { apply preserves_sanity_check_batch. }
  intros batch.
  eapply hoare_bind with (R := fun _ => uncommitted c0).
  { apply hoare_modify. intros w H. exact H. }
  intros u. apply load_manifest_commits.
Qed.

Lemma load_batch_fresh_commits env name :
  hoare (uncommitted c0) (load_batch_fresh env name)
    (fun _ => committed c0) (uncommitted c0).
Proof.
  unfold load_batch_fresh, load_batch_except, LoadBatchEvent_save, logger,
    logger_exception, logger.
  eapply hoare_bind with (R := fun _ => uncommitted c0);
    [apply hoare_modify; intros w H; exact H | intros u1 ].
  eapply hoare_bind with (R := fun _ => uncommitted c0);
    [apply hoare_modify; intros w H; exact H | intros u2 ].
  eapply hoare_try_except with (E1 := uncommitted c0);
    [ apply load_batch_try_commits | intros e | auto ].
  eapply hoare_bind with (R := fun _ => uncommitted c0);
    [apply hoare_modify; intros w H; exact H | intros u3 ].
  eapply hoare_bind with (R := fun _ => uncommitted c0);
    [apply hoare_modify; intros w H; exact H | intros u4 ].
  eapply hoare_bind with (R := fun _ => uncommitted c0);
    [apply hoare_modify; intros w H; exact H | intros u5 ].
  now apply hoare_raise.
Qed.

End Uncommitted.

(** X19: the index is committed once, by a load that got through.  The
    requests that [load_batch] adds to those already made are additions of
    documents to the index, one after the other, followed by a single commit
    when the load returns and the loader has an index connection.  A load
    that fails has committed nothing: the documents it has added to the
    index stay uncommitted.  A load that is not strict and finds the batch in
    the store asks nothing at all. *)
Theorem load_batch_commits_only_at_the_end (env : Env) (raw : string)
  (strict : bool) (w : World) :
  match load_batch env raw strict w with
  | (w', Ok _) => calls w' = calls w \/ committed (calls w) w'
  | (w', Raise _) => uncommitted (calls w) w'
  end.
Proof.
  assert (U : uncommitted (calls w) w).
  { exists []. now rewrite app_nil_r. }
  destruct (normalize_batch_name_outcome raw w) as [[B _] | [N _]].
  - set (name := Py.basename (Py.rstrip Py.is_slash raw)) in *.
    assert (Hn : normalizes_to raw name) by (split; [reflexivity | exact B]).
    rewrite (load_batch_normalized env raw name strict w Hn).
    pose proof (load_batch_fresh_commits (calls w) env name w U) as Fr.
    destruct strict; simpl negb; cbv iota.
    + change (bind (ret None) _ w) with (load_batch_fresh env name w).
      destruct (load_batch_fresh env name w) as [w' [b | e]];
        [now right | exact Fr].
    + unfold bind at 1, try_except. unfold bind at 1, Batch_objects_get.
      destruct (objects_get MBatch (named name) (batches (db w))) as [b0 | e0].
      * simpl. now left.
      * destruct (is_DoesNotExist MBatch e0); [ | exact U ].
        change (ret None w) with (w, @Ok (option Batch) None). cbv iota.
        destruct (load_batch_fresh env name w) as [w' [b | e]];
          [now right | exact Fr].
  - rewrite load_batch_rejected by exact N. exact U.
Qed.

(** ** The reels that pages bring *)

Section ImplicitReel.
Variables (env : Env) (doc : MetsDoc) (issue : Issue) (w : World).

Local Abbreviation reels_ok := (at_most_an_implicit_reel w).

Ltac other_table :=
  let w0 := fresh "w" in
  let H := fresh "H" in
  intros w0 H; cbv beta delta [Reel_save Issue_save IssueNote_save Page_save
                               PageNote_save OCR_save] zeta;
  match goal with
  | |- context [tbl_save ?i ?s ?r ?t ?n] =>
      destruct (tbl_save i s r t n) as [[? ?] ?]
  end;
  exact H.

Lemma reels_ok_log l msg w0 : reels_ok w0 -> reels_ok (add_log l msg w0).
Proof. intros H. exact H. Qed.

Lemma reels_ok_Page_save p : preserves reels_ok (Page_save p).
Proof. other_table. Qed.

Lemma reels_ok_PageNote_save x : preserves reels_ok (PageNote_save x).
Proof. other_table. Qed.

Lemma reels_ok_OCR_save o : preserves reels_ok (OCR_save o).
Proof. other_table. Qed.

Lemma reels_ok_solr c : preserves reels_ok (solr c).
Proof. intros w0 H. unfold solr. destruct (PROCESS_OCR w0); exact H. Qed.

Lemma reels_ok_start w0 : w0 = w -> reels_ok w0.
Proof. intros ->. now left. Qed.

(** The lookup of the reel of a page, and its creation. *)
Lemma reel_of_page number :
  hoare (fun w0 => w0 = w)
    (try_except
       (cb <- the_current_batch ;;
        r <- Reel_objects_get number cb ;;
        ret (reel_id r))
       (is_DoesNotExist MReel)
       (fun _ =>
          if Py.nonempty number then
            cb <- the_current_batch ;;
            r <- Reel_save {| reel_id := None; reel_number := number;
                              reel_batch := batch_name cb;
                              reel_implicit := true |} ;;
            ret (reel_id r)
          else
            logger WARNING "unable to find reel number in page metadata" ;;;
            ret None))
    (fun _ => reels_ok) reels_ok.
Proof.
  eapply hoare_try_except with (E1 := fun w0 => w0 = w);
    [ | intros e | apply reels_ok_start ].
  - eapply hoare_bind with (R := fun _ w0 => w0 = w).
    + intros w0 ->. unfold the_current_batch, bind, gets.
      destruct (current_batch w); reflexivity.
    + intros cb. eapply hoare_bind with (R := fun _ w0 => w0 = w).
      * intros w0 ->. unfold Reel_objects_get.
        destruct (objects_get MReel _ (reels (db w))); reflexivity.
      * intros r. apply hoare_ret. apply reels_ok_start.
  - destruct (Py.nonempty number) eqn:N.
    + eapply hoare_bind with
        (R := fun cb w0 => current_batch w = Some cb /\ w0 = w).
      * intros w0 ->. unfold the_current_batch, bind, gets.
        destruct (current_batch w); simpl; auto. now left.
      * intros cb. apply hoare_pure. intros C.
        eapply hoare_bind with (R := fun _ => reels_ok).
        -- intros w0 ->. unfold Reel_save, tbl_save. simpl.
           right. eexists. exists cb. split; [reflexivity | ]. simpl. auto.
        -- intros r. now apply hoare_ret.
    + eapply hoare_bind with (R := fun _ => reels_ok).
      * apply hoare_modify. intros w0 ->. now left.
      * intros u. now apply hoare_ret.
Qed.

Lemma load_page_reels div :
  hoare (fun w0 => w0 = w) (_load_page env doc div issue)
    (fun _ => reels_ok) reels_ok.
Proof.
  unfold _load_page.
  eapply hoare_bind with (R := fun _ w0 => w0 = w).
  { destruct (pdiv_DMDID div); simpl;
      [now apply hoare_ret | apply hoare_raise; apply reels_ok_start]. }
  intros dmdid.
  eapply hoare_bind with (R := fun _ w0 => w0 = w).
  { unfold dmd_mods. destruct (doc_dmdSec_mods doc dmdid); simpl;
      [apply hoare_raise; apply reels_ok_start | now apply hoare_ret]. }
  intros mods.
  eapply hoare_bind with (R := fun _ w0 => w0 = w).
  { destruct (Py.int (mods_extent_start mods));
      [now apply hoare_ret | apply hoare_raise; apply reels_ok_start]. }
  intros sequence.
  eapply hoare_bind; [apply reel_of_page | intros reel; cbv beta ].
  change (preserves reels_ok
            (logger INFO ("Assigned page sequence: " ++ str_Z sequence) ;;;
             section_label <-
               (if Py.nonempty (pdiv_section_DMDID div) then
                  section_mods <- dmd_mods doc (pdiv_section_DMDID div) ;;
                  ret (if Py.nonempty (Py.strip (mods_section_label section_mods))
                       then Some (Py.strip (mods_section_label section_mods))
                       else None)
                else ret None) ;;
             page <-
               Page_save {| page_id := None; page_sequence := sequence;
                            page_number := Py.strip (mods_page_number mods);
                            page_reel := reel;
                            page_section_label := section_label;
                            page_issue := issue_id issue;
                            page_tiff_filename := None;
                            page_jp2_filename := None;
                            page_jp2_width := PyNone;
                            page_jp2_length := PyNone;
                            page_pdf_filename := None;
                            page_ocr_filename := None;
                            page_indexed := false |} ;;
             for_each (mods_notes mods)
               (fun mods_note =>
                  PageNote_save {| pnote_id := None;
                                   pnote_type := mn_type mods_note;
                                   pnote_label := mn_displayLabel mods_note;
                                   pnote_text := Py.strip (mn_text mods_note);
                                   pnote_page := page_id page |} ;;;
                  ret tt) ;;;
             page <- load_files env doc issue page (pdiv_fptrs div) ;;
             process <- gets PROCESS_OCR ;;
             page <-
               (if text_truthy (page_ocr_filename page) then
                  if process then process_ocr env issue page true else ret page
                else
                  logger INFO ("No ocr filename for issue: "
                               ++ Issue_unicode env issue
                               ++ " page: " ++ Page_unicode env page) ;;;
                  ret page) ;;
             Page_save page)).
  repeat first
    [ apply preserves_process_ocr;
        solve [auto using reels_ok_Page_save, reels_ok_OCR_save, reels_ok_solr]
    | apply preserves_load_files; exact reels_ok_log
    | apply preserves_logger; exact reels_ok_log
    | apply reels_ok_Page_save
    | apply reels_ok_PageNote_save
    | apply preserves_for_each; intros ?
    | match goal with
      | |- preserves _ (dmd_mods _ _) =>
          unfold dmd_mods, item0;
          match goal with
          | |- context [doc_dmdSec_mods ?d ?i] => destruct (doc_dmdSec_mods d i)
          end; [apply preserves_raise | apply preserves_ret]
      | |- preserves _ (if ?c then _ else _) => destruct c
      | |- preserves _ (bind _ _) => apply preserves_bind; [ | intros ? ]
      | |- preserves _ (ret _) => apply preserves_ret
      | |- preserves _ (gets _) => apply preserves_gets
      end ].
Qed.

End ImplicitReel.

(** X20: the reels that pages bring.  Whether it returns or raises,
    [_load_page] leaves the reels of the store as they were, or adds one: a
    reel flagged implicit, of the loader's current batch, with a non-empty
    number.  A page whose metadata names no reel creates none, and a page
    never creates a reel that is not implicit. *)
Theorem load_page_adds_at_most_an_implicit_reel (env : Env) (doc : MetsDoc)
  (div : PageDiv) (issue : Issue) (w : World) :
  at_most_an_implicit_reel w (fst (_load_page env doc div issue w)).
Proof.
  pose proof (load_page_reels env doc issue w div w eq_refl) as H.
  destruct (_load_page env doc div issue w) as [w' [p | e]]; exact H.
Qed.
